(** * Glossary masking and anomaly detection of the Skyrim translation tools

    A shallow embedding of
      - [src/lib/db/schema.ts]      (the three tables and the anomaly classifier),
      - [src/scripts/mask_strings.ts] (glossary masking of the dialog strings),
      - the translation script      (glossary cache, [unmaskText],
                                     [translateText] and its run),
      - [src/scripts/scan_anomalies.ts], [src/scripts/import_strings.ts]
        and [src/scripts/export_strings.ts],
    and the properties of these functions.

    A JavaScript string is a sequence of UTF-16 code units.  The development
    covers the strings whose code units lie in 0..255 (Basic Latin and
    Latin-1 Supplement) and writes them as [list ascii]; on that range the
    case mappings below are the ones of [String.prototype.toLowerCase] and of
    the [Canonicalize] operation of a case-insensitive, non-unicode regular
    expression. *)

From Stdlib Require Import Ascii String List Bool Arith Lia ZArith.
From Stdlib Require Import Sorted Permutation.
From stdpp Require Import base list gmap strings.
Import ListNotations.

Local Open Scope char_scope.
Local Open Scope list_scope.

(** ** Strings *)

Module JS.

(** A string: its code units, in order. *)
Abbreviation jsstring := (list ascii).

(** A string literal. *)
Definition str (s : string) : jsstring := list_ascii_of_string s.

Definition code (c : ascii) : nat := nat_of_ascii c.

Definition in_range (lo hi c : ascii) : bool :=
  (code lo <=? code c)%nat && (code c <=? code hi)%nat.

Definition is_upper (c : ascii) : bool := in_range "A" "Z" c.
Definition is_lower (c : ascii) : bool := in_range "a" "z" c.
Definition is_digit (c : ascii) : bool := in_range "0" "9" c.
Definition is_letter (c : ascii) : bool := is_upper c || is_lower c.

(** [IsWordChar] of a regular expression without the unicode flag:
    the 63 characters [A-Za-z0-9_]. *)
Definition is_word_char (c : ascii) : bool :=
  is_upper c || is_lower c || is_digit c || Ascii.eqb c "_".

(** Latin-1 capital letters with a lower-case partner: U+00C0..U+00DE but
    the multiplication sign U+00D7. *)
Definition is_latin1_upper (c : ascii) : bool :=
  (192 <=? code c)%nat && (code c <=? 222)%nat && negb (code c =? 215)%nat.

(** Latin-1 small letters with a one-unit capital in the same range:
    U+00E0..U+00FE but the division sign U+00F7. *)
Definition is_latin1_lower (c : ascii) : bool :=
  (224 <=? code c)%nat && (code c <=? 254)%nat && negb (code c =? 247)%nat.

(** [String.prototype.toLowerCase], one code unit. *)
Definition toLowerChar (c : ascii) : ascii :=
  if is_upper c || is_latin1_upper c then ascii_of_nat (code c + 32) else c.

(** [Canonicalize] of a case-insensitive pattern (no unicode flag): the
    upper-case mapping when it is a single code unit.  On 0..255 the units
    whose capital lies outside the range (U+00B5, U+00FF) or is two units
    long (U+00DF) are the only members of their class and stand for
    themselves. *)
Definition canonicalize (c : ascii) : ascii :=
  if is_lower c || is_latin1_lower c then ascii_of_nat (code c - 32) else c.

(** [s.toLowerCase()] *)
Definition toLowerCase (s : jsstring) : jsstring := map toLowerChar s.

(** [s.includes(c)] for a one-character needle. *)
Definition includes_char (c : ascii) (s : jsstring) : bool :=
  existsb (Ascii.eqb c) s.

(** [s.startsWith(p)] *)
Fixpoint startsWith (p s : jsstring) : bool :=
  match p, s with
  | [], _ => true
  | a :: p', b :: s' => Ascii.eqb a b && startsWith p' s'
  | _ :: _, [] => false
  end.

(** [a === b] on strings. *)
Definition str_eqb (a b : jsstring) : bool := bool_decide (a = b).

(** [parts.join(sep)] *)
Fixpoint join (sep : jsstring) (parts : list jsstring) : jsstring :=
  match parts with
  | [] => []
  | [p] => p
  | p :: ps => p ++ sep ++ join sep ps
  end.

(** A value of type [string | null] read where JavaScript wants a boolean:
    [null] and the empty string are falsy. *)
Definition truthy (o : option jsstring) : bool :=
  match o with
  | Some (_ :: _) => true
  | _ => false
  end.

(** [${v}] in a template literal, for [v : string | null]. *)
Definition interpolate (o : option jsstring) : jsstring :=
  match o with
  | Some s => s
  | None => str "null"
  end.

End JS.
Import JS.

(** ** Regular expressions

    The fragment of ECMAScript patterns the sources use: pattern characters,
    character classes (plain or negated, with ranges), the assertion [\b],
    the greedy quantifier [+] on a one-character atom, sequence and
    alternation.  Capture groups only group here (no callback reads them), so
    they are not represented. *)

Module Regex.

Inductive class_item : Type :=
| CChar (c : ascii)
| CRange (lo hi : ascii).

Inductive atom : Type :=
| AChar (c : ascii)
| AClass (negated : bool) (items : list class_item).

Inductive regex : Type :=
| REmpty
| RAtom (a : atom)
| RWordB
| RPlus (a : atom)
| RSeq (r1 r2 : regex)
| RAlt (r1 r2 : regex).

(** [\d] *)
Definition digit_class : atom := AClass false [CRange "0" "9"].

Definition item_mem (c : ascii) (i : class_item) : bool :=
  match i with
  | CChar a => Ascii.eqb a c
  | CRange lo hi => in_range lo hi c
  end.

Definition class_mem (items : list class_item) (c : ascii) : bool :=
  existsb (item_mem c) items.

(** Every code unit of the modelled range. *)
Definition all_chars : list ascii := map ascii_of_nat (seq 0 256).

(** [CharacterSetMatcher]: with [ignoreCase] the input character is in the
    set when some member of the set has the same canonical form. *)
Definition atom_ok (ic : bool) (a : atom) (c : ascii) : bool :=
  match a with
  | AChar p =>
      if ic then Ascii.eqb (canonicalize p) (canonicalize c) else Ascii.eqb p c
  | AClass negated items =>
      let found :=
        if ic
        then existsb (fun m => class_mem items m
                               && Ascii.eqb (canonicalize m) (canonicalize c))
                     all_chars
        else class_mem items c in
      xorb negated found
  end.

(** A position in the input: the character before it, if any, and the
    characters from it on. *)
Definition state : Type := option ascii * jsstring.

(** The character before the position reached after reading [m]. *)
Definition prev_after (p : option ascii) (m : jsstring) : option ascii :=
  foldl (fun _ c => Some c) p m.

Definition word_before (st : state) : bool :=
  match fst st with Some c => is_word_char c | None => false end.

Definition word_after (st : state) : bool :=
  match snd st with c :: _ => is_word_char c | [] => false end.

(** [\b] holds where exactly one side is a word character. *)
Definition at_boundary (st : state) : bool :=
  xorb (word_before st) (word_after st).

(** The ends of the runs of one or more [ok] characters from the position,
    longest first: the order in which a greedy [+] offers them. *)
Fixpoint plus_ends (ok : ascii -> bool) (s : jsstring) : list state :=
  match s with
  | c :: s' => if ok c then plus_ends ok s' ++ [(Some c, s')] else []
  | [] => []
  end.

(** The backtracking matcher: every way [r] matches from the position, as
    the positions after the match, in the order a backtracking engine tries
    them.  The match a pattern reports is the first. *)
Fixpoint matches (ic : bool) (r : regex) (st : state) : list state :=
  match r with
  | REmpty => [st]
  | RAtom a =>
      match snd st with
      | c :: s' => if atom_ok ic a c then [(Some c, s')] else []
      | [] => []
      end
  | RWordB => if at_boundary st then [st] else []
  | RPlus a => plus_ends (atom_ok ic a) (snd st)
  | RSeq r1 r2 => flat_map (matches ic r2) (matches ic r1 st)
  | RAlt r1 r2 => matches ic r1 st ++ matches ic r2 st
  end.

(** The match at a position, if any: where it ends. *)
Definition match_at (ic : bool) (r : regex) (st : state) : option state :=
  head (matches ic r st).

(** [re.test(s)] for a pattern without the global flag: is there a match
    at some position, the end of the string included. *)
Fixpoint search (ic : bool) (r : regex) (prev : option ascii) (s : jsstring)
  : bool :=
  match match_at ic r (prev, s) with
  | Some _ => true
  | None =>
      match s with
      | [] => false
      | c :: s' => search ic r (Some c) s'
      end
  end.

Definition test (ic : bool) (r : regex) (s : jsstring) : bool :=
  search ic r None s.

(** What a global scan cuts the input into: the characters no match covers
    and the matches. *)
Inductive piece : Type :=
| Lit (c : ascii)
| Hit (m : jsstring).

(** The loop of a pattern with the global flag: the leftmost match from
    [lastIndex] on, then on from its end; after an empty match [lastIndex]
    moves one character on.  Every turn of the loop passes at least one
    character or ends it, so [S (length s)] turns are enough. *)
Fixpoint scan_loop (fuel : nat) (ic : bool) (r : regex)
    (prev : option ascii) (s : jsstring) : list piece :=
  match fuel with
  | O => map Lit s
  | S fuel' =>
      match match_at ic r (prev, s) with
      | Some (prev', rest) =>
          match take (length s - length rest) s with
          | [] =>
              Hit [] ::
              match s with
              | [] => []
              | c :: s' => Lit c :: scan_loop fuel' ic r (Some c) s'
              end
          | m => Hit m :: scan_loop fuel' ic r prev' rest
          end
      | None =>
          match s with
          | [] => []
          | c :: s' => Lit c :: scan_loop fuel' ic r (Some c) s'
          end
      end
  end.

Definition scan (ic : bool) (r : regex) (prev : option ascii) (s : jsstring)
  : list piece :=
  scan_loop (S (length s)) ic r prev s.

Definition render (f : jsstring -> jsstring) (p : piece) : jsstring :=
  match p with
  | Lit c => [c]
  | Hit m => f m
  end.

(** [s.replace(re, f)] for a global pattern and a replacer function. *)
Definition replace_from (ic : bool) (r : regex) (f : jsstring -> jsstring)
    (prev : option ascii) (s : jsstring) : jsstring :=
  concat (map (render f) (scan ic r prev s)).

Definition replace (ic : bool) (r : regex) (f : jsstring -> jsstring)
    (s : jsstring) : jsstring :=
  replace_from ic r f None s.

(** [s.match(re)] for a global pattern: the matches ([null] read as []). *)
Definition match_all (ic : bool) (r : regex) (s : jsstring) : list jsstring :=
  flat_map (fun p => match p with Hit m => [m] | Lit _ => [] end)
           (scan ic r None s).

End Regex.
Import Regex.

(** ** The tables ([src/lib/db/schema.ts]) *)

(** A row of [glossary]: [id] is the primary key, [term] is [notNull] and
    [unique], [category] may be null. *)
Module Glossary.
Record row : Type := mk {
  id : jsstring;
  term : jsstring;
  category : option jsstring
}.
End Glossary.

(** A row of [dialog_strings]. *)
Module DialogStrings.
Record row : Type := mk {
  id : Z;
  fileId : Z;
  sId : jsstring;
  listId : option jsstring;
  source : option jsstring;
  dest : option jsstring;
  maskedSource : option jsstring
}.
End DialogStrings.

(** ** The anomaly classifier ([src/lib/db/schema.ts]) *)

Module Schema.

Inductive AnomalyType : Type :=
| MISSING
| SAME
| DLC
| TECHNICAL
| PUNCTUATION.

(** [/DLC\d+/i] *)
Definition dlc_pattern : regex :=
  RSeq (RAtom (AChar "D")) (RSeq (RAtom (AChar "L"))
    (RSeq (RAtom (AChar "C")) (RPlus digit_class))).

Definition isDLC (text : jsstring) : bool :=
  test true dlc_pattern text || startsWith (str "DLC") text.

(** [/[A-Z]/], [/[0-9]/] and [/_/] *)
Definition upper_pattern : regex := RAtom (AClass false [CRange "A" "Z"]).
Definition number_pattern : regex := RAtom (AClass false [CRange "0" "9"]).
Definition underscore_pattern : regex := RAtom (AChar "_").

Definition isTechnical (text : jsstring) : bool :=
  if includes_char " " text then false
  else
    let hasUpper := test false upper_pattern text in
    if negb hasUpper then false
    else
      let hasNumber := test false number_pattern text in
      let hasUnderscore := test false underscore_pattern text in
      let upperCount := length (match_all false upper_pattern text) in
      hasNumber || hasUnderscore || (1 <? upperCount)%nat.

(** The global pattern of every character but [<], [>] and the double
    quote (code 34). *)
Definition non_critical_pattern : regex :=
  RAtom (AClass true [CChar "<"; CChar ">"; CChar "034"]).

Definition getCriticalPunctuation (s : jsstring) : jsstring :=
  replace false non_critical_pattern (fun _ => []) s.

Definition isPunctuationMismatch (source dest : jsstring) : bool :=
  if negb (truthy (Some dest)) then false
  else negb (str_eqb (getCriticalPunctuation source)
                     (getCriticalPunctuation dest)).

Definition getAnomalyTypes (source : jsstring) (dest : option jsstring)
  : list AnomalyType :=
  let types0 :=
    match dest with
    | Some (c :: d) =>
        if str_eqb source (c :: d) then [SAME]
        else if isPunctuationMismatch source (c :: d) then [PUNCTUATION]
        else []
    | _ => [MISSING]
    end in
  let types1 := if isDLC source then types0 ++ [DLC] else types0 in
  if isTechnical source then types1 ++ [TECHNICAL] else types1.

End Schema.

(** ** Masking ([src/scripts/mask_strings.ts]) *)

Module MaskStrings.

(** An element of [sortedTerms]. *)
Record entry : Type := mkEntry {
  term : jsstring;
  id : jsstring;
  category : jsstring
}.

(** [t.category || 'Term'] *)
Definition category_or_Term (c : option jsstring) : jsstring :=
  match c with
  | Some (a :: c') => a :: c'
  | _ => str "Term"
  end.

Definition to_entry (t : Glossary.row) : entry :=
  {| term := Glossary.term t;
     id := Glossary.id t;
     category := category_or_Term (Glossary.category t) |}.

(** [Array.prototype.sort] is stable; the comparator
    [(a, b) => b.term.length - a.term.length] orders by descending length.
    [insert_desc x l] puts [x], which came before the elements of [l], in
    front of the first one that is not longer. *)
Fixpoint insert_desc (x : entry) (l : list entry) : list entry :=
  match l with
  | [] => [x]
  | y :: l' =>
      if (length (term x) <? length (term y))%nat
      then y :: insert_desc x l'
      else x :: y :: l'
  end.

Definition sort_desc (l : list entry) : list entry := foldr insert_desc [] l.

Definition sortedTerms (glossaryTerms : list Glossary.row) : list entry :=
  sort_desc (map to_entry glossaryTerms).

(** [termLookup]: lower-cased term to [{id, category}]; a later [set]
    replaces an earlier one. *)
Definition termLookup (sorted : list entry)
  : gmap jsstring (jsstring * jsstring) :=
  foldl (fun m t => <[toLowerCase (term t) := (id t, category t)]> m) ∅ sorted.

Definition termSet (sorted : list entry) : gset jsstring :=
  foldl (fun s t => {[toLowerCase (term t)]} ∪ s) ∅ sorted.

(** The syntax characters, the set [/[.*+?^${}()|[\]\\]/g] names. *)
Definition syntax_chars : list ascii :=
  ["."; "*"; "+"; "?"; "^"; "$"; "{"; "}"; "("; ")"; "|"; "["; "]"; "\"].

Definition syntax_pattern : regex :=
  RAtom (AClass false (map CChar syntax_chars)).

(** The replacement ['\\$&']: a backslash, then the match. *)
Definition escapeRegExp (string : jsstring) : jsstring :=
  replace false syntax_pattern (fun m => "\" :: m) string.

Definition escapedTerms (sorted : list entry) : list jsstring :=
  map (fun t => str "\b" ++ escapeRegExp (term t) ++ str "\b") sorted.

Definition is_syntax_char (c : ascii) : bool :=
  existsb (Ascii.eqb c) syntax_chars.

Definition push (x : regex) (p : option (regex * list regex))
  : option (regex * list regex) :=
  match p with
  | Some (a, alts) => Some (RSeq x a, alts)
  | None => None
  end.

(** Reading a pattern source, for the sources made of pattern characters,
    escaped syntax characters, [\b] and [|]: the first alternative and the
    others.  [None] on anything else. *)
Fixpoint parse (src : jsstring) : option (regex * list regex) :=
  match src with
  | [] => Some (REmpty, [])
  | c :: s' =>
      if Ascii.eqb c "\" then
        match s' with
        | [] => None
        | e :: s'' =>
            if Ascii.eqb e "b" then push RWordB (parse s'')
            else if is_syntax_char e then push (RAtom (AChar e)) (parse s'')
            else None
        end
      else if Ascii.eqb c "|" then
        match parse s' with
        | Some (a, alts) => Some (REmpty, a :: alts)
        | None => None
        end
      else if is_syntax_char c then None
      else push (RAtom (AChar c)) (parse s')
  end.

Fixpoint disjunction (a : regex) (alts : list regex) : regex :=
  match alts with
  | [] => a
  | b :: more => RAlt a (disjunction b more)
  end.

(** [new RegExp(src, flags)], the pattern part. *)
Definition compile (src : jsstring) : option regex :=
  match parse src with
  | Some (a, alts) => Some (disjunction a alts)
  | None => None
  end.

(** The token [[Category_ID]]. *)
Definition placeholder (category id : jsstring) : jsstring :=
  "[" :: category ++ "_" :: id ++ ["]"].

(** The replacer of the masking step. *)
Definition mask_replacer (lookup : gmap jsstring (jsstring * jsstring))
    (match_ : jsstring) : jsstring :=
  match lookup !! toLowerCase match_ with
  | Some info => placeholder (snd info) (fst info)
  | None => match_
  end.

(** What the build phase leaves for the loop over the records. *)
Record matcher : Type := mkMatcher {
  m_termSet : gset jsstring;
  m_termLookup : gmap jsstring (jsstring * jsstring);
  m_pattern : regex
}.

(** The build phase; [None] when there is no term ("No terms to mask.") or
    the pattern source is not a pattern. *)
Definition build (glossaryTerms : list Glossary.row) : option matcher :=
  let sorted := sortedTerms glossaryTerms in
  let escaped := escapedTerms sorted in
  if (length escaped =? 0)%nat then None
  else
    match compile (join (str "|") escaped) with
    | Some pattern =>
        Some {| m_termSet := termSet sorted;
                m_termLookup := termLookup sorted;
                m_pattern := pattern |}
    | None => None
    end.

(** [source.replace(pattern, (match) => ...)] with the flags [gi]. *)
Definition mask_from (m : matcher) (prev : option ascii) (source : jsstring)
  : jsstring :=
  replace_from true (m_pattern m) (mask_replacer (m_termLookup m)) prev source.

Definition mask (m : matcher) (source : jsstring) : jsstring :=
  mask_from m None source.

(** The masked text of a source under a glossary: what the loop computes
    as [newMasked], and the source itself when the run stops before the
    loop. *)
Definition maskText (glossaryTerms : list Glossary.row) (source : jsstring)
  : jsstring :=
  match build glossaryTerms with
  | Some m => mask m source
  | None => source
  end.

(** An element of [updates]. *)
Record update : Type := mkUpdate {
  u_id : Z;
  u_dest : option jsstring;
  u_maskedSource : jsstring
}.

(** One turn of the loop over [allStrings]: the update it pushes, if any. *)
Definition processRecord (m : matcher) (record : DialogStrings.row)
  : option update :=
  match DialogStrings.source record with
  | Some (c :: s) =>
      let source := c :: s in
      let autofill :=
        bool_decide (toLowerCase source ∈ m_termSet m)
        && negb (bool_decide (DialogStrings.dest record = Some source)) in
      let dest := if autofill then Some source else DialogStrings.dest record in
      let newMasked := mask m source in
      let changed :=
        negb (bool_decide (Some newMasked = DialogStrings.maskedSource record)) in
      let masked := if changed then newMasked else source in
      if autofill || changed
      then Some {| u_id := DialogStrings.id record;
                   u_dest := dest;
                   u_maskedSource := masked |}
      else None
  | _ => None
  end.

(** [.set({ dest: u.dest, maskedSource: u.maskedSource })] on one row. *)
Definition set_fields (r : DialogStrings.row) (u : update)
  : DialogStrings.row :=
  {| DialogStrings.id := DialogStrings.id r;
     DialogStrings.fileId := DialogStrings.fileId r;
     DialogStrings.sId := DialogStrings.sId r;
     DialogStrings.listId := DialogStrings.listId r;
     DialogStrings.source := DialogStrings.source r;
     DialogStrings.dest := u_dest u;
     DialogStrings.maskedSource := Some (u_maskedSource u) |}.

(** [db.update(dialogStrings).set(...).where(eq(dialogStrings.id, u.id))] *)
Definition applyUpdate (u : update) (table : list DialogStrings.row)
  : list DialogStrings.row :=
  map (fun r =>
         if bool_decide (DialogStrings.id r = u_id u)
         then set_fields r u
         else r)
      table.

(** [main] from "Re-build term list" on: the [dialog_strings] table after
    the committed run, given the rows of [glossary] and of [dialog_strings]
    before it. *)
Definition main (glossaryTerms : list Glossary.row)
    (allStrings : list DialogStrings.row) : list DialogStrings.row :=
  match build glossaryTerms with
  | None => allStrings
  | Some m =>
      let updates := omap (processRecord m) allStrings in
      foldl (fun table u => applyUpdate u table) allStrings updates
  end.

End MaskStrings.

(** ** Unmasking (the translation script) *)

Module Translate.

(** [loadGlossaryCache]: [[Category_ID]] to the term. *)
Definition cache_key (t : Glossary.row) : jsstring :=
  "[" :: interpolate (Glossary.category t)
      ++ "_" :: Glossary.id t ++ ["]"].

Definition loadGlossaryCache (terms : list Glossary.row)
  : gmap jsstring jsstring :=
  foldl (fun cache t => <[cache_key t := Glossary.term t]> cache) ∅ terms.

Definition letter_class : atom := AClass false [CRange "A" "Z"; CRange "a" "z"].
Definition id_class : atom := AClass false [CRange "a" "z"; CRange "0" "9"].

(** [/\[([A-Za-z]+)_([a-z0-9]+)\]/g] *)
Definition placeholder_pattern : regex :=
  RSeq (RAtom (AChar "["))
    (RSeq (RPlus letter_class)
      (RSeq (RAtom (AChar "_"))
        (RSeq (RPlus id_class) (RAtom (AChar "]"))))).

(** [original || match] *)
Definition unmask_replacer (cache : gmap jsstring jsstring)
    (match_ : jsstring) : jsstring :=
  match cache !! match_ with
  | Some (c :: original) => c :: original
  | _ => match_
  end.

Definition unmask_from (cache : gmap jsstring jsstring)
    (prev : option ascii) (text : jsstring) : jsstring :=
  replace_from false placeholder_pattern (unmask_replacer cache) prev text.

Definition unmaskText (text : jsstring) (cache : gmap jsstring jsstring)
  : jsstring :=
  replace false placeholder_pattern (unmask_replacer cache) text.

End Translate.

(** ** Vocabulary of the properties *)

Module Spec.
Import MaskStrings Schema.

(** What a run does to one row: the update of its turn of the loop, if
    the turn pushes one. *)
Definition maskRecord (m : matcher) (r : DialogStrings.row)
  : DialogStrings.row :=
  match processRecord m r with
  | Some u => set_fields r u
  | None => r
  end.

(** The source of the row is non-empty and is a glossary term up to case:
    the condition of the "Auto-fill Dest Logic". *)
Definition autofill_applies (glossaryTerms : list Glossary.row)
    (r : DialogStrings.row) : Prop :=
  exists s t,
    DialogStrings.source r = Some s /\ s <> []
    /\ In t glossaryTerms
    /\ toLowerCase (Glossary.term t) = toLowerCase s.

(** The frame property as first stated: a run leaves every [dest] as it
    was. *)
Definition masking_leaves_dest (glossaryTerms : list Glossary.row)
    (table : list DialogStrings.row) : Prop :=
  map DialogStrings.dest (main glossaryTerms table)
  = map DialogStrings.dest table.

(** The three characters whose sequence a translation must keep. *)
Definition is_critical (c : ascii) : bool :=
  Ascii.eqb c "<" || Ascii.eqb c ">" || Ascii.eqb c "034".

(** A string stripped down to its critical characters, order and
    multiplicity kept. *)
Definition critical_subsequence (s : jsstring) : jsstring :=
  List.filter is_critical s.

(** How many upper-case letters a string has. *)
Definition upper_count (s : jsstring) : nat :=
  length (List.filter is_upper s).

(** [text] has, somewhere, the letters D, L, C in either case with one or
    more digits right after them. *)
Definition has_dlc_digit (text : jsstring) : Prop :=
  exists pre w digits post,
    text = pre ++ w ++ digits ++ post
    /\ toLowerCase w = str "dlc"
    /\ digits <> [] /\ forallb is_digit digits = true.

(** The longest prefix of [ok] characters, and what follows it. *)
Fixpoint span (ok : ascii -> bool) (s : jsstring) : jsstring * jsstring :=
  match s with
  | c :: s' =>
      if ok c then (c :: fst (span ok s'), snd (span ok s')) else ([], s)
  | [] => ([], [])
  end.

(** The characters of the id segment, [a-z0-9]. *)
Definition is_id_char (c : ascii) : bool := is_lower c || is_digit c.

(** The placeholder grammar: a bracket, one or more letters, an
    underscore, one or more of [a-z0-9], a bracket. *)
Definition is_placeholder (tok : jsstring) : Prop :=
  exists cat id,
    tok = "[" :: cat ++ "_" :: id ++ ["]"]
    /\ cat <> [] /\ forallb is_letter cat = true
    /\ id <> [] /\ forallb is_id_char id = true.

(** Reading a placeholder at the head of [s]: the token and the rest. *)
Definition read_placeholder (s : jsstring) : option (jsstring * jsstring) :=
  match s with
  | c :: s1 =>
      if Ascii.eqb "[" c then
        match span is_letter s1 with
        | (a :: cat, u :: s2) =>
            if Ascii.eqb "_" u then
              match span is_id_char s2 with
              | (b :: id, k :: s3) =>
                  if Ascii.eqb "]" k
                  then Some ("[" :: (a :: cat) ++ "_" :: (b :: id) ++ ["]"], s3)
                  else None
              | _ => None
              end
            else None
        | _ => None
        end
      else None
  | [] => None
  end.

(** [s] has a substring that matches the placeholder grammar. *)
Definition has_placeholder (s : jsstring) : Prop :=
  exists pre tok post, s = pre ++ tok ++ post /\ is_placeholder tok.

(** The same, as a check that runs. *)
Fixpoint has_placeholder_b (s : jsstring) : bool :=
  match s with
  | [] => false
  | _ :: s' =>
      match read_placeholder s with Some _ => true | None => false end
      || has_placeholder_b s'
  end.

(** Every opening bracket of [x] begins a well-formed placeholder: [x] has
    no partial placeholder. *)
Definition brackets_open_placeholders (x : jsstring) : Prop :=
  forall pre z, x = pre ++ "[" :: z ->
    exists tok rest, is_placeholder tok /\ "[" :: z = tok ++ rest.

(** The same, as a check that runs. *)
Fixpoint brackets_open_placeholders_b (x : jsstring) : bool :=
  match x with
  | [] => true
  | c :: x' =>
      (if Ascii.eqb "[" c
       then match read_placeholder x with Some _ => true | None => false end
       else true)
      && brackets_open_placeholders_b x'
  end.

(** Idempotence of unmasking as first stated: for a cache whose terms hold
    no placeholder, on a text made of well-formed placeholders. *)
Definition unmask_idempotent_claim : Prop :=
  forall (cache : gmap jsstring jsstring) (x : jsstring),
    (forall k t, cache !! k = Some t -> ~ has_placeholder t) ->
    brackets_open_placeholders x ->
    Translate.unmaskText (Translate.unmaskText x cache) cache
    = Translate.unmaskText x cache.

(** Fail-open unmasking as first stated: a placeholder that is a key of
    the cache is replaced with the cached term. *)
Definition unmask_replaces_keys_claim : Prop :=
  forall (cache : gmap jsstring jsstring) (pre tok post term : jsstring),
    is_placeholder tok ->
    cache !! tok = Some term ->
    Translate.unmaskText (pre ++ tok ++ post) cache
    = Translate.unmaskText pre cache ++ term
      ++ Translate.unmaskText post cache.

(** [a] may stand before [b]: [b] is not longer. *)
Definition not_longer (a b : entry) : Prop :=
  length (term b) <= length (term a).

(** What [escapeRegExp] does to one character. *)
Definition escape_char (c : ascii) : jsstring :=
  if is_syntax_char c then ["\"; c] else [c].

(** The pattern of one glossary term: [\b], its characters, [\b]. *)
Fixpoint lit_then (t : jsstring) (k : regex) : regex :=
  match t with
  | [] => k
  | c :: t' => RSeq (RAtom (AChar c)) (lit_then t' k)
  end.

Definition term_regex (t : jsstring) : regex :=
  RSeq RWordB (lit_then t (RSeq RWordB REmpty)).

(** The alternation of the terms' patterns, in the order of the list. *)
Definition mask_pattern (sorted : list entry) : regex :=
  match map (fun e => term_regex (term e)) sorted with
  | [] => REmpty
  | a :: alts => disjunction a alts
  end.

(** [t] is a prefix of [s] up to case. *)
Fixpoint ic_prefix (t s : jsstring) : bool :=
  match t, s with
  | [], _ => true
  | c :: t', x :: s' =>
      Ascii.eqb (canonicalize c) (canonicalize x) && ic_prefix t' s'
  | _ :: _, [] => false
  end.

(** The pattern of [t] matches at the position whose previous character
    is [prev] and whose remaining text is [s]: a word boundary ([\b]), the
    characters of [t] up to case, a word boundary. *)
Definition occurs_at (t : jsstring) (prev : option ascii) (s : jsstring)
  : bool :=
  at_boundary (prev, s)
  && ic_prefix t s
  && at_boundary (prev_after prev (take (length t) s), drop (length t) s).

(** The first term of the list whose pattern matches at the position. *)
Definition first_match (sorted : list entry) (prev : option ascii)
    (s : jsstring) : option entry :=
  find (fun e => occurs_at (term e) prev s) sorted.

(** The matcher of a list of terms taken in the order given. *)
Definition matcher_of (sorted : list entry) : matcher :=
  {| m_termSet := termSet sorted;
     m_termLookup := termLookup sorted;
     m_pattern := mask_pattern sorted |}.

(** Masking, in words: the text is read from left to right; where the
    pattern of no term matches the character is kept; where some do, the
    span of a longest of them is replaced with the placeholder of a term
    equal to the span up to case, and reading goes on after the span. *)
Inductive masked_as (es : list entry)
  : option ascii -> jsstring -> jsstring -> Prop :=
| masked_end p : masked_as es p [] []
| masked_keep p c s out :
    (forall e, In e es -> occurs_at (term e) p (c :: s) = false) ->
    masked_as es (Some c) s out ->
    masked_as es p (c :: s) (c :: out)
| masked_replace p m rest e e' out :
    In e es -> m <> [] -> length m = length (term e) ->
    occurs_at (term e) p (m ++ rest) = true ->
    (forall e2, In e2 es -> occurs_at (term e2) p (m ++ rest) = true ->
                length (term e2) <= length (term e)) ->
    In e' es -> toLowerCase (term e') = toLowerCase m ->
    masked_as es (prev_after p m) rest out ->
    masked_as es p (m ++ rest) (placeholder (category e') (id e') ++ out).



(** Is the span of [len] characters from [start] inside one match? The
    pieces are those of a scan, [offset] is where the first begins. *)
Fixpoint covered (pieces : list piece) (start len offset : nat) : bool :=
  match pieces with
  | [] => false
  | Lit _ :: ps => covered ps start len (S offset)
  | Hit m :: ps =>
      ((offset <=? start)%nat && (start + len <=? offset + length m)%nat)
      || covered ps start len (offset + length m)
  end.

(** [a] is a substring of [b]. *)
Definition substring (a b : jsstring) : Prop :=
  exists pre post, b = pre ++ a ++ post.

(** Nothing of a word stands there: the text begins or ends, or the
    character is none of [A-Za-z0-9_]. *)
Definition no_word_char (c : option ascii) : bool :=
  match c with
  | Some c => negb (is_word_char c)
  | None => true
  end.

(** [t] stands as a whole word, up to case, at the position whose previous
    character is [prev] and whose remaining text is [s]: the characters of
    [t] follow, up to case, and neither the character before them nor the
    character after them is a word character. *)
Definition whole_word_at (t : jsstring) (prev : option ascii) (s : jsstring)
  : bool :=
  ic_prefix t s
  && no_word_char prev
  && no_word_char (head (drop (length t) s)).

(** The term begins and ends with a word character. *)
Definition word_ended (t : jsstring) : bool :=
  match head t, list.last t with
  | Some a, Some b => is_word_char a && is_word_char b
  | _, _ => false
  end.

(** The number of characters of the text the pieces stand for. *)
Definition pieces_length (pieces : list piece) : nat :=
  list_sum (map (fun p => match p with Lit _ => 1 | Hit m => length m end)
              pieces).

(** Does the position [pos] lie inside a match of the scan: after its
    first character and before its end?  [offset] is where the first piece
    begins. *)
Fixpoint inside_match (pieces : list piece) (pos offset : nat) : bool :=
  match pieces with
  | [] => false
  | Lit _ :: ps => inside_match ps pos (S offset)
  | Hit m :: ps =>
      ((offset <? pos)%nat && (pos <? offset + length m)%nat)
      || inside_match ps pos (offset + length m)
  end.

(** Longest-match priority as first stated: whenever a term is a substring
    of another and the longer occurs in a text as a whole word, the span of
    that occurrence lies inside one match of the scan. *)
Definition longest_span_claim : Prop :=
  forall (g : list Glossary.row) (m : matcher) (short long : Glossary.row)
         (pre s : jsstring),
    build g = Some m ->
    In short g -> In long g ->
    substring (Glossary.term short) (Glossary.term long) ->
    whole_word_at (Glossary.term long) (prev_after None pre) s = true ->
    covered (scan true (m_pattern m) None (pre ++ s))
            (length pre) (length (Glossary.term long)) 0 = true.

(** A row of the glossary as the masking run leaves it: a non-empty term,
    a category of letters, an id of lower-case letters and digits. *)
Definition wf_row (t : Glossary.row) : Prop :=
  Glossary.term t <> []
  /\ (exists c, Glossary.category t = Some c /\ c <> []
                /\ forallb is_letter c = true)
  /\ Glossary.id t <> []
  /\ forallb is_id_char (Glossary.id t) = true.

(** The glossary table: [id] is its primary key. *)
Definition wf_glossary (g : list Glossary.row) : Prop :=
  NoDup (map Glossary.id g) /\ forall t, In t g -> wf_row t.

(** Every whole-word occurrence, up to case, of a glossary term in [s] is
    spelled as in the glossary; [p] is the character before [s]. *)
Definition casing_from (g : list Glossary.row) (p : option ascii)
    (s : jsstring) : Prop :=
  forall pre suf t,
    s = pre ++ suf -> In t g ->
    occurs_at (Glossary.term t) (prev_after p pre) suf = true ->
    take (length (Glossary.term t)) suf = Glossary.term t.

Definition glossary_casing (g : list Glossary.row) (text : jsstring) : Prop :=
  casing_from g None text.

(** The same, as a check that runs. *)
Fixpoint casing_from_b (g : list Glossary.row) (p : option ascii)
    (s : jsstring) : bool :=
  forallb (fun t => implb (occurs_at (Glossary.term t) p s)
                      (str_eqb (take (length (Glossary.term t)) s)
                               (Glossary.term t))) g
  && match s with
     | [] => true
     | c :: s' => casing_from_b g (Some c) s'
     end.





(** Masking by whole words, in words: the text is read from left to
    right; where no term stands as a whole word the character is kept;
    where some do, the span of a longest of them is replaced with the
    placeholder of a term equal to the span up to case, and reading goes on
    after the span. *)
Inductive masked_words (es : list entry)
  : option ascii -> jsstring -> jsstring -> Prop :=
| words_end p : masked_words es p [] []
| words_keep p c s out :
    (forall e, In e es -> whole_word_at (term e) p (c :: s) = false) ->
    masked_words es (Some c) s out ->
    masked_words es p (c :: s) (c :: out)
| words_replace p m rest e e' out :
    In e es -> m <> [] -> length m = length (term e) ->
    whole_word_at (term e) p (m ++ rest) = true ->
    (forall e2, In e2 es -> whole_word_at (term e2) p (m ++ rest) = true ->
                length (term e2) <= length (term e)) ->
    In e' es -> toLowerCase (term e') = toLowerCase m ->
    masked_words es (prev_after p m) rest out ->
    masked_words es p (m ++ rest) (placeholder (category e') (id e') ++ out).

End Spec.

(** ** Concrete glossaries, tables and texts *)

Module Examples.

Definition term_row (id term category : string) : Glossary.row :=
  Glossary.mk (str id) (str term) (Some (str category)).

Definition whiterun : list Glossary.row :=
  [term_row "a1" "Whiterun" "Location"].

(** Two rows of [dialog_strings] not yet translated ([dest] is the empty
    string): one whose source is a glossary term, one sentence. *)
Definition two_rows : list DialogStrings.row :=
  [DialogStrings.mk 1 1 (str "s1") (Some (str "0"))
     (Some (str "Whiterun")) (Some []) None;
   DialogStrings.mk 2 1 (str "s2") (Some (str "0"))
     (Some (str "Welcome to Whiterun, traveler.")) (Some []) None].

(** A cache that holds the empty string for a placeholder. *)
Definition empty_term_cache : gmap jsstring jsstring :=
  {[ str "[Item_a1]" := [] ]}.

(** A glossary two of whose terms join into a placeholder, though none
    holds one. *)
Definition joining_terms : list Glossary.row :=
  [term_row "b" "[C_" "A"; term_row "e" "f]" "D"; term_row "f" "boom" "C"].

Definition skyrim : list Glossary.row :=
  [term_row "a1" "Skyrim" "Location"; term_row "b2" "Skyrim Hold" "Location"].

(** Three terms of which the second is a substring of the third, and the
    first overlaps the third. *)
Definition brotherhood : list Glossary.row :=
  [term_row "a1" "Dark Brotherhood" "Faction";
   term_row "b2" "Sanctuary" "Location";
   term_row "c3" "Brotherhood Sanctuary" "Location"].


(** A quest whose name ends with an exclamation mark, alone and with a
    word of it. *)
Definition lights_out : list Glossary.row :=
  [term_row "q1" "Lights Out!" "Quest"].

Definition lights : list Glossary.row :=
  [term_row "q1" "Lights Out!" "Quest"; term_row "a1" "Lights" "Item"].

(** A term that overlaps itself, and a substring of it. *)
Definition shout : list Glossary.row :=
  [term_row "a1" "Fus" "Shout"; term_row "b2" "Fus Ro Fus" "Shout"].

End Examples.

(** ** The anomaly scan ([src/scripts/scan_anomalies.ts]) *)

Module ScanAnomalies.
Import Schema.

#[global] Instance AnomalyType_eq_dec : EqDecision AnomalyType.
Proof. solve_decision. Defined.

(** The object [stats]: a counter for each tag, [total] and [anomalies]. *)
Record stats : Type := mkStats {
  n_missing : nat;
  n_same : nat;
  n_dlc : nat;
  n_tech : nat;
  n_punct : nat;
  total : nat;
  anomalies : nat
}.

(** The object [details]: sample lines for three of the tags. *)
Record details : Type := mkDetails {
  s_dlc : list jsstring;
  s_tech : list jsstring;
  s_punct : list jsstring
}.

(** [stats[t]] *)
Definition count (t : AnomalyType) (s : stats) : nat :=
  match t with
  | MISSING => n_missing s
  | SAME => n_same s
  | DLC => n_dlc s
  | TECHNICAL => n_tech s
  | PUNCTUATION => n_punct s
  end.

(** [stats[t]++]; [stats] has a property for each of the five tags. *)
Definition bump (t : AnomalyType) (s : stats) : stats :=
  match t with
  | MISSING => mkStats (S (n_missing s)) (n_same s) (n_dlc s) (n_tech s)
                 (n_punct s) (total s) (anomalies s)
  | SAME => mkStats (n_missing s) (S (n_same s)) (n_dlc s) (n_tech s)
              (n_punct s) (total s) (anomalies s)
  | DLC => mkStats (n_missing s) (n_same s) (S (n_dlc s)) (n_tech s)
             (n_punct s) (total s) (anomalies s)
  | TECHNICAL => mkStats (n_missing s) (n_same s) (n_dlc s) (S (n_tech s))
                   (n_punct s) (total s) (anomalies s)
  | PUNCTUATION => mkStats (n_missing s) (n_same s) (n_dlc s) (n_tech s)
                     (S (n_punct s)) (total s) (anomalies s)
  end.

(** [stats.anomalies++] *)
Definition bump_anomalies (s : stats) : stats :=
  mkStats (n_missing s) (n_same s) (n_dlc s) (n_tech s) (n_punct s)
    (total s) (S (anomalies s)).

(** [details[t]]: [undefined] for MISSING and SAME. *)
Definition samples (t : AnomalyType) (d : details) : option (list jsstring) :=
  match t with
  | DLC => Some (s_dlc d)
  | TECHNICAL => Some (s_tech d)
  | PUNCTUATION => Some (s_punct d)
  | _ => None
  end.

(** [details[t].push(x)] *)
Definition push_sample (t : AnomalyType) (x : jsstring) (d : details)
  : details :=
  match t with
  | DLC => mkDetails (s_dlc d ++ [x]) (s_tech d) (s_punct d)
  | TECHNICAL => mkDetails (s_dlc d) (s_tech d ++ [x]) (s_punct d)
  | PUNCTUATION => mkDetails (s_dlc d) (s_tech d) (s_punct d ++ [x])
  | _ => d
  end.

(** The sample line of a record, [source], an arrow, [dest]. *)
Definition describe (source : jsstring) (dest : option jsstring) : jsstring :=
  source ++ str " -> " ++ interpolate dest.

(** The body of [types.forEach]. *)
Definition note (line : jsstring) (acc : stats * details) (t : AnomalyType)
  : stats * details :=
  (bump t (fst acc),
   match samples t (snd acc) with
   | Some l => if (length l <? 5)%nat then push_sample t line (snd acc)
               else snd acc
   | None => snd acc
   end).

(** One turn of the loop over [allStrings]. *)
Definition step (acc : stats * details) (record : DialogStrings.row)
  : stats * details :=
  match DialogStrings.source record with
  | Some (c :: s) =>
      let types := getAnomalyTypes (c :: s) (DialogStrings.dest record) in
      if (0 <? length types)%nat
      then foldl (note (describe (c :: s) (DialogStrings.dest record)))
             (bump_anomalies (fst acc), snd acc) types
      else acc
  | _ => acc
  end.

(** [main]: the counters and samples it prints. *)
Definition main (allStrings : list DialogStrings.row) : stats * details :=
  foldl step
    (mkStats 0 0 0 0 0 (length allStrings) 0, mkDetails [] [] [])
    allStrings.

End ScanAnomalies.

(** ** Vocabulary of the further properties *)

Module Props.
Import Schema ScanAnomalies.

(** The record is scanned (its source is neither null nor empty) and its
    tags hold [t]. *)
Definition has_tag (t : AnomalyType) (r : DialogStrings.row) : bool :=
  match DialogStrings.source r with
  | Some (c :: s) =>
      bool_decide (t ∈ getAnomalyTypes (c :: s) (DialogStrings.dest r))
  | _ => false
  end.

(** The record is scanned and has a tag. *)
Definition flagged (r : DialogStrings.row) : bool :=
  match DialogStrings.source r with
  | Some (c :: s) =>
      (0 <? length (getAnomalyTypes (c :: s) (DialogStrings.dest r)))%nat
  | _ => false
  end.

(** The sample line of a scanned record. *)
Definition sample_line (r : DialogStrings.row) : jsstring :=
  describe (default [] (DialogStrings.source r)) (DialogStrings.dest r).

End Props.

Module MaskProps.
Import MaskStrings Spec.

(** The terms of a given length, in the order of the list. *)
Definition of_length (n : nat) (l : list entry) : list entry :=
  List.filter (fun e => (length (term e) =? n)%nat) l.

End MaskProps.

Module RunExamples.
Import Examples.

(** A row to mask and a row whose source is the empty string. *)
Definition empty_source_rows : list DialogStrings.row :=
  [DialogStrings.mk 1 1 (str "s1") (Some (str "0"))
     (Some (str "Whiterun")) (Some []) None;
   DialogStrings.mk 2 1 (str "s2") (Some (str "0"))
     (Some []) (Some []) None].

(** A glossary row with no category. *)
Definition uncategorized : list Glossary.row :=
  [Glossary.mk (str "a1") (str "Whiterun") None].

End RunExamples.

(** ** Loading the glossary ([src/scripts/mask_strings.ts], steps 1 and 2) *)

Module MaskLoad.

(** [categoryMap] *)
Definition categoryMap : list (jsstring * jsstring) :=
  [(str "creatures", str "Creature");
   (str "enchanting", str "Enchanting");
   (str "other", str "Term");
   (str "perks", str "Perk");
   (str "races", str "Race");
   (str "skills", str "Skill");
   (str "skyrim_characters", str "Name");
   (str "skyrim_factions", str "Faction");
   (str "skyrim_items", str "Item");
   (str "skyrim_locations", str "Location");
   (str "skyrim_quests", str "Quest");
   (str "spells", str "Spell")].

(** The names every object inherits: for them [categoryMap[subdir]] is the
    function or object inherited, not a string. *)
Definition inherited_names : list jsstring :=
  [str "constructor"; str "__proto__"; str "hasOwnProperty";
   str "isPrototypeOf"; str "propertyIsEnumerable"; str "toLocaleString";
   str "toString"; str "valueOf"; str "__defineGetter__";
   str "__defineSetter__"; str "__lookupGetter__"; str "__lookupSetter__"].

(** What [categoryMap[subdir] || 'Term'] evaluates to: a string, or what
    every object inherits under that name. *)
Inductive category_value : Type :=
| Cat (category : jsstring)
| Inherited.

(** [categoryMap[subdir] || 'Term'] *)
Definition category_of (subdir : jsstring) : category_value :=
  if bool_decide (subdir ∈ inherited_names) then Inherited
  else
    match find (fun p => bool_decide (fst p = subdir)) categoryMap with
    | Some (_, c :: cat) => Cat (c :: cat)
    | _ => Cat (str "Term")
    end.

(** The terms one [names_only.json] gives: its truthy items, with the
    category of the subdirectory. *)
Definition load_items {C} (category : C) (items : list (option jsstring))
  : list (jsstring * C) :=
  flat_map (fun item =>
              match item with
              | Some (c :: t) => [(c :: t, category)]
              | _ => []
              end) items.

(** [rawTerms], from the subdirectories, in the order of [readdirSync],
    whose [names_only.json] exists and parses to an object with an array
    [items] of strings and nulls. *)
Definition rawTerms (dirs : list (jsstring * list (option jsstring)))
  : list (jsstring * category_value) :=
  flat_map (fun dir => load_items (category_of (fst dir)) (snd dir)) dirs.

(** [uniqueTerms]: a [Map] from term to category, read in insertion order;
    the first category of a term stays. *)
Definition uniqueTerms {C} (raw : list (jsstring * C))
  : list (jsstring * C) :=
  foldl (fun m t =>
           if existsb (fun p => bool_decide (fst p = fst t)) m
           then m else m ++ [t])
        [] raw.

(** An element of a batch: [{ id, term, category }]. *)
Record value : Type := mkValue {
  v_id : jsstring;
  v_term : jsstring;
  v_category : category_value
}.

(** The values pushed, [ids i] being the id drawn for the [i]-th term. *)
Definition new_values (ids : nat -> jsstring)
    (unique : list (jsstring * category_value)) : list value :=
  imap (fun i p => mkValue (ids i) (fst p) (snd p)) unique.

(** The batches handed to [db.insert(glossary).values], in order: one each
    time [currentBatch] reaches 500 elements, and what is left at the end
    if it is not empty. *)
Fixpoint batches {A} (rows currentBatch : list A) : list (list A) :=
  match rows with
  | [] => if (0 <? length currentBatch)%nat then [currentBatch] else []
  | r :: rows' =>
      let b := currentBatch ++ [r] in
      if (500 <=? length b)%nat then b :: batches rows' []
      else batches rows' b
  end.

(** The row a value makes; a category that is no string cannot be stored
    and the insert throws. *)
Definition to_row (v : value) : option Glossary.row :=
  match v_category v with
  | Cat c => Some (Glossary.mk (v_id v) (v_term v) (Some c))
  | Inherited => None
  end.

Fixpoint to_rows (batch : list value) : option (list Glossary.row) :=
  match batch with
  | [] => Some []
  | v :: batch' =>
      match to_row v, to_rows batch' with
      | Some r, Some rs => Some (r :: rs)
      | _, _ => None
      end
  end.

(** An insert into [glossary]: refused when a category is no string, or
    when an id (the primary key) or a term (unique) would occur twice. *)
Definition insert_glossary (table : list Glossary.row) (batch : list value)
  : option (list Glossary.row) :=
  match to_rows batch with
  | Some rows =>
      if bool_decide (NoDup (map Glossary.id (table ++ rows)))
         && bool_decide (NoDup (map Glossary.term (table ++ rows)))
      then Some (table ++ rows)
      else None
  | None => None
  end.

(** Steps 1 and 2: the [glossary] table after "Glossary populated.", read
    back in insertion order; [None] when an insert throws. *)
Definition populate (ids : nat -> jsstring)
    (dirs : list (jsstring * list (option jsstring)))
  : option (list Glossary.row) :=
  foldl (fun table b =>
           match table with
           | Some t => insert_glossary t b
           | None => None
           end)
        (Some [])
        (batches (new_values ids (uniqueTerms (rawTerms dirs))) []).

(** The whole of [main]: the [glossary] table it builds and the
    [dialog_strings] table it leaves; [None] when an insert into the
    glossary throws. *)
Definition script (ids : nat -> jsstring)
    (dirs : list (jsstring * list (option jsstring)))
    (allStrings : list DialogStrings.row)
  : option (list Glossary.row * list DialogStrings.row) :=
  match populate ids dirs with
  | Some glossaryTerms =>
      Some (glossaryTerms, MaskStrings.main glossaryTerms allStrings)
  | None => None
  end.

End MaskLoad.

Module LoadExamples.

(** Ids [a], [aa], [aaa], ... *)
Definition ids (i : nat) : jsstring := repeat "a"%char (S i).

(** Two subdirectories: one whose file holds a term, a null and the term
    again, and one, named like a property every object inherits, whose
    file holds no item. *)
Definition dirs : list (jsstring * list (option jsstring)) :=
  [(str "skyrim_locations",
    [Some (str "Whiterun"); None; Some (str "Whiterun")]);
   (str "constructor", [None])].

End LoadExamples.

(** ** The translation run (the translation script) *)

Module TranslateRun.
Import Translate.

(** What [openrouter.callModel] followed by [getText] gives: an exception,
    or a text, possibly empty. *)
Inductive response : Type :=
| Throws
| Replies (translatedText : jsstring).

(** What [JSON.parse(jsonStr)] followed by [.indonesian] gives: an
    exception (also when the value parsed is [null]); a string; a value
    that is no string, truthy or falsy, [undefined] of an absent field
    among the falsy. *)
Inductive parsed : Type :=
| ParseThrows
| Field (indonesian : jsstring)
| NoString (truthy : bool).

(** What [translateText] returns: a string or, through
    [parsed.indonesian], a truthy value that is no string. *)
Inductive translation : Type :=
| Text (s : jsstring)
| Value.

(** [s.indexOf(c)]: [None] for -1. *)
Fixpoint indexOf (c : ascii) (s : jsstring) : option nat :=
  match s with
  | [] => None
  | x :: s' =>
      if Ascii.eqb x c then Some 0
      else match indexOf c s' with Some i => Some (S i) | None => None end
  end.

(** [s.lastIndexOf(c)] *)
Fixpoint lastIndexOf (c : ascii) (s : jsstring) : option nat :=
  match s with
  | [] => None
  | x :: s' =>
      match lastIndexOf c s' with
      | Some i => Some (S i)
      | None => if Ascii.eqb x c then Some 0 else None
      end
  end.

(** [s.substring(a, b)]: the arguments are swapped when [a > b]. *)
Definition substring (a b : nat) (s : jsstring) : jsstring :=
  take (Nat.max a b - Nat.min a b) (drop (Nat.min a b) s).

Definition MAX_RETRIES : nat := 3.

(** How an attempt ends: with the value [translateText] returns, or with
    the wish to try again. *)
Inductive verdict : Type :=
| Done (result : translation)
| Retry.

(** The body of the loop of [translateText], from the response on. *)
Definition attempt_once (parse : jsstring -> parsed) (text : jsstring)
    (r : response) : verdict :=
  match r with
  | Throws => Retry
  | Replies [] => Retry
  | Replies translatedText =>
      match indexOf "{" translatedText, lastIndexOf "}" translatedText with
      | Some firstBrace, Some lastBrace =>
          match parse (substring firstBrace (S lastBrace) translatedText) with
          | ParseThrows => Retry
          | Field (c :: v) => Done (Text (c :: v))
          | Field [] => Done (Text text)
          | NoString true => Done Value
          | NoString false => Done (Text text)
          end
      | _, _ => Done (Text text)
      end
  end.

(** The attempts left to make, numbered; the result and the number of
    calls made. *)
Fixpoint run_attempts (callModel : nat -> response)
    (parse : jsstring -> parsed) (text : jsstring)
    (attempts : list nat) (calls : nat) : translation * nat :=
  match attempts with
  | [] => (Text text, calls)
  | attempt :: rest =>
      match attempt_once parse text (callModel attempt) with
      | Done result => (result, S calls)
      | Retry =>
          if (attempt <? MAX_RETRIES)%nat
          then run_attempts callModel parse text rest (S calls)
          else (Text text, S calls)
      end
  end.

(** [translateText]: [callModel n] is the response to the [n]-th call. *)
Definition translateText (callModel : nat -> response)
    (parse : jsstring -> parsed) (text : jsstring) : translation * nat :=
  run_attempts callModel parse text (seq 1 MAX_RETRIES) 0.

(** White space of [String.prototype.trim] among the code units 0..255:
    tab, line feed, vertical tab, form feed, carriage return, space and
    no-break space. *)
Definition is_js_space (c : ascii) : bool :=
  ((9 <=? code c)%nat && (code c <=? 13)%nat)
  || (code c =? 32)%nat || (code c =? 160)%nat.

(** [!record.source || record.source.trim() === ''] *)
Definition skipped (r : DialogStrings.row) : bool :=
  match DialogStrings.source r with
  | Some (c :: s) => forallb is_js_space (c :: s)
  | _ => true
  end.

(** [record.maskedSource || record.source], for a record not skipped. *)
Definition textKey (r : DialogStrings.row) : jsstring :=
  match DialogStrings.maskedSource r with
  | Some (c :: m) => c :: m
  | _ => default [] (DialogStrings.source r)
  end.

(** [groupedBySource] is a [Map] read in insertion order: the record joins
    the group of its key, or opens a new group at the end. *)
Fixpoint group_add (key : jsstring) (r : DialogStrings.row)
    (groups : list (jsstring * list DialogStrings.row))
  : list (jsstring * list DialogStrings.row) :=
  match groups with
  | [] => [(key, [r])]
  | (k, records) :: groups' =>
      if bool_decide (k = key) then (k, records ++ [r]) :: groups'
      else (k, records) :: group_add key r groups'
  end.

Definition groupedBySource (untranslatedStrings : list DialogStrings.row)
  : list (jsstring * list DialogStrings.row) :=
  foldl (fun groups r =>
           if skipped r then groups else group_add (textKey r) r groups)
        [] untranslatedStrings.

Definition set_dest (v : jsstring) (r : DialogStrings.row)
  : DialogStrings.row :=
  {| DialogStrings.id := DialogStrings.id r;
     DialogStrings.fileId := DialogStrings.fileId r;
     DialogStrings.sId := DialogStrings.sId r;
     DialogStrings.listId := DialogStrings.listId r;
     DialogStrings.source := DialogStrings.source r;
     DialogStrings.dest := Some v;
     DialogStrings.maskedSource := DialogStrings.maskedSource r |}.

(** [.set({ dest: v }).where(eq(dialogStrings.id, id))] *)
Definition update_dest (id : Z) (v : jsstring)
    (table : list DialogStrings.row) : list DialogStrings.row :=
  map (fun r => if bool_decide (DialogStrings.id r = id)
                then set_dest v r else r)
      table.

Record ProgressStats : Type := mkProgress {
  totalUniqueTexts : nat;
  totalRecords : nat;
  successCount : nat;
  copiedCount : nat;
  errorCount : nat
}.

(** One turn of the loop over [uniqueTexts]: translate once, unmask, save
    to every record of the group, count.  [unmaskText] throws on a value
    that is no string ([text.replace] is no function), which the [catch]
    counts as an error. *)
Definition process_group (translate : jsstring -> translation)
    (cache : gmap jsstring jsstring)
    (acc : list DialogStrings.row * ProgressStats)
    (group : jsstring * list DialogStrings.row)
  : list DialogStrings.row * ProgressStats :=
  match translate (fst group) with
  | Text translatedMasked =>
      let unmaskedTranslation := unmaskText translatedMasked cache in
      (foldl (fun table record =>
                update_dest (DialogStrings.id record) unmaskedTranslation table)
             (fst acc) (snd group),
       mkProgress (totalUniqueTexts (snd acc)) (totalRecords (snd acc))
         (S (successCount (snd acc)))
         (copiedCount (snd acc) + (length (snd group) - 1))
         (errorCount (snd acc)))
  | Value =>
      (fst acc,
       mkProgress (totalUniqueTexts (snd acc)) (totalRecords (snd acc))
         (successCount (snd acc)) (copiedCount (snd acc))
         (S (errorCount (snd acc))))
  end.

(** [main]: the table after the run and the final statistics; no
    statistics when there is no untranslated string.  [translate key] is
    what [translateText] returns for the key; the database calls
    succeed. *)
Definition main (translate : jsstring -> translation)
    (cache : gmap jsstring jsstring) (table : list DialogStrings.row)
  : list DialogStrings.row * option ProgressStats :=
  let untranslatedStrings :=
    List.filter (fun r => bool_decide (DialogStrings.dest r = Some [])) table in
  if (length untranslatedStrings =? 0)%nat then (table, None)
  else
    let uniqueTexts := groupedBySource untranslatedStrings in
    let totalRecords :=
      foldl (fun sum g => sum + length (snd g)) 0 uniqueTexts in
    let stats := mkProgress (length uniqueTexts) totalRecords 0 0 0 in
    let final := foldl (process_group translate cache) (table, stats)
                   uniqueTexts in
    (fst final, Some (snd final)).

(** [sendDiscordNotification]: the fields of the "Elapsed" line for an
    integer number of seconds; [Math.floor] of a quotient, and [%], which
    has the sign of the dividend. *)
Definition hours (elapsed : Z) : Z := (elapsed / 3600)%Z.
Definition minutes (elapsed : Z) : Z := (Z.rem elapsed 3600 / 60)%Z.
Definition seconds (elapsed : Z) : Z := Z.rem elapsed 60.

End TranslateRun.

Module TranslateProps.
Import TranslateRun.

(** The part of a reply handed to [JSON.parse]: from its first opening to
    its last closing brace. *)
Definition json_part (t : jsstring) : jsstring :=
  match indexOf "{" t, lastIndexOf "}" t with
  | Some a, Some b => substring a (S b) t
  | _, _ => []
  end.

(** The record is one the run translates: its [dest] is the empty string
    and its source is not blank. *)
Definition to_translate (r : DialogStrings.row) : bool :=
  bool_decide (DialogStrings.dest r = Some []) && negb (skipped r).

Definition is_text (t : translation) : bool :=
  match t with Text _ => true | Value => false end.

(** What the run makes of a row. *)
Definition translated_row (translate : jsstring -> translation)
    (cache : gmap jsstring jsstring) (r : DialogStrings.row)
  : DialogStrings.row :=
  if to_translate r
  then match translate (textKey r) with
       | Text t => set_dest (Translate.unmaskText t cache) r
       | Value => r
       end
  else r.

(** The records grouped under a key. *)
Fixpoint records_of (key : jsstring)
    (groups : list (jsstring * list DialogStrings.row))
  : list DialogStrings.row :=
  match groups with
  | [] => []
  | (k, records) :: groups' =>
      if bool_decide (k = key) then records else records_of key groups'
  end.

(** The records of the groups whose translation is a string. *)
Definition written (translate : jsstring -> translation)
    (groups : list (jsstring * list DialogStrings.row)) : nat :=
  foldr (fun g n => if is_text (translate (fst g))
                    then length (snd g) + n else n) 0 groups.

(** What the groups' turns of the loop make of a row. *)
Definition row_after (translate : jsstring -> translation)
    (cache : gmap jsstring jsstring)
    (groups : list (jsstring * list DialogStrings.row))
    (r : DialogStrings.row) : DialogStrings.row :=
  foldl (fun r g =>
           match translate (fst g) with
           | Text t =>
               if bool_decide
                    (DialogStrings.id r ∈ map DialogStrings.id (snd g))
               then set_dest (Translate.unmaskText t cache) r else r
           | Value => r
           end) r groups.

(** The translator of a run whose calls are answered by [callModel key]
    for the text [key]. *)
Definition translator (callModel : jsstring -> nat -> response)
    (parse : jsstring -> parsed) (key : jsstring) : translation :=
  fst (translateText (callModel key) parse key).

End TranslateProps.

Module TranslateExamples.
Import TranslateRun.

(** A model that answers every call with the same JSON object, and a
    parser that knows this object only. *)
Definition reply : jsstring :=
  str "{" ++ ["034"%char] ++ str "indonesian" ++ ["034"%char] ++ str ": "
  ++ ["034"%char] ++ str "Selamat datang di [Location_a1]." ++ ["034"%char]
  ++ str "}".

Definition callModel (key : jsstring) (attempt : nat) : response :=
  Replies reply.

Definition parse (jsonStr : jsstring) : parsed :=
  if bool_decide (jsonStr = reply)
  then Field (str "Selamat datang di [Location_a1].")
  else ParseThrows.

(** Three untranslated rows: two with the same masked source, one with a
    blank source. *)
Definition first_row : DialogStrings.row :=
  DialogStrings.mk 1 1 (str "s1") (Some (str "0"))
    (Some (str "Welcome to Whiterun.")) (Some [])
    (Some (str "Welcome to [Location_a1].")).

Definition rows : list DialogStrings.row :=
  [first_row;
   DialogStrings.mk 2 1 (str "s2") (Some (str "0"))
     (Some (str "Welcome to Whiterun.")) (Some [])
     (Some (str "Welcome to [Location_a1]."));
   DialogStrings.mk 3 1 (str "s3") (Some (str "0"))
     (Some (str " ")) (Some []) None].

End TranslateExamples.

(** ** Import and export of the string files
    ([src/scripts/import_strings.ts], [src/scripts/export_strings.ts]) *)

Module DialogFiles.
Record row : Type := mk {
  id : Z;
  filename : jsstring;
  addon : option jsstring;
  sourceLang : option jsstring;
  destLang : option jsstring;
  version : option Z
}.
End DialogFiles.

(** The two tables of the scripts, rows in insertion order, each with the
    largest id it ever held (the ids are [AUTOINCREMENT]). *)
Module Database.
Record t : Type := mk {
  dialogFiles : list DialogFiles.row;
  files_seq : Z;
  dialogStrings : list DialogStrings.row;
  strings_seq : Z
}.

(** The id an insert draws: one more than the largest the table holds or
    ever held. *)
Definition next_id (seq : Z) (ids : list Z) : Z :=
  (1 + foldr Z.max seq ids)%Z.

Definition next_file_id (db : t) : Z :=
  next_id (files_seq db) (map DialogFiles.id (dialogFiles db)).

Definition next_string_id (db : t) : Z :=
  next_id (strings_seq db) (map DialogStrings.id (dialogStrings db)).

End Database.

Module ImportStrings.
Import Database.

(** [result.SSTXMLRessources.Params], taken to hold its four fields. *)
Module Params.
Record t : Type := mk {
  Addon : jsstring;
  Source : jsstring;
  Dest : jsstring;
  Version : Z
}.
End Params.

(** [s.Source] as the parser returns it and the insert takes it.  With
    [parseTagValue: true] the parser returns a string only for a text that
    reads neither as a number nor as [true] or [false]; for the other
    values, and for [undefined] of an absent element, [column] is what the
    insert leaves in the text column, and a value that cannot be bound
    makes the insert throw. *)
Inductive source_value : Type :=
| Text (s : jsstring)
| NotText (column : option jsstring)
| Unbound.

(** A [String] element as the parser returns it, taken to hold the two
    attributes, which the parser leaves as strings. *)
Module Str.
Record t : Type := mk {
  sID : jsstring;
  List : jsstring;
  Source : source_value
}.
End Str.

(** The columns of an element the insert can bind. *)
Record bound : Type := mkBound {
  b_sId : jsstring;
  b_listId : jsstring;
  b_source : option jsstring
}.

Definition bind (s : Str.t) : option bound :=
  match Str.Source s with
  | Text t => Some (mkBound (Str.sID s) (Str.List s) (Some t))
  | NotText column => Some (mkBound (Str.sID s) (Str.List s) column)
  | Unbound => None
  end.

Fixpoint bind_all (batch : list Str.t) : option (list bound) :=
  match batch with
  | [] => Some []
  | s :: batch' =>
      match bind s, bind_all batch' with
      | Some b, Some bs => Some (b :: bs)
      | _, _ => None
      end
  end.

(** [content.String]: undefined, one element, or an array. *)
Inductive StringProp : Type :=
| NoString
| OneString (s : Str.t)
| Strings (ss : list Str.t).

(** [result.SSTXMLRessources], where truthy: [Params] and [Content],
    [None] for undefined. *)
Record Resources : Type := mkResources {
  Params_ : option Params.t;
  Content : option StringProp
}.

(** How a call ends, with the database it leaves. *)
Inductive outcome : Type :=
| Returned (db : Database.t)
| Thrown (db : Database.t).

Definition batchSize : nat := 1000.

(** [l.slice(i, j)] for [i <= j] *)
Definition slice {A} (i j : nat) (l : list A) : list A :=
  take (j - i) (drop i l).

(** [.map(s => ({ ..., sId: s.sID, ... }))]: reading a property of
    undefined throws. *)
Fixpoint defined {A} (l : list (option A)) : option (list A) :=
  match l with
  | [] => Some []
  | Some x :: l' =>
      match defined l' with Some r => Some (x :: r) | None => None end
  | None :: _ => None
  end.

Definition new_row (id fileId : Z) (s : bound) : DialogStrings.row :=
  DialogStrings.mk id fileId (b_sId s) (Some (b_listId s))
    (b_source s) (Some []) None.

Definition insert_string (fileId : Z) (db : Database.t) (s : bound)
  : Database.t :=
  let id := next_string_id db in
  Database.mk (dialogFiles db) (files_seq db)
    (dialogStrings db ++ [new_row id fileId s]) id.

(** [db.insert(dialogStrings).values(batch)], for a batch it can bind. *)
Definition insert_batch (fileId : Z) (db : Database.t) (batch : list bound)
  : Database.t :=
  foldl (insert_string fileId) db batch.

(** The loop [for (let i = 0; i < strings.length; i += batchSize)], from
    [i] on; [fuel] bounds the number of turns. *)
Fixpoint import_batches (fuel : nat) (fileId : Z)
    (strings : list (option Str.t)) (i : nat) (db : Database.t) : outcome :=
  match fuel with
  | O => Returned db
  | S fuel' =>
      if (i <? length strings)%nat then
        match defined (slice i (i + batchSize) strings) with
        | Some batch =>
            match bind_all batch with
            | Some values =>
                import_batches fuel' fileId strings (i + batchSize)
                  (insert_batch fileId db values)
            | None => Thrown db
            end
        | None => Thrown db
        end
      else Returned db
  end.

(** [.set({ addon: ..., ... }).where(eq(dialogFiles.id, id))] *)
Definition update_file (id : Z) (p : Params.t) (files : list DialogFiles.row)
  : list DialogFiles.row :=
  map (fun f =>
         if bool_decide (DialogFiles.id f = id)
         then DialogFiles.mk (DialogFiles.id f) (DialogFiles.filename f)
                (Some (Params.Addon p)) (Some (Params.Source p))
                (Some (Params.Dest p)) (Some (Params.Version p))
         else f)
      files.

(** [db.delete(dialogStrings).where(eq(dialogStrings.fileId, id))] *)
Definition delete_strings (fileId : Z) (strings : list DialogStrings.row)
  : list DialogStrings.row :=
  List.filter (fun s => negb (bool_decide (DialogStrings.fileId s = fileId)))
    strings.

Definition new_file (id : Z) (filename : jsstring) (p : Params.t)
  : DialogFiles.row :=
  DialogFiles.mk id filename (Some (Params.Addon p)) (Some (Params.Source p))
    (Some (Params.Dest p)) (Some (Params.Version p)).

(** [importFile]: [filename] is the base name of the path, [result] the
    [SSTXMLRessources] of the parsed file, [None] when falsy. *)
Definition importFile (db : Database.t) (filename : jsstring)
    (result : option Resources) : outcome :=
  match result with
  | None => Returned db
  | Some res =>
      match Content res with
      | None => Thrown db
      | Some content_String =>
          let strings :=
            match content_String with
            | Strings ss => map Some ss
            | OneString s => [Some s]
            | NoString => [None]
            end in
          match find (fun f => bool_decide (DialogFiles.filename f = filename))
                  (dialogFiles db) with
          | Some fileRecord =>
              match Params_ res with
              | None => Thrown db
              | Some params =>
                  import_batches (S (length strings))
                    (DialogFiles.id fileRecord) strings 0
                    (Database.mk
                       (update_file (DialogFiles.id fileRecord) params
                          (dialogFiles db))
                       (files_seq db)
                       (delete_strings (DialogFiles.id fileRecord)
                          (dialogStrings db))
                       (strings_seq db))
              end
          | None =>
              match Params_ res with
              | None => Thrown db
              | Some params =>
                  let id := next_file_id db in
                  import_batches (S (length strings)) id strings 0
                    (Database.mk
                       (dialogFiles db ++ [new_file id filename params])
                       id (dialogStrings db) (strings_seq db))
              end
          end
      end
  end.

(** [file.endsWith(suffix)] *)
Definition endsWith (suffix s : jsstring) : bool :=
  (length suffix <=? length s)%nat
  && bool_decide (drop (length s - length suffix) s = suffix).

(** [main]: the files of the directory, each with what the parser makes
    of it; an exception ends the run. *)
Definition main (db : Database.t)
    (files : list (jsstring * option Resources)) : outcome :=
  foldl (fun acc file =>
           match acc with
           | Returned d => importFile d (fst file) (snd file)
           | Thrown d => Thrown d
           end)
        (Returned db)
        (List.filter (fun file => endsWith (str ".xml") (fst file)) files).

End ImportStrings.

Module ExportStrings.
Import Database.

(** An element of [Content.String] of the object handed to the builder. *)
Record StringOut : Type := mkString {
  List : option jsstring;
  sID : jsstring;
  Source : option jsstring;
  Dest : option jsstring
}.

(** The object handed to the builder. *)
Record XmlObj : Type := mkXml {
  Addon : option jsstring;
  ParamsSource : option jsstring;
  ParamsDest : option jsstring;
  Version : option Z;
  ContentString : list StringOut
}.

Definition exportFile (db : Database.t) (fileRecord : DialogFiles.row)
  : XmlObj :=
  let strings :=
    List.filter (fun s => bool_decide
                   (DialogStrings.fileId s = DialogFiles.id fileRecord))
      (dialogStrings db) in
  mkXml (DialogFiles.addon fileRecord) (DialogFiles.sourceLang fileRecord)
    (DialogFiles.destLang fileRecord) (DialogFiles.version fileRecord)
    (map (fun s => mkString (DialogStrings.listId s) (DialogStrings.sId s)
                     (DialogStrings.source s) (DialogStrings.dest s))
       strings).

(** [main]: the name of each file written and the object built for it. *)
Definition main (db : Database.t) : list (jsstring * XmlObj) :=
  map (fun file => (DialogFiles.filename file, exportFile db file))
    (dialogFiles db).

End ExportStrings.

Module ImportProps.
Import Database ImportStrings.

(** The rows an insert of [ss] adds when the next id is [first]. *)
Fixpoint imported_rows (first fileId : Z) (ss : list bound)
  : list DialogStrings.row :=
  match ss with
  | [] => []
  | s :: ss' => new_row first fileId s :: imported_rows (first + 1) fileId ss'
  end.

Definition db_of (o : outcome) : Database.t :=
  match o with Returned db => db | Thrown db => db end.

(** The constraints of the schema: primary keys, the unique file name,
    the reference from a string to its file. *)
Definition wf_db (db : Database.t) : Prop :=
  NoDup (map DialogFiles.id (dialogFiles db))
  /\ NoDup (map DialogFiles.filename (dialogFiles db))
  /\ NoDup (map DialogStrings.id (dialogStrings db))
  /\ forall s, In s (dialogStrings db) ->
       exists f, In f (dialogFiles db)
                 /\ DialogFiles.id f = DialogStrings.fileId s.

(** What the export makes of an imported element. *)
Definition exported (s : bound) : ExportStrings.StringOut :=
  ExportStrings.mkString (Some (b_listId s)) (b_sId s) (b_source s)
    (Some []).

(** What the export makes of a row of [dialog_strings]. *)
Definition exported_row (s : DialogStrings.row) : ExportStrings.StringOut :=
  ExportStrings.mkString (DialogStrings.listId s) (DialogStrings.sId s)
    (DialogStrings.source s) (DialogStrings.dest s).

End ImportProps.

Module ImportExamples.
Import Database ImportStrings.

Definition empty_db : Database.t := Database.mk [] 0 [] 0.

Definition params : Params.t :=
  Params.mk (str "Skyrim.esm") (str "english") (str "indonesian") 2.

(** Three elements; the source of the third reads as a number. *)
Definition elements : list Str.t :=
  [Str.mk (str "000001") (str "0") (Text (str "Whiterun"));
   Str.mk (str "000002") (str "0")
     (Text (str "Welcome to Whiterun, traveler."));
   Str.mk (str "000003") (str "0") (NotText (Some (str "7.0")))].

Definition bound_elements : list bound :=
  [mkBound (str "000001") (str "0") (Some (str "Whiterun"));
   mkBound (str "000002") (str "0")
     (Some (str "Welcome to Whiterun, traveler."));
   mkBound (str "000003") (str "0") (Some (str "7.0"))].

(** A database of one file with two strings, one of them translated. *)
Definition small_db : Database.t :=
  Database.mk
    [DialogFiles.mk 1 (str "skyrim_english.xml") (Some (str "Skyrim.esm"))
       (Some (str "english")) (Some (str "indonesian")) (Some 2%Z)]
    1
    [DialogStrings.mk 1 1 (str "000001") (Some (str "0"))
       (Some (str "Whiterun")) (Some (str "Whiterun")) None;
     DialogStrings.mk 2 1 (str "000002") (Some (str "0"))
       (Some (str "Welcome.")) (Some []) None]
    2.

(** A directory with a string file and a file that is none. *)
Definition directory : list (jsstring * option Resources) :=
  [(str "skyrim_english.xml",
    Some (mkResources (Some params) (Some (Strings elements))));
   (str "notes.txt", None)].

End ImportExamples.

(** * Properties *)

(** ** Characters *)

Section Characters.

Lemma all_chars_complete (c : ascii) : In c all_chars.
Proof.
  unfold all_chars. apply in_map_iff. exists (nat_of_ascii c). split.
  - apply ascii_nat_embedding.
  - apply in_seq. pose proof (nat_ascii_bounded c). lia.
Qed.

Lemma forall_chars (P : ascii -> bool) :
  forallb P all_chars = true -> forall c, P c = true.
Proof.
  intros H c. rewrite forallb_forall in H. apply H, all_chars_complete.
Qed.

(** Two predicates that agree on the 256 code units agree. *)
Lemma chars_eq (f g : ascii -> bool) :
  forallb (fun c => Bool.eqb (f c) (g c)) all_chars = true ->
  forall c, f c = g c.
Proof.
  intros H c. pose proof (forall_chars _ H c) as Hc. cbv beta in Hc.
  apply Bool.eqb_prop in Hc. exact Hc.
Qed.

(** Two code units have the same canonical form exactly when they have the
    same lower case: the pattern's [ignoreCase] comparison and the
    [toLowerCase] key of [termLookup] agree. *)
Lemma canonicalize_toLowerChar (a b : ascii) :
  Ascii.eqb (canonicalize a) (canonicalize b)
  = Ascii.eqb (toLowerChar a) (toLowerChar b).
Proof.
  revert b. pattern a. revert a.
  assert (H : forallb (fun a => forallb (fun b =>
              Bool.eqb (Ascii.eqb (canonicalize a) (canonicalize b))
                       (Ascii.eqb (toLowerChar a) (toLowerChar b)))
              all_chars) all_chars = true) by (vm_compute; reflexivity).
  intros a b. pose proof (forall_chars _ H a) as Ha. cbv beta in Ha.
  pose proof (forall_chars _ Ha b) as Hb. cbv beta in Hb.
  apply Bool.eqb_prop in Hb. exact Hb.
Qed.

(** With [ignoreCase], [\d] still matches the ten digits only. *)
Lemma digit_class_ignoreCase (c : ascii) :
  atom_ok true digit_class c = is_digit c.
Proof.
  pattern c. revert c.
  assert (H : forallb (fun c =>
              Bool.eqb (atom_ok true digit_class c) (is_digit c))
              all_chars = true) by (vm_compute; reflexivity).
  intros c. pose proof (forall_chars _ H c) as Hc. cbv beta in Hc.
  apply Bool.eqb_prop in Hc. exact Hc.
Qed.

Lemma toLowerCase_length (s : jsstring) :
  length (toLowerCase s) = length s.
Proof. unfold toLowerCase. apply length_map. Qed.

End Characters.

(** ** The matcher and the global scan *)

Section Engine.

Lemma prev_after_app p m1 m2 :
  prev_after p (m1 ++ m2) = prev_after (prev_after p m1) m2.
Proof. unfold prev_after. apply foldl_app. Qed.

Lemma prev_after_nonempty p q m : m <> [] -> prev_after p m = prev_after q m.
Proof.
  destruct m as [|c m]; [congruence|]. intros _. reflexivity.
Qed.

Lemma plus_ends_sound ok s st :
  In st (plus_ends ok s) ->
  exists m, s = m ++ snd st /\ m <> [] /\ forallb ok m = true
            /\ forall p, fst st = prev_after p m.
Proof.
  revert st. induction s as [|c s IH]; intros st Hin; simpl in Hin; [contradiction|].
  destruct (ok c) eqn:Hc; [|simpl in Hin; contradiction].
  apply in_app_iff in Hin. destruct Hin as [Hin|Hin].
  - destruct (IH _ Hin) as (m & Hs & Hm & Hok & Hp). exists (c :: m).
    split; [simpl; congruence|]. split; [discriminate|].
    split; [simpl; rewrite Hc; exact Hok|].
    intros p. simpl. apply Hp.
  - destruct Hin as [<-|[]]. exists [c]. simpl. rewrite Hc. auto.
Qed.

(** A match reads a prefix of the input. *)
Lemma matches_sound ic r st st' :
  In st' (matches ic r st) ->
  exists m, snd st = m ++ snd st' /\ fst st' = prev_after (fst st) m.
Proof.
  revert st st'. induction r as [|a| |a|r1 IH1 r2 IH2|r1 IH1 r2 IH2];
    intros [p s] st' Hin; simpl in *.
  - destruct Hin as [<-|[]]. exists []. auto.
  - destruct s as [|c s]; [contradiction|]. destruct (atom_ok ic a c); [|simpl in Hin; contradiction].
    destruct Hin as [<-|[]]. exists [c]. auto.
  - destruct (at_boundary (p, s)); [|simpl in Hin; contradiction].
    destruct Hin as [<-|[]]. exists []. auto.
  - destruct (plus_ends_sound _ _ _ Hin) as (m & Hs & _ & _ & Hp).
    exists m. split; [exact Hs|apply Hp].
  - apply in_flat_map in Hin. destruct Hin as (st1 & H1 & H2).
    destruct (IH1 _ _ H1) as (m1 & Hs1 & Hp1).
    destruct (IH2 _ _ H2) as (m2 & Hs2 & Hp2).
    exists (m1 ++ m2). simpl in *. rewrite <- app_assoc, <- Hs2, <- Hs1.
    split; [reflexivity|]. rewrite prev_after_app, <- Hp1. exact Hp2.
  - apply in_app_iff in Hin. destruct Hin as [Hin|Hin].
    + apply (IH1 (p, s) st' Hin).
    + apply (IH2 (p, s) st' Hin).
Qed.

Lemma match_at_sound ic r p s p' rest :
  match_at ic r (p, s) = Some (p', rest) ->
  exists m, s = m ++ rest /\ p' = prev_after p m.
Proof.
  unfold match_at. intros H.
  destruct (matches ic r (p, s)) as [|st l] eqn:E; [discriminate|].
  simpl in H. injection H as ->.
  apply (matches_sound ic r (p, s) (p', rest)). rewrite E. left. reflexivity.
Qed.

Lemma take_matched (m rest : jsstring) :
  take (length (m ++ rest) - length rest) (m ++ rest) = m.
Proof.
  rewrite length_app. replace (length m + length rest - length rest) with (length m) by lia.
  apply take_app_length.
Qed.

(** More turns than the input is long change nothing. *)
Lemma scan_loop_fuel ic r f1 : forall f2 prev s,
  length s < f1 -> length s < f2 ->
  scan_loop f1 ic r prev s = scan_loop f2 ic r prev s.
Proof.
  induction f1 as [|f1 IH]; intros f2 prev s H1 H2; [lia|].
  destruct f2 as [|f2]; [lia|]. simpl.
  destruct (match_at ic r (prev, s)) as [[p' rest]|] eqn:E.
  - destruct (match_at_sound _ _ _ _ _ _ E) as (m & -> & ->).
    rewrite take_matched. destruct m as [|c m].
    + simpl in *. destruct rest as [|c s']; [reflexivity|].
      f_equal. f_equal. apply IH; simpl in *; lia.
    + f_equal. apply IH; simpl in *; rewrite ?length_app in *; lia.
  - destruct s as [|c s']; [reflexivity|]. f_equal. apply IH; simpl in *; lia.
Qed.

Lemma scan_nil ic r prev :
  scan ic r prev [] =
  match match_at ic r (prev, []) with Some _ => [Hit []] | None => [] end.
Proof.
  unfold scan. simpl.
  destruct (match_at ic r (prev, [])) as [[p' rest]|] eqn:E; [|reflexivity].
  destruct (match_at_sound _ _ _ _ _ _ E) as (m & Hm & _).
  symmetry in Hm. apply app_eq_nil in Hm. destruct Hm as [-> ->]. reflexivity.
Qed.

(** No match at the position: the character is kept. *)
Lemma scan_miss ic r prev c s :
  match_at ic r (prev, c :: s) = None ->
  scan ic r prev (c :: s) = Lit c :: scan ic r (Some c) s.
Proof.
  intros E. unfold scan. cbn [scan_loop length]. rewrite E. reflexivity.
Qed.

(** A non-empty match at the position: the scan goes on after it. *)
Lemma scan_hit ic r prev m rest p' :
  m <> [] ->
  match_at ic r (prev, m ++ rest) = Some (p', rest) ->
  scan ic r prev (m ++ rest) = Hit m :: scan ic r p' rest.
Proof.
  intros Hm E. unfold scan at 1. cbn [scan_loop]. rewrite E, take_matched.
  destruct m as [|c m]; [congruence|]. f_equal. unfold scan.
  apply scan_loop_fuel; rewrite ?length_app; simpl; lia.
Qed.

(** An empty match before a character: the match is reported, the
    character is kept and the scan goes on after it. *)
Lemma scan_empty_hit ic r prev c s p' :
  match_at ic r (prev, c :: s) = Some (p', c :: s) ->
  scan ic r prev (c :: s) = Hit [] :: Lit c :: scan ic r (Some c) s.
Proof.
  intros E. unfold scan at 1. cbn [scan_loop]. rewrite E.
  rewrite Nat.sub_diag. reflexivity.
Qed.

Lemma replace_from_nil_miss ic r f prev :
  match_at ic r (prev, []) = None -> replace_from ic r f prev [] = [].
Proof. intros E. unfold replace_from. rewrite scan_nil, E. reflexivity. Qed.

Lemma replace_from_miss ic r f prev c s :
  match_at ic r (prev, c :: s) = None ->
  replace_from ic r f prev (c :: s) = c :: replace_from ic r f (Some c) s.
Proof.
  intros E. unfold replace_from. rewrite (scan_miss _ _ _ _ _ E). reflexivity.
Qed.

Lemma replace_from_hit ic r f prev m rest p' :
  m <> [] ->
  match_at ic r (prev, m ++ rest) = Some (p', rest) ->
  replace_from ic r f prev (m ++ rest) = f m ++ replace_from ic r f p' rest.
Proof.
  intros Hm E. unfold replace_from. rewrite (scan_hit _ _ _ _ _ _ Hm E).
  reflexivity.
Qed.

(** *** Patterns of one atom *)

Lemma match_at_atom ic a prev s :
  match_at ic (RAtom a) (prev, s) =
  match s with
  | c :: s' => if atom_ok ic a c then Some (Some c, s') else None
  | [] => None
  end.
Proof.
  unfold match_at. simpl. destruct s as [|c s]; [reflexivity|].
  destruct (atom_ok ic a c); reflexivity.
Qed.

Lemma scan_atom ic a s : forall prev,
  scan ic (RAtom a) prev s =
  map (fun c => if atom_ok ic a c then Hit [c] else Lit c) s.
Proof.
  induction s as [|c s IH]; intros prev.
  - rewrite scan_nil, match_at_atom. reflexivity.
  - simpl. destruct (atom_ok ic a c) eqn:Hc.
    + change (c :: s) with ([c] ++ s) at 1.
      rewrite (scan_hit ic (RAtom a) prev [c] s (Some c)).
      * rewrite IH. reflexivity.
      * discriminate.
      * rewrite match_at_atom. simpl. rewrite Hc. reflexivity.
    + rewrite scan_miss; [rewrite IH; reflexivity|].
      rewrite match_at_atom, Hc. reflexivity.
Qed.

Lemma test_atom ic a s : test ic (RAtom a) s = existsb (atom_ok ic a) s.
Proof.
  unfold test. generalize (@None ascii).
  induction s as [|c s IH]; intros prev; cbn [search existsb];
    rewrite match_at_atom.
  - reflexivity.
  - destruct (atom_ok ic a c); simpl; [reflexivity|apply IH].
Qed.

Lemma match_all_atom_length ic a s :
  length (match_all ic (RAtom a) s) = length (List.filter (atom_ok ic a) s).
Proof.
  unfold match_all. rewrite scan_atom.
  induction s as [|c s IH]; simpl; [reflexivity|].
  destruct (atom_ok ic a c); simpl; rewrite IH; reflexivity.
Qed.

Lemma replace_atom ic a f s :
  replace ic (RAtom a) f s =
  flat_map (fun c => if atom_ok ic a c then f [c] else [c]) s.
Proof.
  unfold replace, replace_from. rewrite scan_atom.
  induction s as [|c s IH]; simpl; [reflexivity|].
  rewrite IH. destruct (atom_ok ic a c); reflexivity.
Qed.

End Engine.

(** ** The mask pattern *)

Section MaskPattern.
Import MaskStrings Spec.

Lemma syntax_class_ok (c : ascii) :
  atom_ok false (AClass false (map CChar syntax_chars)) c = is_syntax_char c.
Proof.
  pattern c. revert c.
  assert (H : forallb (fun c => Bool.eqb
              (atom_ok false (AClass false (map CChar syntax_chars)) c)
              (is_syntax_char c)) all_chars = true) by (vm_compute; reflexivity).
  intros c. pose proof (forall_chars _ H c) as Hc. cbv beta in Hc.
  apply Bool.eqb_prop in Hc. exact Hc.
Qed.

(** A syntax character is neither [b] nor anything but itself; a character
    that is none is neither the backslash nor the bar. *)
Lemma syntax_char_cases (c : ascii) :
  if is_syntax_char c then Ascii.eqb c "b" = false
  else Ascii.eqb c "\" = false /\ Ascii.eqb c "|" = false.
Proof.
  pattern c. revert c.
  assert (H : forallb (fun c =>
              if is_syntax_char c then negb (Ascii.eqb c "b")
              else negb (Ascii.eqb c "\") && negb (Ascii.eqb c "|"))
              all_chars = true) by (vm_compute; reflexivity).
  intros c. pose proof (forall_chars _ H c) as Hc. cbv beta in Hc.
  cbv beta. destruct (is_syntax_char c) eqn:E.
  - apply negb_true_iff in Hc. exact Hc.
  - apply andb_true_iff in Hc. destruct Hc as [H1 H2].
    apply negb_true_iff in H1, H2. auto.
Qed.

Lemma escapeRegExp_flat_map (t : jsstring) :
  escapeRegExp t = flat_map escape_char t.
Proof.
  unfold escapeRegExp, syntax_pattern. rewrite replace_atom.
  apply flat_map_ext. intros c. rewrite syntax_class_ok. reflexivity.
Qed.

(** An escaped character reads back as that character, literally. *)
Lemma parse_escape_char c rest :
  parse (escape_char c ++ rest) = push (RAtom (AChar c)) (parse rest).
Proof.
  unfold escape_char. pose proof (syntax_char_cases c) as H.
  destruct (is_syntax_char c) eqn:Hs.
  - cbn [app parse]. change (Ascii.eqb "\" "\") with true. cbv iota.
    rewrite H, Hs. reflexivity.
  - destruct H as [H1 H2]. cbn [app parse]. rewrite H1, H2, Hs. reflexivity.
Qed.

Lemma parse_escapeRegExp t rest a alts :
  parse rest = Some (a, alts) ->
  parse (escapeRegExp t ++ rest) = Some (lit_then t a, alts).
Proof.
  intros Hrest. rewrite escapeRegExp_flat_map.
  induction t as [|c t IH]; simpl; [exact Hrest|].
  rewrite <- app_assoc, parse_escape_char, IH. reflexivity.
Qed.

Lemma parse_wrapped t rest a alts :
  parse rest = Some (a, alts) ->
  parse (str "\b" ++ escapeRegExp t ++ str "\b" ++ rest)
  = Some (RSeq RWordB (lit_then t (RSeq RWordB a)), alts).
Proof.
  intros Hrest.
  change (str "\b" ++ escapeRegExp t ++ str "\b" ++ rest)
    with ("\" :: "b" :: (escapeRegExp t ++ "\" :: "b" :: rest)).
  cbn [parse]. change (Ascii.eqb "\" "\") with true.
  change (Ascii.eqb "b" "b") with true. cbv iota.
  rewrite (parse_escapeRegExp t _ (RSeq RWordB a) alts); [reflexivity|].
  cbn [parse]. change (Ascii.eqb "\" "\") with true.
  change (Ascii.eqb "b" "b") with true. cbv iota. rewrite Hrest. reflexivity.
Qed.

Lemma join_cons2 sep (x y : jsstring) l :
  join sep (x :: y :: l) = x ++ sep ++ join sep (y :: l).
Proof. reflexivity. Qed.

Lemma escapedTerms_cons e l :
  escapedTerms (e :: l)
  = (str "\b" ++ escapeRegExp (term e) ++ str "\b") :: escapedTerms l.
Proof. reflexivity. Qed.

Lemma parse_bar rest a alts :
  parse rest = Some (a, alts) ->
  parse (str "|" ++ rest) = Some (REmpty, a :: alts).
Proof.
  intros H. change (str "|" ++ rest) with ("|" :: rest). cbn [parse].
  change (Ascii.eqb "|" "\") with false.
  change (Ascii.eqb "|" "|") with true. cbv iota. rewrite H. reflexivity.
Qed.

(** The source the build phase hands to [RegExp] is a pattern, and the
    pattern is the alternation of the terms, each a literal between two
    [\b], in the order of [sortedTerms]. *)
Lemma parse_pattern_source e sorted :
  parse (join (str "|") (escapedTerms (e :: sorted)))
  = Some (term_regex (term e), map (fun x => term_regex (term x)) sorted).
Proof.
  revert e. induction sorted as [|e' sorted IH]; intros e.
  - cbn [escapedTerms map join].
    pose proof (parse_wrapped (term e) [] REmpty []) as H.
    rewrite !app_nil_r in H. apply H. reflexivity.
  - rewrite escapedTerms_cons, (escapedTerms_cons e'), join_cons2.
    rewrite <- (escapedTerms_cons e'), <- !app_assoc.
    apply (parse_wrapped (term e) _ REmpty
             (term_regex (term e')
              :: map (fun x => term_regex (term x)) sorted)).
    apply parse_bar, IH.
Qed.

Lemma compile_pattern_source sorted :
  sorted <> [] ->
  compile (join (str "|") (escapedTerms sorted)) = Some (mask_pattern sorted).
Proof.
  destruct sorted as [|e sorted]; [congruence|]. intros _.
  unfold compile. rewrite parse_pattern_source. reflexivity.
Qed.

End MaskPattern.

(** ** Matching the mask pattern *)

Section MaskMatch.
Import MaskStrings Spec.

Lemma ic_prefix_length t s : ic_prefix t s = true -> length t <= length s.
Proof.
  revert s. induction t as [|c t IH]; intros [|x s] H; simpl in *;
    try lia; try discriminate.
  apply andb_true_iff in H. destruct H as [_ H]. apply IH in H. lia.
Qed.

(** A prefix up to case is a prefix with the same lower case. *)
Lemma ic_prefix_lower t s :
  ic_prefix t s = true <->
  length t <= length s /\ toLowerCase (take (length t) s) = toLowerCase t.
Proof.
  revert s. induction t as [|c t IH]; intros [|x s]; simpl.
  - split; auto.
  - split; [intros _; split; [lia|reflexivity]|auto].
  - split; [discriminate|]. intros [H _]. lia.
  - rewrite andb_true_iff, IH, canonicalize_toLowerChar, Ascii.eqb_eq.
    split.
    + intros [-> [Hl He]]. split; [lia|]. rewrite He. reflexivity.
    + intros [Hl He]. injection He as Hc He. split; [congruence|].
      split; [lia|exact He].
Qed.

Lemma matches_lit_then t k : forall p s,
  matches true (lit_then t k) (p, s) =
  if ic_prefix t s
  then matches true k (prev_after p (take (length t) s), drop (length t) s)
  else [].
Proof.
  induction t as [|c t IH]; intros p s.
  - simpl. rewrite drop_0. reflexivity.
  - cbn [lit_then matches snd]. destruct s as [|x s]; [reflexivity|].
    cbn [atom_ok ic_prefix].
    destruct (Ascii.eqb (canonicalize c) (canonicalize x)); [|reflexivity].
    cbn [flat_map andb]. rewrite app_nil_r, IH. reflexivity.
Qed.

(** The pattern of a term has at most one match at a position: the
    characters of the term, up to case, between two word boundaries. *)
Lemma matches_term_regex t p s :
  matches true (term_regex t) (p, s) =
  if occurs_at t p s
  then [(prev_after p (take (length t) s), drop (length t) s)]
  else [].
Proof.
  unfold term_regex, occurs_at. cbn [matches].
  destruct (at_boundary (p, s)); [|reflexivity].
  cbn [flat_map andb]. rewrite app_nil_r, matches_lit_then.
  destruct (ic_prefix t s); [|reflexivity]. cbn [matches andb flat_map].
  destruct (at_boundary _); reflexivity.
Qed.

Lemma matches_disjunction ic alts : forall a st,
  matches ic (disjunction a alts) st
  = flat_map (fun r => matches ic r st) (a :: alts).
Proof.
  induction alts as [|b alts IH]; intros a st.
  - simpl. rewrite app_nil_r. reflexivity.
  - cbn [disjunction matches]. rewrite IH. reflexivity.
Qed.

(** The match of the mask pattern at a position is the occurrence of the
    first term of the list whose pattern matches there. *)
Lemma match_at_mask_pattern sorted p s :
  sorted <> [] ->
  match_at true (mask_pattern sorted) (p, s) =
  match first_match sorted p s with
  | Some e =>
      Some (prev_after p (take (length (term e)) s),
            drop (length (term e)) s)
  | None => None
  end.
Proof.
  destruct sorted as [|e0 sorted]; [congruence|]. intros _.
  unfold match_at, mask_pattern, first_match. cbn [map].
  rewrite matches_disjunction.
  change (term_regex (term e0) :: map (fun e => term_regex (term e)) sorted)
    with (map (fun e => term_regex (term e)) (e0 :: sorted)).
  generalize (e0 :: sorted). clear e0 sorted. intros l.
  induction l as [|e l IH]; [reflexivity|].
  cbn [map flat_map find]. rewrite matches_term_regex.
  destruct (occurs_at (term e) p s); [reflexivity|]. exact IH.
Qed.

Lemma occurs_at_split t p s :
  occurs_at t p s = true ->
  s = take (length t) s ++ drop (length t) s
  /\ length (take (length t) s) = length t.
Proof.
  unfold occurs_at. rewrite !andb_true_iff. intros [[_ H] _].
  apply ic_prefix_length in H. rewrite take_drop, length_take. split; [reflexivity|lia].
Qed.

Lemma first_match_occurs sorted p s e :
  first_match sorted p s = Some e ->
  In e sorted /\ occurs_at (term e) p s = true.
Proof. unfold first_match. apply find_some. Qed.

(** The three steps of the masking scan. *)
Lemma mask_from_nil sorted p :
  sorted <> [] ->
  (forall e, In e sorted -> term e <> []) ->
  mask_from (matcher_of sorted) p [] = [].
Proof.
  intros Hne Hterms. unfold mask_from. apply replace_from_nil_miss.
  cbn [m_pattern matcher_of]. rewrite match_at_mask_pattern by exact Hne.
  destruct (first_match sorted p []) as [e|] eqn:E; [|reflexivity].
  apply first_match_occurs in E. destruct E as [Hin Ho].
  unfold occurs_at in Ho. rewrite !andb_true_iff in Ho.
  destruct Ho as [[_ Ho] _]. apply ic_prefix_length in Ho.
  specialize (Hterms e Hin). destruct (term e); [congruence|simpl in Ho; lia].
Qed.

Lemma mask_from_miss sorted p c s :
  sorted <> [] ->
  first_match sorted p (c :: s) = None ->
  mask_from (matcher_of sorted) p (c :: s)
  = c :: mask_from (matcher_of sorted) (Some c) s.
Proof.
  intros Hne E. unfold mask_from. apply replace_from_miss.
  cbn [m_pattern matcher_of]. rewrite match_at_mask_pattern by exact Hne.
  rewrite E. reflexivity.
Qed.

Lemma mask_from_hit sorted p s e :
  first_match sorted p s = Some e ->
  term e <> [] ->
  mask_from (matcher_of sorted) p s
  = mask_replacer (termLookup sorted) (take (length (term e)) s)
    ++ mask_from (matcher_of sorted)
         (prev_after p (take (length (term e)) s))
         (drop (length (term e)) s).
Proof.
  intros E Hterm. pose proof (first_match_occurs _ _ _ _ E) as [Hin Ho].
  destruct (occurs_at_split _ _ _ Ho) as [Hs Hl].
  unfold mask_from. cbn [m_pattern m_termLookup matcher_of].
  rewrite Hs at 1. apply replace_from_hit.
  - intros Hnil. rewrite Hnil in Hl. simpl in Hl.
    destruct (term e); [congruence|discriminate].
  - rewrite <- Hs. rewrite match_at_mask_pattern.
    + rewrite E. reflexivity.
    + intros ->. destruct Hin.
Qed.

End MaskMatch.

(** ** Sorting the terms, the lookup tables, the build phase *)

Section Build.
Import MaskStrings Spec.

Lemma insert_desc_perm x l : Permutation (insert_desc x l) (x :: l).
Proof.
  induction l as [|y l IH]; simpl; [reflexivity|].
  destruct (length (term x) <? length (term y))%nat; [|reflexivity].
  rewrite IH. apply perm_swap.
Qed.

Lemma sort_desc_perm l : Permutation (sort_desc l) l.
Proof.
  induction l as [|x l IH]; simpl; [reflexivity|].
  rewrite insert_desc_perm. apply perm_skip, IH.
Qed.

Lemma insert_desc_sorted x l :
  StronglySorted not_longer l -> StronglySorted not_longer (insert_desc x l).
Proof.
  induction 1 as [|y l Hs IH Hall]; simpl.
  - constructor; constructor.
  - destruct (length (term x) <? length (term y))%nat eqn:E.
    + apply Nat.ltb_lt in E. constructor; [exact IH|].
      apply (Permutation_Forall (x := x :: l)).
      * symmetry. apply insert_desc_perm.
      * constructor; [unfold not_longer; lia|exact Hall].
    + apply Nat.ltb_ge in E. constructor.
      * constructor; assumption.
      * constructor; [exact E|].
        eapply Forall_impl; [exact Hall|]. unfold not_longer. intros; lia.
Qed.

(** [sortedTerms] is in descending order of term length. *)
Lemma sort_desc_sorted l : StronglySorted not_longer (sort_desc l).
Proof.
  induction l as [|x l IH]; simpl; [constructor|].
  apply insert_desc_sorted, IH.
Qed.

Lemma in_sortedTerms g e :
  In e (sortedTerms g) <-> exists t, In t g /\ e = to_entry t.
Proof.
  unfold sortedTerms. split.
  - intros H. apply (Permutation_in _ (sort_desc_perm _)) in H.
    apply in_map_iff in H. destruct H as (t & <- & Ht). eauto.
  - intros (t & Ht & ->).
    apply (Permutation_in _ (Permutation_sym (sort_desc_perm _))).
    apply in_map. exact Ht.
Qed.

Lemma sortedTerms_nonempty g : g <> [] -> sortedTerms g <> [].
Proof.
  intros Hg Hs. apply Hg. unfold sortedTerms in Hs.
  pose proof (Permutation_length (sort_desc_perm (map to_entry g))) as Hl.
  rewrite Hs, length_map in Hl. destruct g; [reflexivity|discriminate].
Qed.

(** Among the terms that occur at a position, the first of a list in
    descending order of length is a longest. *)
Lemma find_sorted_longest (f : entry -> bool) l e :
  StronglySorted not_longer l ->
  find f l = Some e ->
  forall e', In e' l -> f e' = true -> length (term e') <= length (term e).
Proof.
  induction 1 as [|x l Hs IH Hall]; simpl; [discriminate|].
  intros Hfind e' Hin Hf. destruct (f x) eqn:Hx.
  - injection Hfind as <-. destruct Hin as [<-|Hin]; [lia|].
    rewrite List.Forall_forall in Hall. apply (Hall e' Hin).
  - destruct Hin as [<-|Hin]; [congruence|]. apply IH; assumption.
Qed.

(** A map filled by successive [set]s holds, for a key, the value of the
    last element with that key. *)
Lemma lookup_foldl_insert {A V : Type} (key : A -> jsstring) (val : A -> V)
    (l : list A) (m0 : gmap jsstring V) (k : jsstring) :
  foldl (fun m x => <[key x := val x]> m) m0 l !! k =
  match find (fun x => bool_decide (key x = k)) (rev l) with
  | Some x => Some (val x)
  | None => m0 !! k
  end.
Proof.
  induction l as [|x l IH] using rev_ind; [reflexivity|].
  rewrite foldl_app, rev_app_distr. cbn [foldl rev app find].
  case_bool_decide as Hk.
  - subst k. apply lookup_insert_eq.
  - rewrite lookup_insert_ne by exact Hk. exact IH.
Qed.

Lemma lookup_foldl_insert_Some {A V : Type} (key : A -> jsstring)
    (val : A -> V) (l : list A) (k : jsstring) (v : V) :
  foldl (fun m x => <[key x := val x]> m) (∅ : gmap jsstring V) l !! k
  = Some v ->
  exists x, In x l /\ key x = k /\ val x = v.
Proof.
  rewrite lookup_foldl_insert.
  destruct (find _ (rev l)) as [x|] eqn:E.
  - intros [= <-]. apply find_some in E. destruct E as [Hin Hk].
    apply bool_decide_eq_true in Hk. apply in_rev in Hin. eauto.
  - rewrite lookup_empty. discriminate.
Qed.

Lemma lookup_foldl_insert_In {A V : Type} (key : A -> jsstring)
    (val : A -> V) (l : list A) (x : A) :
  In x l ->
  exists x', In x' l /\ key x' = key x
             /\ foldl (fun m y => <[key y := val y]> m)
                      (∅ : gmap jsstring V) l !! key x
                = Some (val x').
Proof.
  intros Hin. rewrite lookup_foldl_insert.
  destruct (find _ (rev l)) as [x'|] eqn:E.
  - apply find_some in E. destruct E as [Hin' Hk].
    apply bool_decide_eq_true in Hk. apply in_rev in Hin'. eauto.
  - apply in_rev in Hin. apply (find_none _ _ E x) in Hin.
    apply bool_decide_eq_false in Hin. congruence.
Qed.

Lemma termLookup_Some sorted k info :
  termLookup sorted !! k = Some info ->
  exists e, In e sorted /\ toLowerCase (term e) = k
            /\ info = (id e, category e).
Proof.
  intros H. apply lookup_foldl_insert_Some in H.
  destruct H as (e & Hin & Hk & Hv). eauto.
Qed.

Lemma termLookup_In sorted e :
  In e sorted ->
  exists e', In e' sorted /\ toLowerCase (term e') = toLowerCase (term e)
             /\ termLookup sorted !! toLowerCase (term e)
                = Some (id e', category e').
Proof.
  intros H.
  apply (lookup_foldl_insert_In (fun e => toLowerCase (term e))
           (fun e => (id e, category e))) in H.
  exact H.
Qed.

Lemma elem_of_termSet sorted k :
  k ∈ termSet sorted <-> exists e, In e sorted /\ toLowerCase (term e) = k.
Proof.
  unfold termSet. induction sorted as [|x l IH] using rev_ind.
  - simpl. split; [intros H; set_solver|intros (e & [] & _)].
  - rewrite foldl_app. cbn [foldl]. rewrite elem_of_union, elem_of_singleton, IH.
    split.
    + intros [->|(e & Hin & He)].
      * exists x. split; [apply in_or_app; right; left; reflexivity|reflexivity].
      * exists e. split; [apply in_or_app; left; exact Hin|exact He].
    + intros (e & Hin & He). apply in_app_or in Hin.
      destruct Hin as [Hin|[<-|[]]]; [right; eauto|left; congruence].
Qed.

Lemma build_nil : build [] = None.
Proof. reflexivity. Qed.

(** With at least one term the build phase succeeds, and its pattern is
    the alternation of the terms in the order of [sortedTerms]. *)
Lemma build_nonempty g :
  g <> [] -> build g = Some (matcher_of (sortedTerms g)).
Proof.
  intros Hg. apply sortedTerms_nonempty in Hg. unfold build.
  unfold escapedTerms at 1. rewrite length_map.
  destruct (sortedTerms g) as [|e l] eqn:E; [congruence|].
  cbn [length Nat.eqb]. rewrite compile_pattern_source by discriminate.
  reflexivity.
Qed.

Lemma maskText_nil s : maskText [] s = s.
Proof. reflexivity. Qed.

Lemma maskText_nonempty g s :
  g <> [] -> maskText g s = mask_from (matcher_of (sortedTerms g)) None s.
Proof. intros Hg. unfold maskText. rewrite build_nonempty by exact Hg. reflexivity. Qed.

End Build.

(** ** Matching the placeholder pattern *)

Section Placeholder.
Import Translate Spec.

Lemma letter_class_ok c : atom_ok false letter_class c = is_letter c.
Proof.
  unfold letter_class, is_letter, is_upper, is_lower. simpl.
  rewrite orb_false_r. reflexivity.
Qed.

Lemma id_class_ok c : atom_ok false id_class c = is_id_char c.
Proof.
  unfold id_class, is_id_char, is_lower, is_digit. simpl.
  rewrite orb_false_r. reflexivity.
Qed.

Lemma plus_ends_ext ok1 ok2 s :
  (forall c, ok1 c = ok2 c) -> plus_ends ok1 s = plus_ends ok2 s.
Proof.
  intros H. induction s as [|c s IH]; simpl; [reflexivity|].
  rewrite H, IH. reflexivity.
Qed.

Lemma span_app ok s : s = fst (span ok s) ++ snd (span ok s).
Proof.
  induction s as [|c s IH]; simpl; [reflexivity|].
  destruct (ok c); simpl; [f_equal; exact IH|reflexivity].
Qed.

Lemma span_forallb ok s : forallb ok (fst (span ok s)) = true.
Proof.
  induction s as [|c s IH]; simpl; [reflexivity|].
  destruct (ok c) eqn:E; simpl; [rewrite E; exact IH|reflexivity].
Qed.

(** A run of [ok] characters followed by one that is not is the span. *)
Lemma span_run ok run u rest :
  forallb ok run = true -> ok u = false ->
  span ok (run ++ u :: rest) = (run, u :: rest).
Proof.
  intros Hrun Hu. induction run as [|c run IH]; simpl.
  - rewrite Hu. reflexivity.
  - simpl in Hrun. apply andb_true_iff in Hrun. destruct Hrun as [Hc Hrun].
    rewrite Hc, (IH Hrun). reflexivity.
Qed.

(** When what follows a greedy [+] cannot start with a character of the
    class, only the longest run can be continued: giving characters back
    never helps. *)
Lemma flat_map_plus_ends {B : Type} ok (k : state -> list B) s :
  (forall p c s', ok c = true -> k (p, c :: s') = []) ->
  flat_map k (plus_ends ok s) =
  match fst (span ok s) with
  | [] => []
  | a :: run => k (prev_after None (a :: run), snd (span ok s))
  end.
Proof.
  intros Hk. induction s as [|c s IH]; [reflexivity|].
  cbn [plus_ends span]. destruct (ok c) eqn:Hc; [|reflexivity].
  rewrite flat_map_app, IH. cbn [fst snd flat_map]. rewrite app_nil_r.
  destruct s as [|d s]; [reflexivity|]. cbn [span].
  destruct (ok d) eqn:Hd.
  - cbn [fst snd]. rewrite (Hk _ _ _ Hd), app_nil_r. reflexivity.
  - reflexivity.
Qed.

(** The match of the placeholder pattern at a position is the placeholder
    read there. *)
Lemma match_at_placeholder p s :
  match_at false placeholder_pattern (p, s) =
  match read_placeholder s with
  | Some (tok, rest) => Some (Some "]", rest)
  | None => None
  end.
Proof.
  unfold match_at, placeholder_pattern, read_placeholder.
  cbn [matches snd]. destruct s as [|c s1]; [reflexivity|].
  cbn [atom_ok]. destruct (Ascii.eqb "[" c); [|reflexivity].
  cbn [flat_map snd]. rewrite app_nil_r.
  rewrite (plus_ends_ext _ _ _ letter_class_ok).
  rewrite flat_map_plus_ends.
  2:{ intros q d s' Hd. cbn [matches snd atom_ok].
      destruct (Ascii.eqb "_" d) eqn:E; [|reflexivity].
      apply Ascii.eqb_eq in E. subst d. discriminate. }
  destruct (span is_letter s1) as [[|a cat] rest1]; [reflexivity|].
  cbn [fst snd]. destruct rest1 as [|u s2]; [reflexivity|].
  cbn [matches snd atom_ok]. destruct (Ascii.eqb "_" u); [|reflexivity].
  cbn [flat_map snd]. rewrite app_nil_r.
  rewrite (plus_ends_ext _ _ _ id_class_ok).
  rewrite flat_map_plus_ends.
  2:{ intros q d s' Hd. cbn [matches snd atom_ok].
      destruct (Ascii.eqb "]" d) eqn:E; [|reflexivity].
      apply Ascii.eqb_eq in E. subst d. discriminate. }
  destruct (span is_id_char s2) as [[|b id] rest2]; [reflexivity|].
  cbn [fst snd]. destruct rest2 as [|k s3]; [reflexivity|].
  cbn [matches snd atom_ok]. destruct (Ascii.eqb "]" k) eqn:E; [|reflexivity].
  apply Ascii.eqb_eq in E. subst k. reflexivity.
Qed.

Lemma read_placeholder_sound s tok rest :
  read_placeholder s = Some (tok, rest) ->
  s = tok ++ rest /\ is_placeholder tok.
Proof.
  unfold read_placeholder. destruct s as [|c s1]; [discriminate|].
  destruct (Ascii.eqb "[" c) eqn:Ec; [|discriminate].
  apply Ascii.eqb_eq in Ec. subst c.
  pose proof (span_app is_letter s1) as H1.
  pose proof (span_forallb is_letter s1) as F1.
  destruct (span is_letter s1) as [[|a cat] [|u s2]]; try discriminate.
  destruct (Ascii.eqb "_" u) eqn:Eu; [|discriminate].
  apply Ascii.eqb_eq in Eu. subst u.
  pose proof (span_app is_id_char s2) as H2.
  pose proof (span_forallb is_id_char s2) as F2.
  destruct (span is_id_char s2) as [[|b id] [|k s3]]; try discriminate.
  destruct (Ascii.eqb "]" k) eqn:Ek; [|discriminate].
  apply Ascii.eqb_eq in Ek. subst k. intros [= <- <-].
  cbn [fst snd] in *. split.
  - rewrite H1, H2. cbn [app]. do 2 f_equal.
    rewrite <- app_assoc. cbn [app]. do 2 f_equal.
    rewrite <- app_assoc. reflexivity.
  - exists (a :: cat), (b :: id). repeat split; try discriminate; assumption.
Qed.

Lemma read_placeholder_complete tok z :
  is_placeholder tok -> read_placeholder (tok ++ z) = Some (tok, z).
Proof.
  intros (cat & id & -> & Hcat & Fcat & Hid & Fid).
  unfold read_placeholder. cbn [app]. change (Ascii.eqb "[" "[") with true.
  cbv iota. rewrite <- app_assoc. cbn [app].
  rewrite (span_run is_letter cat "_") by (assumption || reflexivity).
  destruct cat as [|a cat]; [congruence|].
  change (Ascii.eqb "_" "_") with true. cbv iota.
  rewrite <- app_assoc. cbn [app].
  rewrite (span_run is_id_char id "]") by (assumption || reflexivity).
  destruct id as [|b id]; [congruence|].
  change (Ascii.eqb "]" "]") with true. cbv iota. reflexivity.
Qed.

Lemma read_placeholder_other c s :
  c <> "[" -> read_placeholder (c :: s) = None.
Proof.
  intros Hc. unfold read_placeholder.
  destruct (Ascii.eqb "[" c) eqn:E; [|reflexivity].
  apply Ascii.eqb_eq in E. congruence.
Qed.

Lemma is_placeholder_nonempty tok : is_placeholder tok -> tok <> [].
Proof. intros (cat & id & -> & _). discriminate. Qed.

(** The three steps of the unmasking scan. *)
Lemma unmask_from_nil cache p : unmask_from cache p [] = [].
Proof.
  unfold unmask_from. apply replace_from_nil_miss.
  rewrite match_at_placeholder. reflexivity.
Qed.

Lemma unmask_from_miss cache p c s :
  read_placeholder (c :: s) = None ->
  unmask_from cache p (c :: s) = c :: unmask_from cache (Some c) s.
Proof.
  intros E. unfold unmask_from. apply replace_from_miss.
  rewrite match_at_placeholder, E. reflexivity.
Qed.

Lemma unmask_from_hit cache p tok rest :
  is_placeholder tok ->
  unmask_from cache p (tok ++ rest)
  = unmask_replacer cache tok ++ unmask_from cache (Some "]") rest.
Proof.
  intros Htok. unfold unmask_from. apply replace_from_hit.
  - apply is_placeholder_nonempty, Htok.
  - rewrite match_at_placeholder, (read_placeholder_complete _ _ Htok).
    reflexivity.
Qed.

(** The pattern has no assertion: the character before the position is
    of no consequence. *)
Lemma unmask_from_prev cache s p :
  unmask_from cache p s = unmaskText s cache.
Proof.
  unfold unmaskText, replace. fold (unmask_from cache None s).
  destruct s as [|c s]; [rewrite !unmask_from_nil; reflexivity|].
  destruct (read_placeholder (c :: s)) as [[tok rest]|] eqn:E.
  - apply read_placeholder_sound in E. destruct E as [Hs Htok].
    rewrite Hs, !unmask_from_hit by exact Htok. reflexivity.
  - rewrite !unmask_from_miss by exact E. reflexivity.
Qed.

Lemma unmaskText_nil cache : unmaskText [] cache = [].
Proof. rewrite <- (unmask_from_prev cache [] None). apply unmask_from_nil. Qed.

(** No placeholder at the head: the character is kept. *)
Lemma unmaskText_miss cache c s :
  read_placeholder (c :: s) = None ->
  unmaskText (c :: s) cache = c :: unmaskText s cache.
Proof.
  intros E. rewrite <- (unmask_from_prev cache (c :: s) None).
  rewrite unmask_from_miss by exact E. rewrite unmask_from_prev. reflexivity.
Qed.

(** A placeholder at the head: the replacer decides, whatever follows. *)
Lemma unmaskText_hit cache tok rest :
  is_placeholder tok ->
  unmaskText (tok ++ rest) cache
  = unmask_replacer cache tok ++ unmaskText rest cache.
Proof.
  intros H. rewrite <- (unmask_from_prev cache (tok ++ rest) None).
  rewrite unmask_from_hit by exact H. rewrite unmask_from_prev. reflexivity.
Qed.

Lemma unmaskText_other cache c s :
  c <> "[" -> unmaskText (c :: s) cache = c :: unmaskText s cache.
Proof. intros H. apply unmaskText_miss, read_placeholder_other, H. Qed.

End Placeholder.

(** ** The anomaly classifier *)

Section Classifier.
Import Schema Spec.

Lemma search_spec ic r s : forall p,
  search ic r p s = true <->
  exists pre post,
    s = pre ++ post /\ match_at ic r (prev_after p pre, post) <> None.
Proof.
  induction s as [|c s IH]; intros p; cbn [search].
  - destruct (match_at ic r (p, [])) eqn:E.
    + split; [intros _|reflexivity]. exists [], []. split; [reflexivity|].
      simpl. congruence.
    + split; [discriminate|]. intros (pre & post & Hs & Hm).
      symmetry in Hs. apply app_eq_nil in Hs. destruct Hs as [-> ->].
      simpl in Hm. congruence.
  - destruct (match_at ic r (p, c :: s)) eqn:E.
    + split; [intros _|reflexivity]. exists [], (c :: s).
      split; [reflexivity|]. simpl. congruence.
    + rewrite IH. split.
      * intros (pre & post & -> & Hm). exists (c :: pre), post.
        split; [reflexivity|exact Hm].
      * intros (pre & post & Hs & Hm). destruct pre as [|c' pre].
        -- simpl in *. subst post. congruence.
        -- injection Hs as <- ->. exists pre, post. split; [reflexivity|exact Hm].
Qed.

Lemma startsWith_spec p s :
  startsWith p s = true <-> exists post, s = p ++ post.
Proof.
  revert s. induction p as [|a p IH]; intros s; simpl.
  - split; eauto.
  - destruct s as [|b s].
    + split; [discriminate|]. intros (post & H). discriminate.
    + rewrite andb_true_iff, Ascii.eqb_eq, IH. split.
      * intros [-> (post & ->)]. eauto.
      * intros (post & [= -> ->]). eauto.
Qed.

(** Where [/DLC\d+/i] matches: at the letters D, L, C in either case with
    a digit next. *)
Lemma match_at_dlc p s :
  match_at true dlc_pattern (p, s) <> None <->
  exists w n post,
    s = w ++ n :: post /\ toLowerCase w = str "dlc" /\ is_digit n = true.
Proof.
  unfold match_at.
  change dlc_pattern with (lit_then (str "DLC") (RPlus digit_class)).
  rewrite matches_lit_then. cbn [matches snd].
  rewrite (plus_ends_ext _ is_digit) by apply digit_class_ignoreCase.
  destruct (ic_prefix (str "DLC") s) eqn:E.
  - apply ic_prefix_lower in E. destruct E as [Hl He].
    change (length (str "DLC")) with 3 in *.
    pose proof (take_drop 3 s) as Hs.
    assert (Hlt : length (take 3 s) = 3) by (rewrite length_take; lia).
    destruct (drop 3 s) as [|n post] eqn:Ed.
    + split; [simpl; congruence|]. intros (w & n & post & Hs' & Hw & _).
      assert (Hlw : length w = 3)
        by (rewrite <- (toLowerCase_length w), Hw; reflexivity).
      rewrite app_nil_r in Hs.
      assert (H : length s = length (w ++ n :: post)) by congruence.
      rewrite <- Hs, Hlt, length_app in H. simpl in H. lia.
    + cbn [plus_ends]. destruct (is_digit n) eqn:Hn.
      * split.
        -- intros _. exists (take 3 s), n, post. auto.
        -- intros _. destruct (plus_ends is_digit post); simpl; congruence.
      * split; [simpl; congruence|]. intros (w & n' & post' & Hs' & Hw & Hn').
        assert (Hlw : length w = 3)
          by (rewrite <- (toLowerCase_length w), Hw; reflexivity).
        rewrite <- Hs in Hs'.
        apply app_inj_1 in Hs'; [|lia].
        destruct Hs' as [_ [= <- _]]. congruence.
  - split; [simpl; congruence|]. intros (w & n & post & -> & Hw & _).
    assert (Hlw : length w = 3)
      by (rewrite <- (toLowerCase_length w), Hw; reflexivity).
    assert (ic_prefix (str "DLC") (w ++ n :: post) = true); [|congruence].
    apply ic_prefix_lower. change (length (str "DLC")) with 3.
    split; [rewrite length_app; lia|].
    rewrite take_app_length' by (symmetry; exact Hlw). rewrite Hw. reflexivity.
Qed.

Lemma test_dlc text : test true dlc_pattern text = true <-> has_dlc_digit text.
Proof.
  unfold test, has_dlc_digit. rewrite search_spec. split.
  - intros (pre & post & -> & Hm). apply match_at_dlc in Hm.
    destruct Hm as (w & n & post' & -> & Hw & Hn).
    exists pre, w, [n], post'. repeat split; try assumption; try discriminate.
    simpl. rewrite Hn. reflexivity.
  - intros (pre & w & ds & post & -> & Hw & Hne & Hds).
    destruct ds as [|n ds]; [congruence|]. simpl in Hds.
    apply andb_true_iff in Hds. destruct Hds as [Hn _].
    exists pre, (w ++ (n :: ds) ++ post).
    split; [reflexivity|]. apply match_at_dlc.
    exists w, n, (ds ++ post). auto.
Qed.

Lemma isDLC_spec text :
  isDLC text = true <->
  has_dlc_digit text \/ exists post, text = str "DLC" ++ post.
Proof.
  unfold isDLC. rewrite orb_true_iff, test_dlc, startsWith_spec. reflexivity.
Qed.

Lemma upper_class_ok c :
  atom_ok false (AClass false [CRange "A" "Z"]) c = is_upper c.
Proof. simpl. apply orb_false_r. Qed.

Lemma number_class_ok c :
  atom_ok false (AClass false [CRange "0" "9"]) c = is_digit c.
Proof. simpl. apply orb_false_r. Qed.

Lemma existsb_In_char c s : existsb (Ascii.eqb c) s = true <-> In c s.
Proof.
  rewrite existsb_exists. split.
  - intros (x & Hin & E). apply Ascii.eqb_eq in E. congruence.
  - intros H. exists c. split; [exact H|apply Ascii.eqb_refl].
Qed.

Lemma existsb_pointwise (f g : ascii -> bool) (s : jsstring) :
  (forall c, f c = g c) -> existsb f s = existsb g s.
Proof.
  intros H. induction s as [|c s IH]; simpl; [reflexivity|].
  rewrite H, IH. reflexivity.
Qed.

(** [isTechnical] as a formula over the characters of the text. *)
Lemma isTechnical_bool text :
  isTechnical text =
  negb (existsb (Ascii.eqb " ") text)
  && existsb is_upper text
  && (existsb is_digit text || existsb (Ascii.eqb "_") text
      || (1 <? upper_count text)%nat).
Proof.
  unfold isTechnical, includes_char, upper_pattern, number_pattern,
    underscore_pattern, upper_count.
  rewrite !test_atom, match_all_atom_length.
  rewrite (existsb_pointwise _ _ text upper_class_ok).
  rewrite (existsb_pointwise _ _ text number_class_ok).
  rewrite (filter_ext _ _ upper_class_ok).
  destruct (existsb (Ascii.eqb " ") text); [reflexivity|].
  destruct (existsb is_upper text); reflexivity.
Qed.

Lemma non_critical_ok c :
  atom_ok false (AClass true [CChar "<"; CChar ">"; CChar "034"]) c
  = negb (is_critical c).
Proof.
  revert c. apply chars_eq. vm_compute. reflexivity.
Qed.

(** [getCriticalPunctuation] keeps exactly the critical characters. *)
Lemma getCriticalPunctuation_filter s :
  getCriticalPunctuation s = critical_subsequence s.
Proof.
  unfold getCriticalPunctuation, non_critical_pattern, critical_subsequence.
  rewrite replace_atom. induction s as [|c s IH]; [reflexivity|].
  cbn [flat_map List.filter]. rewrite non_critical_ok, IH.
  destruct (is_critical c); reflexivity.
Qed.

(** The tags of a pair, one by one. *)
Lemma In_getAnomalyTypes t source dest :
  In t (getAnomalyTypes source dest) <->
  match t with
  | MISSING => truthy dest = false
  | SAME => truthy dest = true /\ dest = Some source
  | PUNCTUATION =>
      exists d, dest = Some d /\ d <> [] /\ d <> source
                /\ isPunctuationMismatch source d = true
  | DLC => isDLC source = true
  | TECHNICAL => isTechnical source = true
  end.
Proof.
  unfold getAnomalyTypes.
  destruct (isTechnical source) eqn:Ht, (isDLC source) eqn:Hd;
    destruct dest as [[|c d]|]; cbn [truthy];
    try (unfold str_eqb; case_bool_decide as Heq;
         [|destruct (isPunctuationMismatch source (c :: d)) eqn:Hp]);
    destruct t; rewrite ?in_app_iff; cbn [In];
    (split; intros H;
     [ try solve [exists (c :: d); repeat split; congruence];
       try solve [repeat destruct H as [H|H];
                  first [discriminate H | contradiction | reflexivity
                        | split; congruence ]]
     | try (destruct H as (x & Hx & Hn & Hs & Hm);
            first [discriminate Hx | injection Hx as <-]);
       try solve [congruence];
       try solve [destruct H; congruence];
       auto 6 ]).
Qed.

End Classifier.

(** * The claims *)

Section ClassifierClaims.
Import Schema Spec.

(** C3: [getAnomalyTypes source dest] contains MISSING iff [dest] is null
    or empty; it contains SAME iff [dest] is non-empty and equals [source]
    exactly; MISSING and SAME are never both present; PUNCTUATION is
    present only when [dest] is non-empty and differs from [source], so it
    comes with neither MISSING nor SAME. *)
Theorem C3_missing_same_punctuation (source : jsstring)
    (dest : option jsstring) :
  let tags := getAnomalyTypes source dest in
  (In MISSING tags <-> dest = None \/ dest = Some [])
  /\ (In SAME tags <->
      (exists d, dest = Some d /\ d <> []) /\ dest = Some source)
  /\ ~ (In MISSING tags /\ In SAME tags)
  /\ (In PUNCTUATION tags ->
      exists d, dest = Some d /\ d <> [] /\ d <> source)
  /\ ~ (In PUNCTUATION tags /\ In MISSING tags)
  /\ ~ (In PUNCTUATION tags /\ In SAME tags).
Proof.
  cbv zeta. rewrite !In_getAnomalyTypes.
  assert (Htruthy : truthy dest = true <-> exists d, dest = Some d /\ d <> []).
  { destruct dest as [[|c d]|]; simpl.
    - split; [discriminate|]. intros (d & [= <-] & H). congruence.
    - split; [|reflexivity]. intros _. exists (c :: d).
      split; [reflexivity|discriminate].
    - split; [discriminate|]. intros (d & H & _). discriminate. }
  assert (Hfalsy : truthy dest = false <-> dest = None \/ dest = Some []).
  { destruct dest as [[|c d]|]; simpl; split; auto; try discriminate.
    intros [H|H]; discriminate. }
  repeat split.
  - apply Hfalsy.
  - apply Hfalsy.
  - apply Htruthy, H.
  - apply H.
  - apply Htruthy, H.
  - apply H.
  - intros [H1 [H2 _]]. congruence.
  - intros (d & Hd & Hne & Hs & _). eauto.
  - intros [(d & -> & Hne & _) H]. destruct d; [congruence|discriminate].
  - intros [(d & -> & _ & Hs & _) [_ [= ->]]]. congruence.
Qed.

(** C7: [isTechnical text] is false if [text] contains a space; otherwise
    it is true iff [text] contains at least one upper-case letter and
    (contains a digit or contains an underscore or contains more than one
    upper-case letter). *)
Theorem C7_isTechnical (text : jsstring) :
  (In " " text -> isTechnical text = false)
  /\ (~ In " " text ->
      (isTechnical text = true <->
       (exists c, In c text /\ is_upper c = true)
       /\ ((exists c, In c text /\ is_digit c = true)
           \/ In "_" text
           \/ 1 < upper_count text))).
Proof.
  rewrite isTechnical_bool. split.
  - intros H. apply existsb_In_char in H. rewrite H. reflexivity.
  - intros H. destruct (existsb (Ascii.eqb " ") text) eqn:E.
    + apply existsb_In_char in E. contradiction.
    + cbn [negb andb]. rewrite andb_true_iff, !orb_true_iff.
      rewrite existsb_In_char, !existsb_exists, Nat.ltb_lt.
      tauto.
Qed.

(** C8: for a non-empty [dest], [isPunctuationMismatch source dest] is true
    iff the subsequence of the characters [<], [>] and the double quote of
    [source], order and multiplicity kept, differs from that of [dest]; for
    the empty [dest] it is false. *)
Theorem C8_isPunctuationMismatch (source dest : jsstring) :
  (dest <> [] ->
   (isPunctuationMismatch source dest = true <->
    critical_subsequence source <> critical_subsequence dest))
  /\ isPunctuationMismatch source [] = false.
Proof.
  split; [|reflexivity]. intros Hd. unfold isPunctuationMismatch.
  destruct dest as [|c d]; [congruence|]. cbn [truthy negb].
  rewrite !getCriticalPunctuation_filter. unfold str_eqb.
  rewrite negb_true_iff, bool_decide_eq_false. reflexivity.
Qed.

(** C9: [isDLC text] is true iff [text] has the letters DLC, in either
    case, immediately followed by one or more digits, or starts with the
    literal prefix DLC; the DLC tag of [getAnomalyTypes] is [isDLC] of the
    source whatever [dest] is, and it occurs together with each of
    MISSING, SAME, PUNCTUATION and TECHNICAL. *)
Theorem C9_isDLC (text : jsstring) :
  (isDLC text = true <->
   has_dlc_digit text \/ exists post, text = str "DLC" ++ post)
  /\ (forall dest, In DLC (getAnomalyTypes text dest) <-> isDLC text = true)
  /\ getAnomalyTypes (str "DLC01Quest") None = [MISSING; DLC; TECHNICAL]
  /\ getAnomalyTypes (str "DLC1 Dawnguard") (Some (str "DLC1 Dawnguard"))
     = [SAME; DLC]
  /\ getAnomalyTypes (str "<dlc2>") (Some (str "dlc2"))
     = [PUNCTUATION; DLC].
Proof.
  split; [apply isDLC_spec|]. split.
  - intros dest. apply (In_getAnomalyTypes DLC).
  - repeat split; vm_compute; reflexivity.
Qed.

End ClassifierClaims.

(** ** The run over the table *)

Section Run.
Import MaskStrings Spec.

Lemma processRecord_id m r u :
  processRecord m r = Some u -> u_id u = DialogStrings.id r.
Proof.
  unfold processRecord. destruct (DialogStrings.source r) as [[|c s]|];
    try discriminate.
  destruct (_ || _); [|discriminate]. intros [= <-]. reflexivity.
Qed.

(** The row a list of pending records changes: the first with its id. *)
Lemma foldl_applyUpdate m (L : list DialogStrings.row) :
  NoDup (map DialogStrings.id L) ->
  forall T,
    foldl (fun table u => applyUpdate u table) T (omap (processRecord m) L)
    = map (fun row =>
             match find (fun r => bool_decide
                                    (DialogStrings.id r = DialogStrings.id row)) L
             with
             | Some r =>
                 match processRecord m r with
                 | Some u => set_fields row u
                 | None => row
                 end
             | None => row
             end) T.
Proof.
  induction L as [|r L IH]; intros Hnd T.
  - simpl. symmetry. apply map_id.
  - cbn [map] in Hnd. inversion Hnd as [|? ? Hr Hnd']. subst. clear Hnd.
    rename Hnd' into Hnd.
    assert (Hfind : forall row,
      DialogStrings.id row = DialogStrings.id r ->
      find (fun x => bool_decide (DialogStrings.id x = DialogStrings.id row)) L
      = None).
    { intros row Hrow.
      destruct (find _ L) as [x|] eqn:E; [|reflexivity].
      apply find_some in E. destruct E as [Hin Hx].
      apply bool_decide_eq_true in Hx. exfalso. apply Hr.
      apply list_elem_of_In, in_map_iff. exists x.
      split; [congruence|exact Hin]. }
    cbn [omap list_omap]. destruct (processRecord m r) as [u|] eqn:Eu.
    + cbn [foldl]. rewrite (IH Hnd). unfold applyUpdate. rewrite map_map.
      apply map_ext. intros row. cbn [find].
      rewrite (processRecord_id _ _ _ Eu).
      case_bool_decide as Hid.
      * rewrite bool_decide_eq_true_2 by congruence.
        rewrite (Hfind (set_fields row u)) by exact Hid.
        rewrite Eu. reflexivity.
      * rewrite bool_decide_eq_false_2 by congruence. reflexivity.
    + rewrite (IH Hnd). apply map_ext. intros row. cbn [find].
      case_bool_decide as Hid; [|reflexivity].
      rewrite (Hfind row), Eu by congruence. reflexivity.
Qed.

(** With [id] a key, the committed run rewrites each row by the update of
    its own turn. *)
Lemma main_map g m table :
  NoDup (map DialogStrings.id table) ->
  build g = Some m ->
  main g table = map (maskRecord m) table.
Proof.
  intros Hnd Hb. unfold main. rewrite Hb. cbv zeta.
  rewrite (foldl_applyUpdate m table Hnd). apply map_ext_in.
  intros row Hin. unfold maskRecord.
  assert (Hfind : find (fun r => bool_decide
                    (DialogStrings.id r = DialogStrings.id row)) table
                  = Some row).
  { clear Hb. induction table as [|r T IH]; [destruct Hin|].
    cbn [map] in Hnd. inversion Hnd as [|? ? Hr Hnd']. subst. cbn [find].
    case_bool_decide as Hid.
    - destruct Hin as [->|Hin]; [reflexivity|]. exfalso. apply Hr.
      apply list_elem_of_In, in_map_iff. exists row.
      split; [congruence|exact Hin].
    - destruct Hin as [->|Hin]; [congruence|]. apply IH; assumption. }
  rewrite Hfind. reflexivity.
Qed.

Lemma main_nil table : main [] table = table.
Proof. reflexivity. Qed.

(** The fields a turn of the loop leaves alone, and what it does to
    [dest]. *)
Lemma maskRecord_frame g r :
  g <> [] ->
  let r' := maskRecord (matcher_of (sortedTerms g)) r in
  DialogStrings.id r' = DialogStrings.id r
  /\ DialogStrings.fileId r' = DialogStrings.fileId r
  /\ DialogStrings.sId r' = DialogStrings.sId r
  /\ DialogStrings.listId r' = DialogStrings.listId r
  /\ DialogStrings.source r' = DialogStrings.source r
  /\ (autofill_applies g r ->
      DialogStrings.dest r' = DialogStrings.source r)
  /\ (~ autofill_applies g r ->
      DialogStrings.dest r' = DialogStrings.dest r).
Proof.
  intros Hg. cbv zeta. unfold maskRecord.
  destruct (processRecord (matcher_of (sortedTerms g)) r) as [u|] eqn:E.
  - repeat split; try reflexivity.
    + intros (s & t & Hs & Hne & Hin & Hl). revert E. unfold processRecord.
      rewrite Hs. destruct s as [|c s]; [congruence|].
      cbn [m_termSet matcher_of].
      case_bool_decide as Hset.
      * case_bool_decide as Hdest; cbn [negb andb orb].
        -- destruct (negb _); [|discriminate]. intros [= <-]. simpl. congruence.
        -- intros [= <-]. reflexivity.
      * exfalso. apply Hset, elem_of_termSet. exists (to_entry t).
        split; [|exact Hl]. apply in_sortedTerms. eauto.
    + intros Hna. revert E. unfold processRecord.
      destruct (DialogStrings.source r) as [[|c s]|] eqn:Hs; try discriminate.
      cbn [m_termSet matcher_of].
      case_bool_decide as Hset.
      * exfalso. apply Hna. apply elem_of_termSet in Hset.
        destruct Hset as (e & Hin & He). apply in_sortedTerms in Hin.
        destruct Hin as (t & Ht & ->). exists (c :: s), t.
        repeat split; try assumption. discriminate.
      * cbn [andb orb]. destruct (negb _); [|discriminate].
        intros [= <-]. reflexivity.
  - repeat split; try reflexivity.
    intros (s & t & Hs & Hne & Hin & Hl). revert E. unfold processRecord.
    rewrite Hs. destruct s as [|c s]; [congruence|].
    cbn [m_termSet matcher_of].
    case_bool_decide as Hset.
    + case_bool_decide as Hdest; cbn [negb andb orb].
      * intros _. congruence.
      * discriminate.
    + exfalso. apply Hset, elem_of_termSet. exists (to_entry t).
      split; [|exact Hl]. apply in_sortedTerms. eauto.
Qed.

End Run.

Section FrameClaim.
Import MaskStrings Spec Examples.

(** C4, as stated, fails: the run writes [dest] too.  The row whose source
    is the glossary term Whiterun has its empty [dest] filled with the
    source by the "Auto-fill Dest Logic". *)
Lemma C4_counterexample :
  map DialogStrings.dest (main whiterun two_rows)
  = [Some (str "Whiterun"); Some []]
  /\ ~ masking_leaves_dest whiterun two_rows.
Proof.
  assert (H : map DialogStrings.dest (main whiterun two_rows)
              = [Some (str "Whiterun"); Some []])
    by (vm_compute; reflexivity).
  split; [exact H|]. unfold masking_leaves_dest. rewrite H.
  vm_compute. discriminate.
Qed.

(** C4, amended: a committed run over a table keyed by [id] keeps the rows
    in place and writes only [dest] and [maskedSource]: [id], [fileId],
    [sId], [listId] and [source] are unchanged, and [dest] is unchanged
    unless the source is non-empty and is a glossary term up to case, in
    which case [dest] becomes the source. *)
Theorem C4_masking_frame (g : list Glossary.row)
    (table : list DialogStrings.row) :
  NoDup (map DialogStrings.id table) ->
  length (main g table) = length table
  /\ forall i r, table !! i = Some r ->
       exists r', main g table !! i = Some r'
         /\ DialogStrings.id r' = DialogStrings.id r
         /\ DialogStrings.fileId r' = DialogStrings.fileId r
         /\ DialogStrings.sId r' = DialogStrings.sId r
         /\ DialogStrings.listId r' = DialogStrings.listId r
         /\ DialogStrings.source r' = DialogStrings.source r
         /\ (autofill_applies g r ->
             DialogStrings.dest r' = DialogStrings.source r)
         /\ (~ autofill_applies g r ->
             DialogStrings.dest r' = DialogStrings.dest r).
Proof.
  intros Hnd. destruct g as [|t g].
  - rewrite main_nil. split; [reflexivity|]. intros i r Hr. exists r.
    repeat split; try assumption; try reflexivity.
    intros (s & t & _ & _ & [] & _).
  - assert (Hg : t :: g <> []) by discriminate.
    rewrite (main_map _ _ _ Hnd (build_nonempty _ Hg)).
    split; [apply length_map|]. intros i r Hr.
    exists (maskRecord (matcher_of (sortedTerms (t :: g))) r). split.
    + change (map ?f ?l) with (f <$> l). rewrite list_lookup_fmap, Hr.
      reflexivity.
    + apply (maskRecord_frame (t :: g) r Hg).
Qed.

(** The amended C4 at the two rows: the first has its [dest] filled, the
    second keeps it. *)
Lemma C4_masking_frame_witness :
  NoDup (map DialogStrings.id two_rows)
  /\ length (main whiterun two_rows) = length two_rows
  /\ forall i r, two_rows !! i = Some r ->
       exists r', main whiterun two_rows !! i = Some r'
         /\ DialogStrings.id r' = DialogStrings.id r
         /\ DialogStrings.fileId r' = DialogStrings.fileId r
         /\ DialogStrings.sId r' = DialogStrings.sId r
         /\ DialogStrings.listId r' = DialogStrings.listId r
         /\ DialogStrings.source r' = DialogStrings.source r
         /\ (autofill_applies whiterun r ->
             DialogStrings.dest r' = DialogStrings.source r)
         /\ (~ autofill_applies whiterun r ->
             DialogStrings.dest r' = DialogStrings.dest r).
Proof.
  assert (Hnd : NoDup (map DialogStrings.id two_rows)).
  { change (NoDup [1%Z; 2%Z]). apply NoDup_cons_2; [|apply NoDup_singleton].
    intros H. apply list_elem_of_singleton in H. discriminate H. }
  split; [exact Hnd|]. exact (C4_masking_frame whiterun two_rows Hnd).
Defined.

End FrameClaim.

(** ** Unmasking, compositionally *)

Section Unmask.
Import Translate Spec.

(** A character outside the class stops the span, wherever it stands. *)
Lemma span_app_stop ok s u z :
  ok u = false ->
  span ok (s ++ u :: z) = (fst (span ok s), snd (span ok s) ++ u :: z).
Proof.
  intros Hu. induction s as [|c s IH]; simpl.
  - rewrite Hu. reflexivity.
  - destruct (ok c); [rewrite IH|]; reflexivity.
Qed.

(** An opening bracket further on does not change what is read here: a
    placeholder has no bracket inside. *)
Lemma read_placeholder_app_bracket c s z :
  read_placeholder ((c :: s) ++ "[" :: z) =
  match read_placeholder (c :: s) with
  | Some (tok, rest) => Some (tok, rest ++ "[" :: z)
  | None => None
  end.
Proof.
  unfold read_placeholder. cbn [app].
  destruct (Ascii.eqb "[" c); [|reflexivity].
  rewrite (span_app_stop is_letter s "[" z) by reflexivity.
  destruct (span is_letter s) as [[|a cat] rest1]; cbn [fst snd]; [reflexivity|].
  destruct rest1 as [|u s2]; cbn [app]; [reflexivity|].
  destruct (Ascii.eqb "_" u); [|reflexivity].
  rewrite (span_app_stop is_id_char s2 "[" z) by reflexivity.
  destruct (span is_id_char s2) as [[|b id] rest2]; cbn [fst snd]; [reflexivity|].
  destruct rest2 as [|k s3]; cbn [app]; [reflexivity|].
  destruct (Ascii.eqb "]" k); reflexivity.
Qed.

(** Unmasking splits at an opening bracket. *)
Lemma unmaskText_app_bracket cache z : forall pre,
  unmaskText (pre ++ "[" :: z) cache
  = unmaskText pre cache ++ unmaskText ("[" :: z) cache.
Proof.
  intros pre. remember (length pre) as n eqn:Hn. revert pre Hn.
  induction n as [n IH] using lt_wf_ind. intros pre Hn.
  destruct pre as [|c s]; [rewrite unmaskText_nil; reflexivity|].
  pose proof (read_placeholder_app_bracket c s z) as Happ.
  destruct (read_placeholder (c :: s)) as [[tok rest]|] eqn:E.
  - apply read_placeholder_sound in E. destruct E as [Hs Htok].
    rewrite Hs, <- app_assoc.
    rewrite (unmaskText_hit cache tok (rest ++ "[" :: z) Htok).
    rewrite (unmaskText_hit cache tok rest Htok).
    rewrite (IH (length rest)); [rewrite app_assoc; reflexivity| |reflexivity].
    subst n. rewrite Hs, length_app.
    pose proof (is_placeholder_nonempty _ Htok).
    destruct tok; [congruence|simpl; lia].
  - cbn [app] in *. rewrite !unmaskText_miss by assumption.
    rewrite (IH (length s)); [reflexivity| |reflexivity].
    subst n. simpl. lia.
Qed.

(** Each placeholder of a text is handled on its own, whatever stands
    around it. *)
Lemma unmaskText_placeholder cache pre tok post :
  is_placeholder tok ->
  unmaskText (pre ++ tok ++ post) cache
  = unmaskText pre cache ++ unmask_replacer cache tok
    ++ unmaskText post cache.
Proof.
  intros Hp. pose proof Hp as (cat & id & Htok & Hrest).
  rewrite Htok at 1. cbn [app].
  rewrite unmaskText_app_bracket. f_equal.
  change ("[" :: (cat ++ "_" :: id ++ ["]"]) ++ post)
    with (("[" :: cat ++ "_" :: id ++ ["]"]) ++ post).
  rewrite <- Htok. apply unmaskText_hit, Hp.
Qed.

(** A text without opening bracket is left as it is, and so is what
    follows it. *)
Lemma unmaskText_no_bracket cache t z :
  ~ In "[" t -> unmaskText (t ++ z) cache = t ++ unmaskText z cache.
Proof.
  induction t as [|c t IH]; intros Hin; [reflexivity|].
  cbn [app]. rewrite unmaskText_other.
  - rewrite IH; [reflexivity|]. intros H. apply Hin. right. exact H.
  - intros ->. apply Hin. left. reflexivity.
Qed.

Lemma unmaskText_no_placeholder cache text :
  ~ has_placeholder text -> unmaskText text cache = text.
Proof.
  induction text as [|c s IH]; intros Hno; [apply unmaskText_nil|].
  destruct (read_placeholder (c :: s)) as [[tok rest]|] eqn:E.
  - apply read_placeholder_sound in E. destruct E as [Hs Htok].
    exfalso. apply Hno. exists [], tok, rest. auto.
  - rewrite unmaskText_miss by exact E. f_equal. apply IH.
    intros (pre & tok & post & -> & Htok). apply Hno.
    exists (c :: pre), tok, post. auto.
Qed.

Lemma brackets_open_placeholders_suffix pre x :
  brackets_open_placeholders (pre ++ x) -> brackets_open_placeholders x.
Proof.
  intros H pre' z ->. apply (H (pre ++ pre') z). rewrite app_assoc. reflexivity.
Qed.

Lemma brackets_open_placeholders_check x :
  brackets_open_placeholders_b x = true -> brackets_open_placeholders x.
Proof.
  induction x as [|c x IH]; intros Hb pre z Hx.
  - destruct pre; discriminate.
  - cbn [brackets_open_placeholders_b] in Hb. apply andb_true_iff in Hb.
    destruct Hb as [Hc Hb]. destruct pre as [|c' pre].
    + simpl in Hx. injection Hx as -> ->.
      change (Ascii.eqb "[" "[") with true in Hc. cbv iota in Hc.
      destruct (read_placeholder ("[" :: z)) as [[tok rest]|] eqn:E;
        [|discriminate].
      apply read_placeholder_sound in E. destruct E as [Hs Htok]. eauto.
    + injection Hx as -> ->. apply (IH Hb pre z). reflexivity.
Qed.

End Unmask.

Section UnmaskClaims.
Import Translate Spec Examples.

Lemma loadGlossaryCache_Some g k t :
  loadGlossaryCache g !! k = Some t ->
  exists r, In r g /\ cache_key r = k /\ Glossary.term r = t.
Proof. apply (lookup_foldl_insert_Some cache_key Glossary.term). Qed.

Lemma has_placeholder_check s :
  has_placeholder s -> has_placeholder_b s = true.
Proof.
  intros (pre & tok & post & -> & Htok).
  induction pre as [|c pre IH].
  - cbn [app]. pose proof (is_placeholder_nonempty _ Htok) as Hne.
    destruct tok as [|a tok]; [congruence|]. cbn [app has_placeholder_b].
    change (a :: tok ++ post) with ((a :: tok) ++ post).
    rewrite (read_placeholder_complete _ post Htok). reflexivity.
  - cbn [app has_placeholder_b]. rewrite IH. apply orb_true_r.
Qed.

Lemma is_placeholder_Item_a1 : is_placeholder (str "[Item_a1]").
Proof.
  exists (str "Item"), (str "a1").
  repeat split; try discriminate; reflexivity.
Qed.

Lemma is_placeholder_Location_a1 : is_placeholder (str "[Location_a1]").
Proof.
  exists (str "Location"), (str "a1").
  repeat split; try discriminate; reflexivity.
Qed.

(** C6, as stated, fails on a cache that holds the empty string for a
    placeholder: [original || match] keeps the placeholder where the claim
    puts the (empty) cached term. *)
Lemma C6_counterexample :
  unmaskText (str "x[Item_a1]y") empty_term_cache = str "x[Item_a1]y"
  /\ ~ unmask_replaces_keys_claim.
Proof.
  split; [vm_compute; reflexivity|]. intros H.
  specialize (H empty_term_cache (str "x") (str "[Item_a1]") (str "y") []
                is_placeholder_Item_a1 eq_refl).
  vm_compute in H. discriminate H.
Qed.

(** C6, amended: a substring that matches the placeholder grammar is
    replaced with the cached term when the cache holds a non-empty term for
    it, and is left verbatim when the cache holds none or the empty string,
    whatever stands before and after it; a text with no such substring is
    returned unchanged. *)
Theorem C6_unmask_fail_open (cache : gmap jsstring jsstring)
    (pre tok post : jsstring) :
  is_placeholder tok ->
  (forall term, term <> [] -> cache !! tok = Some term ->
     unmaskText (pre ++ tok ++ post) cache
     = unmaskText pre cache ++ term ++ unmaskText post cache)
  /\ (cache !! tok = None \/ cache !! tok = Some [] ->
      unmaskText (pre ++ tok ++ post) cache
      = unmaskText pre cache ++ tok ++ unmaskText post cache)
  /\ (forall text, ~ has_placeholder text -> unmaskText text cache = text).
Proof.
  intros Htok. repeat split.
  - intros term Hne Hc. rewrite unmaskText_placeholder by exact Htok.
    unfold unmask_replacer. rewrite Hc. destruct term; [congruence|reflexivity].
  - intros Hc. rewrite unmaskText_placeholder by exact Htok.
    unfold unmask_replacer. destruct Hc as [-> | ->]; reflexivity.
  - intros text. apply unmaskText_no_placeholder.
Qed.

(** The amended C6 at the placeholder of Whiterun. *)
Lemma C6_unmask_fail_open_witness :
  is_placeholder (str "[Location_a1]")
  /\ unmaskText (str "Welcome to " ++ str "[Location_a1]" ++ str ", traveler.")
       (loadGlossaryCache whiterun)
     = unmaskText (str "Welcome to ") (loadGlossaryCache whiterun)
       ++ str "Whiterun"
       ++ unmaskText (str ", traveler.") (loadGlossaryCache whiterun).
Proof.
  split; [exact is_placeholder_Location_a1|].
  refine (proj1 (C6_unmask_fail_open (loadGlossaryCache whiterun)
                   (str "Welcome to ") (str "[Location_a1]")
                   (str ", traveler.") is_placeholder_Location_a1)
                (str "Whiterun") _ _).
  - discriminate.
  - vm_compute. reflexivity.
Defined.

(** C10, as stated, fails: the terms of the cache hold no placeholder and
    the text is two well-formed placeholders, yet the two terms put side by
    side form a third placeholder, which a second pass replaces. *)
Lemma C10_counterexample :
  unmaskText (str "[A_b][D_e]") (loadGlossaryCache joining_terms)
  = str "[C_f]"
  /\ unmaskText (str "[C_f]") (loadGlossaryCache joining_terms) = str "boom"
  /\ ~ unmask_idempotent_claim.
Proof.
  split; [vm_compute; reflexivity|]. split; [vm_compute; reflexivity|].
  intros H.
  specialize (H (loadGlossaryCache joining_terms) (str "[A_b][D_e]")).
  assert (Hterms : forall k t,
            loadGlossaryCache joining_terms !! k = Some t ->
            ~ has_placeholder t).
  { intros k t Hk Hp. apply loadGlossaryCache_Some in Hk.
    destruct Hk as (r & Hin & _ & <-). apply has_placeholder_check in Hp.
    destruct Hin as [<-|[<-|[<-|[]]]]; vm_compute in Hp; discriminate Hp. }
  assert (Hx : brackets_open_placeholders (str "[A_b][D_e]")).
  { apply brackets_open_placeholders_check. vm_compute. reflexivity. }
  specialize (H Hterms Hx). vm_compute in H. discriminate H.
Qed.

(** C10, amended: for every cache none of whose terms contains an opening
    bracket, and every text in which every opening bracket begins a
    well-formed placeholder, unmasking twice is unmasking once. *)
Theorem C10_unmask_idempotent (cache : gmap jsstring jsstring)
    (x : jsstring) :
  (forall k t, cache !! k = Some t -> ~ In "[" t) ->
  brackets_open_placeholders x ->
  unmaskText (unmaskText x cache) cache = unmaskText x cache.
Proof.
  intros Hcache. remember (length x) as n eqn:Hn. revert x Hn.
  induction n as [n IH] using lt_wf_ind. intros x Hn Hx.
  destruct x as [|c s]; [rewrite !unmaskText_nil; reflexivity|].
  destruct (read_placeholder (c :: s)) as [[tok rest]|] eqn:E.
  - apply read_placeholder_sound in E. destruct E as [Hs Htok].
    rewrite Hs in *. rewrite unmaskText_hit by exact Htok.
    assert (Hrest : unmaskText (unmaskText rest cache) cache
                    = unmaskText rest cache).
    { apply (IH (length rest)); [|reflexivity|].
      - subst n. rewrite length_app.
        pose proof (is_placeholder_nonempty _ Htok).
        destruct tok; [congruence|simpl; lia].
      - apply (brackets_open_placeholders_suffix tok), Hx. }
    unfold unmask_replacer at 2. unfold unmask_replacer at 1.
    destruct (cache !! tok) as [[|a t]|] eqn:Ec.
    + rewrite unmaskText_hit by exact Htok. unfold unmask_replacer.
      rewrite Ec, Hrest. reflexivity.
    + rewrite unmaskText_no_bracket by (apply (Hcache _ _ Ec)).
      rewrite Hrest. reflexivity.
    + rewrite unmaskText_hit by exact Htok. unfold unmask_replacer.
      rewrite Ec, Hrest. reflexivity.
  - assert (Hc : c <> "[").
    { intros ->. destruct (Hx [] s eq_refl) as (tok & rest & Htok & Hs).
      rewrite Hs, (read_placeholder_complete _ _ Htok) in E. discriminate. }
    rewrite unmaskText_miss by exact E. rewrite unmaskText_other by exact Hc.
    f_equal. apply (IH (length s)); [subst n; simpl; lia|reflexivity|].
    apply (brackets_open_placeholders_suffix [c]), Hx.
Qed.

(** The amended C10 at a text with one placeholder the cache knows and one
    it does not. *)
Lemma C10_unmask_idempotent_witness :
  unmaskText (unmaskText (str "To [Location_a1] and [Location_zz]")
                (loadGlossaryCache whiterun))
    (loadGlossaryCache whiterun)
  = unmaskText (str "To [Location_a1] and [Location_zz]")
      (loadGlossaryCache whiterun).
Proof.
  apply C10_unmask_idempotent.
  - intros k t Hk Hin. apply loadGlossaryCache_Some in Hk.
    destruct Hk as (r & Hr & _ & <-).
    destruct Hr as [<-|[]]. vm_compute in Hin.
    repeat (destruct Hin as [Hin|Hin]; [discriminate Hin|]). exact Hin.
  - apply brackets_open_placeholders_check. vm_compute. reflexivity.
Defined.

End UnmaskClaims.

(** ** Masking, as a scan by the terms' patterns *)

Section MaskScan.
Import MaskStrings Spec.

Variable g : list Glossary.row.
Hypothesis g_nonempty : g <> [].
Hypothesis terms_nonempty : forall t, In t g -> Glossary.term t <> [].

Let sorted := sortedTerms g.
Let m := matcher_of sorted.

Lemma sorted_nonempty : sorted <> [].
Proof. apply sortedTerms_nonempty, g_nonempty. Qed.

Lemma sorted_term_nonempty e : In e sorted -> term e <> [].
Proof.
  intros H. apply in_sortedTerms in H. destruct H as (t & Ht & ->).
  apply (terms_nonempty t Ht).
Qed.

Lemma in_sorted_entries e : In e sorted <-> In e (map to_entry g).
Proof.
  unfold sorted. rewrite in_sortedTerms, in_map_iff. split.
  - intros (t & Ht & ->). eauto.
  - intros (t & <- & Ht). eauto.
Qed.

Lemma toLowerCase_eq_length a b :
  toLowerCase a = toLowerCase b -> length a = length b.
Proof.
  intros H. rewrite <- (toLowerCase_length a), H. apply toLowerCase_length.
Qed.

(** Two terms equal up to case occur at the same places. *)
Lemma occurs_at_lower t1 t2 p s :
  toLowerCase t1 = toLowerCase t2 -> occurs_at t1 p s = occurs_at t2 p s.
Proof.
  intros H. pose proof (toLowerCase_eq_length _ _ H) as Hl.
  unfold occurs_at. rewrite Hl. f_equal. f_equal.
  apply eq_true_iff_eq. rewrite !ic_prefix_lower, Hl, H. reflexivity.
Qed.

Lemma occurs_at_matched t p s :
  occurs_at t p s = true -> toLowerCase (take (length t) s) = toLowerCase t.
Proof.
  unfold occurs_at. rewrite !andb_true_iff. intros [[_ H] _].
  apply ic_prefix_lower in H. apply H.
Qed.

(** What stands for a match: the placeholder of a term equal to it up to
    case. *)
Lemma mask_replacer_occurrence e p s :
  In e sorted -> occurs_at (term e) p s = true ->
  exists e', In e' sorted
    /\ toLowerCase (term e') = toLowerCase (take (length (term e)) s)
    /\ mask_replacer (termLookup sorted) (take (length (term e)) s)
       = placeholder (category e') (id e').
Proof.
  intros Hin Ho. apply occurs_at_matched in Ho.
  destruct (termLookup_In sorted e Hin) as (e' & Hin' & Hl & Hlook).
  exists e'. split; [exact Hin'|]. split; [congruence|].
  unfold mask_replacer. rewrite Ho, Hlook. reflexivity.
Qed.

(** The first match of the sorted list is a longest. *)
Lemma first_match_longest p s e :
  first_match sorted p s = Some e ->
  forall e2, In e2 sorted -> occurs_at (term e2) p s = true ->
             length (term e2) <= length (term e).
Proof.
  intros E. apply (find_sorted_longest _ sorted e); [|exact E].
  apply sort_desc_sorted.
Qed.

Lemma first_match_None p s :
  first_match sorted p s = None ->
  forall e, In e sorted -> occurs_at (term e) p s = false.
Proof. intros E e. apply (find_none _ _ E). Qed.

Lemma first_match_Some_of p s e :
  In e sorted -> occurs_at (term e) p s = true ->
  exists e1, first_match sorted p s = Some e1.
Proof.
  intros Hin Ho. destruct (first_match sorted p s) as [e1|] eqn:E; [eauto|].
  rewrite (first_match_None _ _ E e Hin) in Ho. discriminate.
Qed.

(** The masking scan follows the description in words. *)
Lemma mask_from_masked_as s : forall p,
  masked_as (map to_entry g) p s (mask_from m p s).
Proof.
  remember (length s) as n eqn:Hn. revert s Hn.
  induction n as [n IH] using lt_wf_ind. intros s Hn p.
  destruct s as [|c s].
  - unfold m. rewrite mask_from_nil.
    + constructor.
    + exact sorted_nonempty.
    + exact sorted_term_nonempty.
  - destruct (first_match sorted p (c :: s)) as [e|] eqn:E.
    + pose proof (first_match_occurs _ _ _ _ E) as [Hin Ho].
      pose proof (sorted_term_nonempty e Hin) as Hne.
      destruct (occurs_at_split _ _ _ Ho) as [Hs Hl].
      destruct (mask_replacer_occurrence e p _ Hin Ho) as (e' & Hin' & Hlow & Hrep).
      unfold m. rewrite (mask_from_hit sorted p (c :: s) e E Hne), Hrep.
      set (mt := take (length (term e)) (c :: s)) in *.
      set (rest := drop (length (term e)) (c :: s)) in *.
      rewrite Hs. apply (masked_replace _ p mt rest e e').
      * apply in_sorted_entries, Hin.
      * intros Hnil. rewrite Hnil in Hl. simpl in Hl.
        destruct (term e); [congruence|discriminate].
      * exact Hl.
      * rewrite <- Hs. exact Ho.
      * rewrite <- Hs. intros e2 H2 Ho2.
        apply (first_match_longest p (c :: s) e E e2); [|exact Ho2].
        apply in_sorted_entries, H2.
      * apply in_sorted_entries, Hin'.
      * exact Hlow.
      * apply (IH (length rest)); [|reflexivity].
        subst n. rewrite Hs, length_app, Hl.
        destruct (term e); [congruence|simpl; lia].
    + unfold m. rewrite (mask_from_miss sorted p c s sorted_nonempty E).
      apply masked_keep.
      * intros e He. apply (first_match_None _ _ E), in_sorted_entries, He.
      * apply (IH (length s)); [subst n; simpl; lia|reflexivity].
Qed.



End MaskScan.

(** ** Whole words *)

Section WholeWords.
Import MaskStrings Spec.

(** Characters with the same canonical form are word characters
    together. *)
Lemma word_char_canonical (a b : ascii) :
  Ascii.eqb (canonicalize a) (canonicalize b) = true ->
  is_word_char a = is_word_char b.
Proof.
  assert (H : forallb (fun a => forallb (fun b =>
              implb (Ascii.eqb (canonicalize a) (canonicalize b))
                    (Bool.eqb (is_word_char a) (is_word_char b)))
              all_chars) all_chars = true) by (vm_compute; reflexivity).
  intros E. pose proof (forall_chars _ H a) as Ha. cbv beta in Ha.
  pose proof (forall_chars _ Ha b) as Hb. cbv beta in Hb. rewrite E in Hb.
  apply Bool.eqb_prop in Hb. exact Hb.
Qed.

Lemma ic_prefix_head c t s :
  ic_prefix (c :: t) s = true ->
  exists x s', s = x :: s' /\ is_word_char x = is_word_char c.
Proof.
  destruct s as [|x s']; cbn [ic_prefix]; [discriminate|]. intros H.
  apply andb_true_iff in H. destruct H as [H _].
  exists x, s'. split; [reflexivity|]. symmetry.
  apply word_char_canonical, H.
Qed.

Lemma ic_prefix_last t : forall s p b,
  ic_prefix t s = true -> list.last t = Some b ->
  exists y, prev_after p (take (length t) s) = Some y
            /\ is_word_char y = is_word_char b.
Proof.
  induction t as [|c t IH]; intros s p b H Hl; [discriminate|].
  destruct s as [|x s]; [discriminate|]. cbn [ic_prefix] in H.
  apply andb_true_iff in H. destruct H as [Hc H].
  destruct t as [|c2 t].
  - cbn in Hl. injection Hl as <-. exists x. split; [reflexivity|].
    symmetry. apply word_char_canonical, Hc.
  - cbn [length take].
    change (prev_after p (x :: take (S (length t)) s))
      with (prev_after (Some x) (take (length (c2 :: t)) s)).
    apply IH; [exact H|exact Hl].
Qed.

(** For a term that begins and ends with a word character the pattern
    matches exactly where the term stands as a whole word. *)
Lemma occurs_at_whole_word t p s :
  word_ended t = true -> occurs_at t p s = whole_word_at t p s.
Proof.
  unfold word_ended, occurs_at, whole_word_at. intros Hw.
  destruct (head t) as [a|] eqn:Ha; [|discriminate].
  destruct (list.last t) as [b|] eqn:Hb; [|discriminate].
  apply andb_true_iff in Hw. destruct Hw as [Hwa Hwb].
  destruct (ic_prefix t s) eqn:E.
  - destruct t as [|c t']; [discriminate|]. cbn in Ha. injection Ha as ->.
    destruct (ic_prefix_head _ _ _ E) as (x & s' & -> & Hx).
    destruct (ic_prefix_last _ _ p b E Hb) as (y & Hy & Hyw).
    rewrite Hy. unfold at_boundary, word_before, word_after. cbn [fst snd].
    rewrite Hx, Hwa, Hyw, Hwb. unfold no_word_char.
    destruct p as [q|];
      destruct (drop (length (a :: t')) (x :: s')) as [|z rest];
      cbn [head]; try destruct (is_word_char q);
      try destruct (is_word_char z); reflexivity.
  - rewrite andb_false_r. reflexivity.
Qed.

Lemma pieces_length_cons (p : piece) (ps : list piece) :
  pieces_length (p :: ps)
  = match p with Lit _ => 1 | Hit m => length m end + pieces_length ps.
Proof. reflexivity. Qed.

(** A match that begins at a position of the scan covers every span from
    there that is not longer. *)
Lemma covered_at (before : list piece) m after len : forall off,
  len <= length m ->
  covered (before ++ Hit m :: after) (off + pieces_length before) len off
  = true.
Proof.
  induction before as [|[c|m0] before IH]; intros off Hlen; cbn [app covered].
  - change (pieces_length []) with 0. rewrite Nat.add_0_r.
    apply orb_true_iff. left.
    apply andb_true_iff. split; [apply Nat.leb_le|apply Nat.leb_le]; lia.
  - rewrite pieces_length_cons.
    replace (off + (1 + pieces_length before))
      with (S off + pieces_length before) by lia.
    apply IH, Hlen.
  - rewrite pieces_length_cons. apply orb_true_iff. right.
    replace (off + (length m0 + pieces_length before))
      with (off + length m0 + pieces_length before) by lia.
    apply IH, Hlen.
Qed.

Lemma masked_as_words es p s out :
  (forall e, In e es -> word_ended (term e) = true) ->
  masked_as es p s out -> masked_words es p s out.
Proof.
  intros Hw H. induction H as [p|p c s out Hno _ IH
                               |p m rest e e' out He Hm Hl Ho Hmax He' Hlow _ IH].
  - constructor.
  - apply words_keep; [|exact IH]. intros e He.
    rewrite <- (occurs_at_whole_word _ _ _ (Hw e He)). apply Hno, He.
  - apply (words_replace es p m rest e e'); try assumption.
    + rewrite <- (occurs_at_whole_word _ _ _ (Hw e He)). exact Ho.
    + intros e2 H2 Ho2. apply (Hmax e2 H2).
      rewrite (occurs_at_whole_word _ _ _ (Hw e2 H2)). exact Ho2.
Qed.

End WholeWords.

(** ** The positions of the masking scan *)

Section MaskPositions.
Import MaskStrings Spec.

Variable g : list Glossary.row.
Hypothesis g_nonempty : g <> [].
Hypothesis terms_nonempty : forall t, In t g -> Glossary.term t <> [].

Let sorted := sortedTerms g.

(** A position that lies inside no match is one the scan stands at: the
    pieces before it stand for the text before it, and the scan goes on
    from there as on the rest of the text. *)
Lemma scan_reaches pre : forall p s off,
  inside_match (scan true (mask_pattern sorted) p (pre ++ s))
    (off + length pre) off = false ->
  exists before,
    scan true (mask_pattern sorted) p (pre ++ s)
    = before ++ scan true (mask_pattern sorted) (prev_after p pre) s
    /\ pieces_length before = length pre.
Proof.
  induction pre as [pre IH] using (induction_ltof1 _ (@length ascii)).
  unfold ltof in IH. intros p s off Hin.
  destruct pre as [|c pre].
  - exists []. split; reflexivity.
  - cbn [app] in *.
    pose proof (match_at_mask_pattern sorted p (c :: pre ++ s)
                  (sortedTerms_nonempty g g_nonempty)) as Hm.
    destruct (first_match sorted p (c :: pre ++ s)) as [e|] eqn:E.
    + pose proof (first_match_occurs _ _ _ _ E) as [Hine Ho].
      pose proof (sorted_term_nonempty g terms_nonempty e Hine) as Hne.
      destruct (occurs_at_split _ _ _ Ho) as [Hs Hl].
      set (mt := take (length (term e)) (c :: pre ++ s)) in *.
      set (rest := drop (length (term e)) (c :: pre ++ s)) in *.
      assert (Hmt : mt <> []).
      { intros Hnil. rewrite Hnil in Hl. simpl in Hl.
        destruct (term e); [congruence|discriminate]. }
      rewrite Hs in Hm, Hin. rewrite Hs.
      rewrite (scan_hit _ _ _ _ _ _ Hmt Hm) in Hin |- *.
      cbn [inside_match] in Hin. apply orb_false_iff in Hin.
      destruct Hin as [Hhere Hin]. apply andb_false_iff in Hhere.
      assert (Hle : length (term e) <= length (c :: pre)).
      { destruct Hhere as [H|H].
        - apply Nat.ltb_ge in H. simpl in H. lia.
        - apply Nat.ltb_ge in H. lia. }
      assert (Emt : mt = take (length (term e)) (c :: pre)).
      { unfold mt. change (c :: pre ++ s) with ((c :: pre) ++ s).
        rewrite take_app_le by exact Hle. reflexivity. }
      assert (Erest : rest = drop (length (term e)) (c :: pre) ++ s).
      { unfold rest. change (c :: pre ++ s) with ((c :: pre) ++ s).
        rewrite drop_app_le by exact Hle. reflexivity. }
      rewrite Erest in Hin |- *.
      destruct (IH (drop (length (term e)) (c :: pre))
                  ltac:(rewrite length_drop;
                        destruct (term e); [congruence|simpl; lia])
                  (prev_after p mt) s (off + length mt))
        as (before & Hb & Hlen).
      { rewrite <- Hin. f_equal. rewrite Hl, length_drop. lia. }
      exists (Hit mt :: before). split.
      * cbn [app]. f_equal. rewrite Hb. f_equal. f_equal.
        rewrite <- prev_after_app, Emt, take_drop. reflexivity.
      * rewrite pieces_length_cons, Hlen, Hl, length_drop. lia.
    + rewrite (scan_miss _ _ _ _ _ Hm) in Hin |- *.
      cbn [inside_match] in Hin.
      destruct (IH pre ltac:(simpl; lia) (Some c) s (S off))
        as (before & Hb & Hlen).
      { rewrite <- Hin. f_equal. simpl. lia. }
      exists (Lit c :: before). split.
      * cbn [app]. f_equal. exact Hb.
      * rewrite pieces_length_cons, Hlen. reflexivity.
Qed.

(** The masked text is the scan with every match replaced. *)
Lemma maskText_scan text :
  maskText g text
  = concat (map (render (mask_replacer (termLookup sorted)))
              (scan true (mask_pattern sorted) None text)).
Proof. rewrite maskText_nonempty by exact g_nonempty. reflexivity. Qed.

End MaskPositions.

Section MaskClaims.
Import MaskStrings Spec Examples.

Lemma masked_as_no_term s : forall p, masked_as [] p s s.
Proof.
  induction s as [|c s IH]; intros p; constructor; [|apply IH].
  intros e [].
Qed.

Lemma word_ended_nonempty t : word_ended t = true -> t <> [].
Proof. intros H ->. discriminate H. Qed.

(** C5: the claim fails on the code.  Each term is wrapped in [\b], which
    asks for a word character on one side: a term that ends with another
    character is not matched where it stands as a whole word, and is
    matched where a word character follows it.  With the quest Lights
    Out!, the sentence that names it is returned unmasked, and in
    "Lights Out!yes" the name is masked.  For Whiterun the behaviour is
    the one claimed: Whiterunners is returned unchanged. *)
Theorem C5_word_boundary :
  whole_word_at (str "Lights Out!")
    (prev_after None (str "Have you finished ")) (str "Lights Out! yet?")
  = true
  /\ maskText lights_out (str "Have you finished Lights Out! yet?")
     = str "Have you finished Lights Out! yet?"
  /\ whole_word_at (str "Lights Out!") None (str "Lights Out!yes") = false
  /\ maskText lights_out (str "Lights Out!yes") = str "[Quest_q1]yes"
  /\ maskText whiterun (str "Whiterunners") = str "Whiterunners"
  /\ maskText whiterun (str "WHITERUN, then whiterun.")
     = str "[Location_a1], then [Location_a1].".
Proof. repeat split; vm_compute; reflexivity. Qed.


Lemma build_brotherhood :
  build brotherhood = Some (matcher_of (sortedTerms brotherhood)).
Proof. apply build_nonempty. discriminate. Qed.

(** C2, as stated, fails: Sanctuary is a substring of Brotherhood
    Sanctuary, which stands as a whole word in the text, but the scan finds
    Dark Brotherhood first, to its left, and then masks Sanctuary alone.
    It fails also where the longer term ends with a character that is no
    word character: Lights Out! stands as a whole word in the text, its
    pattern does not match there, and Lights is masked alone. *)
Lemma C2_counterexample :
  maskText brotherhood (str "the Dark Brotherhood Sanctuary")
  = str "the [Faction_a1] [Location_b2]"
  /\ whole_word_at (str "Lights Out!") (prev_after None (str "Finish "))
       (str "Lights Out! now") = true
  /\ maskText lights (str "Finish Lights Out! now")
     = str "Finish [Item_a1] Out! now"
  /\ ~ longest_span_claim.
Proof.
  split; [vm_compute; reflexivity|]. split; [vm_compute; reflexivity|].
  split; [vm_compute; reflexivity|]. intros H.
  specialize (H brotherhood (matcher_of (sortedTerms brotherhood))
                (term_row "b2" "Sanctuary" "Location")
                (term_row "c3" "Brotherhood Sanctuary" "Location")
                (str "the Dark ") (str "Brotherhood Sanctuary")
                build_brotherhood).
  assert (Hcov : covered
            (scan true (m_pattern (matcher_of (sortedTerms brotherhood))) None
               (str "the Dark " ++ str "Brotherhood Sanctuary"))
            (length (str "the Dark "))
            (length (Glossary.term
                       (term_row "c3" "Brotherhood Sanctuary" "Location")))
            0 = false) by (vm_compute; reflexivity).
  rewrite Hcov in H. enough (false = true) by discriminate. apply H.
  - right. left. reflexivity.
  - right. right. left. reflexivity.
  - exists (str "Brotherhood "), []. reflexivity.
  - vm_compute. reflexivity.
Qed.

(** The same with the two terms alone: the longer occurs twice, the
    occurrences overlap, and the scan, which never turns back, masks the
    shorter alone inside the second. *)
Lemma overlap_with_itself :
  maskText shout (str "Fus Ro Fus Ro Fus") = str "[Shout_b2] Ro [Shout_a1]"
  /\ whole_word_at (str "Fus Ro Fus") (prev_after None (str "Fus Ro "))
       (str "Fus Ro Fus") = true.
Proof. split; vm_compute; reflexivity. Qed.

(** C2, amended: the terms are tried in descending order of length, so
    wherever a glossary term that begins and ends with a word character
    stands as a whole word at a position that lies inside no earlier match
    of the scan, the scan replaces with one placeholder a span that begins
    there and is the longest term whose pattern matches there: a span at
    least as long as the term, and as any other such term standing there,
    so that the term is not masked by a shorter one alone; the text before
    and after the span is masked on its own.  With Skyrim and Skyrim Hold,
    "I visited Skyrim Hold today" becomes "I visited [Location_b2] today"
    and "Skyrim and Skyrim Hold" becomes "[Location_a1] and
    [Location_b2]". *)
Theorem C2_longest_match (g : list Glossary.row) (pre s : jsstring)
    (long : Glossary.row) :
  (forall t, In t g -> Glossary.term t <> []) ->
  In long g ->
  word_ended (Glossary.term long) = true ->
  whole_word_at (Glossary.term long) (prev_after None pre) s = true ->
  inside_match (scan true (mask_pattern (sortedTerms g)) None (pre ++ s))
    (length pre) 0 = false ->
  (build g = Some (matcher_of (sortedTerms g))
   /\ covered (scan true (mask_pattern (sortedTerms g)) None (pre ++ s))
        (length pre) (length (Glossary.term long)) 0 = true
   /\ exists e e' before after,
        In e (map to_entry g)
        /\ length (Glossary.term long) <= length (term e)
        /\ toLowerCase (take (length (term e)) s) = toLowerCase (term e)
        /\ (forall e2, In e2 (map to_entry g) ->
              word_ended (term e2) = true ->
              whole_word_at (term e2) (prev_after None pre) s = true ->
              length (term e2) <= length (term e))
        /\ scan true (mask_pattern (sortedTerms g)) None (pre ++ s)
           = before ++ Hit (take (length (term e)) s) :: after
        /\ pieces_length before = length pre
        /\ In e' (map to_entry g)
        /\ toLowerCase (term e') = toLowerCase (take (length (term e)) s)
        /\ maskText g (pre ++ s)
           = concat (map (render (mask_replacer (termLookup (sortedTerms g))))
                       before)
             ++ placeholder (category e') (id e')
             ++ concat (map (render (mask_replacer
                                       (termLookup (sortedTerms g))))
                          after))
  /\ maskText skyrim (str "I visited Skyrim Hold today")
     = str "I visited [Location_b2] today"
  /\ maskText skyrim (str "Skyrim and Skyrim Hold")
     = str "[Location_a1] and [Location_b2]".
Proof.
  intros Hterms Hlong Hw Ho Hin.
  split; [|split; vm_compute; reflexivity].
  assert (Hg : g <> []) by (intros ->; destruct Hlong).
  assert (Hinl : In (to_entry long) (sortedTerms g))
    by (apply in_sortedTerms; eauto).
  assert (Hol : occurs_at (term (to_entry long)) (prev_after None pre) s = true)
    by (cbn [term to_entry]; rewrite (occurs_at_whole_word _ _ _ Hw);
        exact Ho).
  destruct (first_match_Some_of g (prev_after None pre) s (to_entry long)
              Hinl Hol) as (e & E).
  pose proof (first_match_occurs _ _ _ _ E) as [Hine Hoe].
  pose proof (sorted_term_nonempty g Hterms e Hine) as Hne.
  destruct (mask_replacer_occurrence g e _ s Hine Hoe)
    as (e' & Hin' & Hlow & Hrep).
  destruct (occurs_at_split _ _ _ Hoe) as [Hs Hl].
  assert (Hmt : take (length (term e)) s <> []).
  { intros Hnil. rewrite Hnil in Hl. simpl in Hl.
    destruct (term e); [congruence|discriminate]. }
  pose proof (match_at_mask_pattern (sortedTerms g) (prev_after None pre) s
                (sortedTerms_nonempty g Hg)) as Hm.
  rewrite E in Hm.
  assert (Hscan : scan true (mask_pattern (sortedTerms g))
                    (prev_after None pre) s
                  = Hit (take (length (term e)) s)
                    :: scan true (mask_pattern (sortedTerms g))
                         (prev_after (prev_after None pre)
                            (take (length (term e)) s))
                         (drop (length (term e)) s)).
  { rewrite Hs at 1. apply scan_hit; [exact Hmt|]. rewrite <- Hs. exact Hm. }
  destruct (scan_reaches g Hg Hterms pre None s 0 Hin) as (before & Hb & Hlen).
  rewrite Hscan in Hb.
  assert (Hlong_le : length (Glossary.term long) <= length (term e))
    by (apply (first_match_longest g _ s e E (to_entry long) Hinl Hol)).
  split; [apply build_nonempty, Hg|]. split.
  { rewrite Hb, <- Hlen. apply (covered_at before _ _ _ 0). rewrite Hl.
    exact Hlong_le. }
  exists e, e', before,
    (scan true (mask_pattern (sortedTerms g))
       (prev_after (prev_after None pre) (take (length (term e)) s))
       (drop (length (term e)) s)).
  split; [apply in_sorted_entries, Hine|].
  split; [exact Hlong_le|].
  split; [apply (occurs_at_matched _ _ _ Hoe)|].
  split.
  { intros e2 H2 Hw2 Ho2. apply in_sorted_entries in H2.
    apply (first_match_longest g _ s e E e2 H2).
    rewrite (occurs_at_whole_word _ _ _ Hw2). exact Ho2. }
  split; [exact Hb|]. split; [exact Hlen|].
  split; [apply in_sorted_entries, Hin'|]. split; [exact Hlow|].
  rewrite (maskText_scan g Hg), Hb, map_app, concat_app. cbn [map concat render].
  rewrite Hrep. reflexivity.
Qed.

Lemma skyrim_terms t : In t skyrim -> Glossary.term t <> [].
Proof. intros [<-|[<-|[]]]; discriminate. Qed.

(** The amended C2 at the second occurrence of Skyrim in "Skyrim and
    Skyrim Hold". *)
Lemma C2_longest_match_witness :
  covered (scan true (mask_pattern (sortedTerms skyrim)) None
             (str "Skyrim and " ++ str "Skyrim Hold"))
    (length (str "Skyrim and ")) (length (str "Skyrim")) 0 = true.
Proof.
  refine (proj1 (proj2 (proj1 (C2_longest_match skyrim (str "Skyrim and ")
                   (str "Skyrim Hold")
                   (term_row "a1" "Skyrim" "Location") skyrim_terms
                   _ _ _ _)))).
  - left. reflexivity.
  - reflexivity.
  - vm_compute. reflexivity.
  - vm_compute. reflexivity.
Defined.

End MaskClaims.

(** ** The round trip *)

Section RoundTrip.
Import MaskStrings Translate Spec.

Lemma letters_underscore_inj c1 : forall c2 r1 r2,
  forallb is_letter c1 = true -> forallb is_letter c2 = true ->
  c1 ++ "_" :: r1 = c2 ++ "_" :: r2 -> c1 = c2 /\ r1 = r2.
Proof.
  induction c1 as [|a c1 IH]; intros [|b c2] r1 r2 H1 H2 E; simpl in *.
  - injection E as ->. auto.
  - injection E as <- _. discriminate H2.
  - injection E as -> _. discriminate H1.
  - injection E as -> E. apply andb_true_iff in H1, H2.
    destruct (IH c2 r1 r2 (proj2 H1) (proj2 H2) E) as [-> ->]. auto.
Qed.

Lemma wf_row_cache_key t :
  wf_row t ->
  cache_key t = placeholder (category (to_entry t)) (id (to_entry t))
  /\ is_placeholder (cache_key t).
Proof.
  intros (_ & (c & Hc & Hne & Hl) & Hid & Hi). unfold cache_key, placeholder.
  cbn [to_entry category id]. rewrite Hc. cbn [interpolate category_or_Term].
  destruct c as [|a c]; [congruence|]. split; [reflexivity|].
  exists (a :: c), (Glossary.id t). auto.
Qed.

Lemma cache_key_inj t1 t2 :
  wf_row t1 -> wf_row t2 -> cache_key t1 = cache_key t2 ->
  Glossary.id t1 = Glossary.id t2.
Proof.
  intros (_ & (c1 & Hc1 & _ & Hl1) & _) (_ & (c2 & Hc2 & _ & Hl2) & _).
  unfold cache_key. rewrite Hc1, Hc2. cbn [interpolate]. intros [= E].
  apply letters_underscore_inj in E; [|assumption..].
  destruct E as [_ E]. apply app_inv_tail in E. exact E.
Qed.

Lemma NoDup_id_inj (g : list Glossary.row) t1 t2 :
  NoDup (map Glossary.id g) -> In t1 g -> In t2 g ->
  Glossary.id t1 = Glossary.id t2 -> t1 = t2.
Proof.
  induction g as [|r g IH]; intros Hnd H1 H2 E; [destruct H1|].
  cbn [map] in Hnd. apply NoDup_cons in Hnd. destruct Hnd as [Hr Hnd].
  assert (Hnot : forall x, In x g -> Glossary.id x <> Glossary.id r).
  { intros x Hx Hid. apply Hr. apply list_elem_of_In, in_map_iff. eauto. }
  destruct H1 as [<-|H1], H2 as [<-|H2].
  - reflexivity.
  - exfalso. apply (Hnot t2 H2). congruence.
  - exfalso. apply (Hnot t1 H1). congruence.
  - apply IH; assumption.
Qed.

(** The cache gives its term back for the key of a row. *)
Lemma loadGlossaryCache_key g t :
  wf_glossary g -> In t g ->
  loadGlossaryCache g !! cache_key t = Some (Glossary.term t).
Proof.
  intros [Hnd Hwf] Hin.
  destruct (lookup_foldl_insert_In cache_key Glossary.term g t Hin)
    as (t' & Hin' & Hk & Hlook).
  unfold loadGlossaryCache. rewrite Hlook. f_equal. f_equal.
  apply (NoDup_id_inj g); try assumption.
  apply cache_key_inj; auto.
Qed.

Lemma casing_from_tail g p c s :
  casing_from g p (c :: s) -> casing_from g (Some c) s.
Proof.
  intros H pre suf t -> Ht Ho. apply (H (c :: pre) suf t eq_refl Ht Ho).
Qed.

Lemma casing_from_drop g p mt rest :
  casing_from g p (mt ++ rest) -> casing_from g (prev_after p mt) rest.
Proof.
  intros H pre suf t -> Ht Ho.
  apply (H (mt ++ pre) suf t); [apply app_assoc|exact Ht|].
  rewrite prev_after_app. exact Ho.
Qed.

Lemma casing_from_check g s : forall p,
  casing_from_b g p s = true -> casing_from g p s.
Proof.
  induction s as [|c s IH]; intros p Hb pre suf t Hs Ht Ho;
    cbn [casing_from_b] in Hb; apply andb_true_iff in Hb;
    destruct Hb as [Hhead Htail].
  - symmetry in Hs. apply app_eq_nil in Hs. destruct Hs as [-> ->].
    rewrite forallb_forall in Hhead. specialize (Hhead t Ht).
    cbn [prev_after foldl] in Ho. rewrite Ho in Hhead.
    apply bool_decide_eq_true in Hhead. exact Hhead.
  - destruct pre as [|c' pre].
    + simpl in Hs. subst suf. rewrite forallb_forall in Hhead.
      specialize (Hhead t Ht). cbn [prev_after foldl] in Ho.
      rewrite Ho in Hhead. apply bool_decide_eq_true in Hhead. exact Hhead.
    + injection Hs as <- ->. apply (IH (Some c) Htail pre suf t eq_refl Ht Ho).
Qed.

Variable g : list Glossary.row.
Hypothesis g_wf : wf_glossary g.
Hypothesis g_nonempty : g <> [].

Lemma wf_terms_nonempty t : In t g -> Glossary.term t <> [].
Proof. intros H. apply (proj2 g_wf t H). Qed.

(** The round trip from any position of the scan. *)
Lemma round_trip_from s : forall p,
  ~ In "[" s -> casing_from g p s ->
  unmaskText (mask_from (matcher_of (sortedTerms g)) p s)
    (loadGlossaryCache g) = s.
Proof.
  remember (length s) as n eqn:Hn. revert s Hn.
  induction n as [n IH] using lt_wf_ind. intros s Hn p Hbr Hcase.
  destruct s as [|c s].
  - rewrite mask_from_nil.
    + apply unmaskText_nil.
    + apply sortedTerms_nonempty, g_nonempty.
    + apply (sorted_term_nonempty g wf_terms_nonempty).
  - destruct (first_match (sortedTerms g) p (c :: s)) as [e|] eqn:E.
    + pose proof (first_match_occurs _ _ _ _ E) as [Hin Ho].
      pose proof (sorted_term_nonempty g wf_terms_nonempty e Hin) as Hne.
      destruct (occurs_at_split _ _ _ Ho) as [Hs Hl].
      destruct (mask_replacer_occurrence g e p _ Hin Ho)
        as (e' & Hin' & Hlow & Hrep).
      rewrite (mask_from_hit _ p (c :: s) e E Hne), Hrep.
      apply in_sortedTerms in Hin'. destruct Hin' as (t' & Ht' & ->).
      pose proof (proj2 g_wf t' Ht') as Hwf.
      destruct (wf_row_cache_key t' Hwf) as [Hkey Hph].
      rewrite <- Hkey, unmaskText_hit by exact Hph.
      unfold unmask_replacer.
      rewrite (loadGlossaryCache_key g t' g_wf Ht').
      set (mt := take (length (term e)) (c :: s)) in *.
      set (rest := drop (length (term e)) (c :: s)) in *.
      assert (Hterm : Glossary.term t' = mt).
      { assert (Ho' : occurs_at (Glossary.term t') p (c :: s) = true).
        { rewrite (occurs_at_lower (Glossary.term t') (term e)); [exact Ho|].
          cbn [to_entry term] in Hlow. rewrite Hlow.
          apply (occurs_at_matched _ _ _ Ho). }
        pose proof (Hcase [] (c :: s) t' eq_refl Ht' Ho') as Hc.
        rewrite <- Hc. unfold mt. f_equal.
        apply toLowerCase_eq_length. cbn [to_entry term] in Hlow.
        rewrite Hlow. apply (occurs_at_matched _ _ _ Ho). }
      rewrite Hterm.
      assert (Hmt : mt <> []).
      { intros Hnil. rewrite Hnil in Hl. simpl in Hl.
        destruct (term e); [congruence|discriminate]. }
      destruct mt as [|a mt'] eqn:Emt; [congruence|].
      rewrite Hs. f_equal.
      apply (IH (length rest)); [|reflexivity| |].
      * subst n. rewrite Hs, length_app. simpl. lia.
      * intros Hin0. apply Hbr. rewrite Hs. apply in_or_app. right. exact Hin0.
      * apply casing_from_drop. rewrite <- Hs. exact Hcase.
    + rewrite (mask_from_miss _ p c s (sortedTerms_nonempty g g_nonempty) E).
      rewrite unmaskText_other.
      * f_equal. apply (IH (length s)); [subst n; simpl; lia|reflexivity| |].
        -- intros H. apply Hbr. right. exact H.
        -- apply (casing_from_tail g p c s Hcase).
      * intros ->. apply Hbr. left. reflexivity.
Qed.

End RoundTrip.

Section RoundTripClaim.
Import MaskStrings Translate Spec Examples.







End RoundTripClaim.

Section ClassifierWitnesses.
Import Schema Spec.

(** C3 at a translation that lost the angle brackets: PUNCTUATION is
    there, so [dest] is non-empty and differs from the source. *)
Lemma C3_missing_same_punctuation_witness :
  exists d, Some (str "Il a dit Tag") = Some d /\ d <> []
            /\ d <> str "He said <Tag>".
Proof.
  refine (proj1 (proj2 (proj2 (proj2
    (C3_missing_same_punctuation (str "He said <Tag>")
       (Some (str "Il a dit Tag")))))) _).
  vm_compute. left. reflexivity.
Defined.

(** C7 at an identifier in camel case, and at the same words with
    spaces. *)
Lemma C7_isTechnical_witness :
  isTechnical (str "FemaleHeadWoodElfVampire") = true
  /\ isTechnical (str "Female Head Wood Elf Vampire") = false.
Proof.
  split.
  - apply (proj2 (C7_isTechnical (str "FemaleHeadWoodElfVampire"))).
    + intros H. vm_compute in H.
      repeat (destruct H as [H|H]; [discriminate H|]). exact H.
    + split.
      * exists "F". split; [left; reflexivity|reflexivity].
      * right. right. vm_compute. lia.
  - apply (proj1 (C7_isTechnical (str "Female Head Wood Elf Vampire"))).
    vm_compute. do 6 right. left. reflexivity.
Defined.

(** C8 at a translation that lost the angle brackets. *)
Lemma C8_isPunctuationMismatch_witness :
  isPunctuationMismatch (str "He said <Tag>") (str "Il a dit Tag") = true.
Proof.
  apply (proj1 (C8_isPunctuationMismatch (str "He said <Tag>")
                  (str "Il a dit Tag"))).
  - discriminate.
  - vm_compute. discriminate.
Defined.

End ClassifierWitnesses.

(** * Further properties *)

(** ** The tags of a pair and the anomaly scan *)

Section ScanProps.
Import Schema ScanAnomalies Props.

Lemma getAnomalyTypes_split (source : jsstring) (dest : option jsstring) :
  exists a b c,
    getAnomalyTypes source dest = a ++ b ++ c
    /\ (a = [] \/ a = [MISSING] \/ a = [SAME] \/ a = [PUNCTUATION])
    /\ (b = [] \/ b = [DLC])
    /\ (c = [] \/ c = [TECHNICAL]).
Proof.
  unfold getAnomalyTypes.
  set (a := match dest with
            | Some (c :: d) =>
                if str_eqb source (c :: d) then [SAME]
                else if isPunctuationMismatch source (c :: d)
                     then [PUNCTUATION] else []
            | _ => [MISSING]
            end).
  assert (Ha : a = [] \/ a = [MISSING] \/ a = [SAME] \/ a = [PUNCTUATION]).
  { unfold a. destruct dest as [[|c d]|]; auto.
    destruct (str_eqb source (c :: d)); auto.
    destruct (isPunctuationMismatch source (c :: d)); auto. }
  clearbody a. exists a.
  destruct (isDLC source), (isTechnical source).
  - exists [DLC], [TECHNICAL]. rewrite <- app_assoc. auto.
  - exists [DLC], []. rewrite app_nil_r. auto.
  - exists [], [TECHNICAL]. auto.
  - exists [], []. rewrite !app_nil_r. auto.
Qed.

Lemma getAnomalyTypes_NoDup (source : jsstring) (dest : option jsstring) :
  NoDup (getAnomalyTypes source dest).
Proof.
  destruct (getAnomalyTypes_split source dest) as (a & b & c & -> & Ha & Hb & Hc).
  destruct Ha as [-> | [-> | [-> | ->]]], Hb as [-> | ->], Hc as [-> | ->];
    cbn [app];
    repeat (apply NoDup_cons_2;
            [rewrite ?list_elem_of_In; cbn [In]; intuition discriminate|]);
    apply NoDup_nil_2.
Qed.

(** X1: the tags of a pair come in a fixed order and without repetition:
    at most one of MISSING, SAME and PUNCTUATION, then DLC if it applies,
    then TECHNICAL if it applies; so there are at most three. *)
Theorem getAnomalyTypes_shape (source : jsstring) (dest : option jsstring) :
  (exists a b c,
     getAnomalyTypes source dest = a ++ b ++ c
     /\ (a = [] \/ a = [MISSING] \/ a = [SAME] \/ a = [PUNCTUATION])
     /\ (b = [] \/ b = [DLC])
     /\ (c = [] \/ c = [TECHNICAL]))
  /\ NoDup (getAnomalyTypes source dest)
  /\ length (getAnomalyTypes source dest) <= 3.
Proof.
  split; [apply getAnomalyTypes_split|]. split; [apply getAnomalyTypes_NoDup|].
  destruct (getAnomalyTypes_split source dest) as (a & b & c & -> & Ha & Hb & Hc).
  destruct Ha as [-> | [-> | [-> | ->]]], Hb as [-> | ->], Hc as [-> | ->];
    cbn [app length]; lia.
Qed.

Lemma note_count line acc t t' :
  count t (fst (note line acc t'))
  = count t (fst acc) + (if bool_decide (t = t') then 1 else 0).
Proof.
  unfold note. cbn [fst]. destruct (fst acc).
  destruct t, t';
    first [ rewrite bool_decide_eq_true_2 by reflexivity
          | rewrite bool_decide_eq_false_2 by discriminate ];
    cbn [count bump n_missing n_same n_dlc n_tech n_punct]; lia.
Qed.

Lemma note_totals line acc t' :
  total (fst (note line acc t')) = total (fst acc)
  /\ anomalies (fst (note line acc t')) = anomalies (fst acc).
Proof. unfold note. destruct t'; split; reflexivity. Qed.

(** A sample list with one more line, five at most. *)
Lemma note_samples line acc t t' l0 :
  samples t (snd acc) = Some l0 ->
  samples t (snd (note line acc t'))
  = Some (if bool_decide (t = t')
          then (if (length l0 <? 5)%nat then l0 ++ [line] else l0)
          else l0).
Proof.
  intros H. unfold note. cbn [snd].
  destruct t; try discriminate H; destruct t'; cbn [samples] in *;
    injection H as <-;
    first [ rewrite bool_decide_eq_true_2 by reflexivity
          | rewrite bool_decide_eq_false_2 by discriminate ];
    try reflexivity;
    match goal with |- context [(length ?l <? 5)%nat] =>
      destruct (length l <? 5)%nat end; reflexivity.
Qed.

Lemma foldl_note_count line t types : forall acc,
  NoDup types ->
  count t (fst (foldl (note line) acc types))
  = count t (fst acc) + (if bool_decide (t ∈ types) then 1 else 0).
Proof.
  induction types as [|t' types IH]; intros acc Hnd.
  - cbn [foldl]. rewrite bool_decide_eq_false_2 by (apply not_elem_of_nil). lia.
  - apply NoDup_cons in Hnd. destruct Hnd as [Hnot Hnd]. cbn [foldl].
    rewrite (IH _ Hnd), note_count.
    destruct (decide (t = t')) as [->|Hne].
    + rewrite (bool_decide_eq_true_2 (t' = t')) by reflexivity.
      rewrite (bool_decide_eq_false_2 (t' ∈ types)) by exact Hnot.
      rewrite (bool_decide_eq_true_2 (t' ∈ t' :: types))
        by (apply elem_of_cons; left; reflexivity).
      lia.
    + rewrite (bool_decide_eq_false_2 (t = t')) by exact Hne.
      destruct (decide (t ∈ types)) as [Hin|Hin].
      * rewrite (bool_decide_eq_true_2 (t ∈ types)) by exact Hin.
        rewrite (bool_decide_eq_true_2 (t ∈ t' :: types))
          by (apply elem_of_cons; right; exact Hin).
        lia.
      * rewrite (bool_decide_eq_false_2 (t ∈ types)) by exact Hin.
        rewrite (bool_decide_eq_false_2 (t ∈ t' :: types)); [lia|].
        intros H. apply elem_of_cons in H. destruct H; auto.
Qed.

Lemma foldl_note_totals line types : forall acc,
  total (fst (foldl (note line) acc types)) = total (fst acc)
  /\ anomalies (fst (foldl (note line) acc types)) = anomalies (fst acc).
Proof.
  induction types as [|t' types IH]; intros acc; [auto|]. cbn [foldl].
  destruct (IH (note line acc t')) as [-> ->]. apply note_totals.
Qed.

Lemma foldl_note_samples line t types : forall acc l0,
  NoDup types ->
  samples t (snd acc) = Some l0 ->
  samples t (snd (foldl (note line) acc types))
  = Some (if bool_decide (t ∈ types)
          then (if (length l0 <? 5)%nat then l0 ++ [line] else l0)
          else l0).
Proof.
  induction types as [|t' types IH]; intros acc l0 Hnd H0.
  - cbn [foldl]. rewrite bool_decide_eq_false_2 by (apply not_elem_of_nil).
    exact H0.
  - apply NoDup_cons in Hnd. destruct Hnd as [Hnot Hnd]. cbn [foldl].
    rewrite (IH _ _ Hnd (note_samples line acc t t' l0 H0)).
    destruct (decide (t = t')) as [->|Hne].
    + rewrite (bool_decide_eq_true_2 (t' = t')) by reflexivity.
      rewrite (bool_decide_eq_false_2 (t' ∈ types)) by exact Hnot.
      rewrite (bool_decide_eq_true_2 (t' ∈ t' :: types))
        by (apply elem_of_cons; left; reflexivity).
      reflexivity.
    + rewrite (bool_decide_eq_false_2 (t = t')) by exact Hne.
      destruct (decide (t ∈ types)) as [Hin|Hin].
      * rewrite (bool_decide_eq_true_2 (t ∈ types)) by exact Hin.
        rewrite (bool_decide_eq_true_2 (t ∈ t' :: types))
          by (apply elem_of_cons; right; exact Hin).
        reflexivity.
      * rewrite (bool_decide_eq_false_2 (t ∈ types)) by exact Hin.
        rewrite (bool_decide_eq_false_2 (t ∈ t' :: types)); [reflexivity|].
        intros H. apply elem_of_cons in H. destruct H; auto.
Qed.

Lemma has_tag_flagged t r : has_tag t r = true -> flagged r = true.
Proof.
  unfold has_tag, flagged.
  destruct (DialogStrings.source r) as [[|c s]|]; try discriminate.
  intros H. apply bool_decide_eq_true in H.
  destruct (getAnomalyTypes (c :: s) (DialogStrings.dest r));
    [apply not_elem_of_nil in H; destruct H|reflexivity].
Qed.

Lemma step_count t acc r :
  count t (fst (step acc r))
  = count t (fst acc) + (if has_tag t r then 1 else 0).
Proof.
  unfold step, has_tag.
  destruct (DialogStrings.source r) as [[|c s]|]; try lia.
  destruct (0 <? length _)%nat eqn:E.
  - rewrite foldl_note_count by apply getAnomalyTypes_NoDup.
    cbn [fst]. destruct (fst acc); reflexivity.
  - apply Nat.ltb_ge in E.
    destruct (getAnomalyTypes (c :: s) (DialogStrings.dest r));
      [|simpl in E; lia].
    rewrite bool_decide_eq_false_2 by (apply not_elem_of_nil). lia.
Qed.

Lemma step_totals acc r :
  total (fst (step acc r)) = total (fst acc)
  /\ anomalies (fst (step acc r))
     = anomalies (fst acc) + (if flagged r then 1 else 0).
Proof.
  unfold step, flagged.
  destruct (DialogStrings.source r) as [[|c s]|]; try (split; lia).
  destruct (0 <? length _)%nat; [|split; lia].
  destruct (foldl_note_totals
              (describe (c :: s) (DialogStrings.dest r))
              (getAnomalyTypes (c :: s) (DialogStrings.dest r))
              (bump_anomalies (fst acc), snd acc)) as [-> ->].
  cbn [fst]. destruct (fst acc). cbn. split; lia.
Qed.

Lemma step_samples t acc r l0 :
  samples t (snd acc) = Some l0 ->
  samples t (snd (step acc r))
  = Some (if has_tag t r
          then (if (length l0 <? 5)%nat then l0 ++ [sample_line r] else l0)
          else l0).
Proof.
  intros H0. unfold step, has_tag, sample_line.
  destruct (DialogStrings.source r) as [[|c s]|]; try exact H0.
  cbn [default]. destruct (0 <? length _)%nat eqn:E.
  - apply foldl_note_samples; [apply getAnomalyTypes_NoDup|exact H0].
  - apply Nat.ltb_ge in E.
    destruct (getAnomalyTypes (c :: s) (DialogStrings.dest r));
      [|simpl in E; lia].
    rewrite bool_decide_eq_false_2 by (apply not_elem_of_nil). exact H0.
Qed.

Lemma foldl_step_count t l : forall acc,
  count t (fst (foldl step acc l))
  = count t (fst acc) + length (List.filter (has_tag t) l).
Proof.
  induction l as [|r l IH]; intros acc; [simpl; lia|].
  cbn [foldl List.filter]. rewrite IH, step_count.
  destruct (has_tag t r); simpl; lia.
Qed.

Lemma foldl_step_totals l : forall acc,
  total (fst (foldl step acc l)) = total (fst acc)
  /\ anomalies (fst (foldl step acc l))
     = anomalies (fst acc) + length (List.filter flagged l).
Proof.
  induction l as [|r l IH]; intros acc; [simpl; split; lia|].
  cbn [foldl List.filter]. destruct (IH (step acc r)) as [-> ->].
  destruct (step_totals acc r) as [-> ->].
  destruct (flagged r); simpl; split; lia.
Qed.

Lemma take_take_app {A : Type} n (a b : list A) :
  take n (take n a ++ b) = take n (a ++ b).
Proof.
  destruct (Nat.le_gt_cases (length a) n) as [H|H].
  - rewrite (take_ge a n) by exact H. reflexivity.
  - rewrite (take_app_le (take n a)) by (rewrite length_take; lia).
    rewrite take_take, Nat.min_id. rewrite take_app_le by lia. reflexivity.
Qed.

Lemma foldl_step_samples t l : forall acc l0,
  samples t (snd acc) = Some l0 ->
  length l0 <= 5 ->
  samples t (snd (foldl step acc l))
  = Some (take 5 (l0 ++ map sample_line (List.filter (has_tag t) l))).
Proof.
  induction l as [|r l IH]; intros acc l0 H0 Hl.
  - simpl. rewrite app_nil_r, take_ge by exact Hl. exact H0.
  - cbn [foldl List.filter].
    pose proof (step_samples t acc r l0 H0) as Hs.
    destruct (has_tag t r).
    + destruct (length l0 <? 5)%nat eqn:E.
      * apply Nat.ltb_lt in E. rewrite (IH _ _ Hs).
        -- cbn [map]. rewrite <- app_assoc. reflexivity.
        -- rewrite length_app. simpl. lia.
      * apply Nat.ltb_ge in E. rewrite (IH _ _ Hs Hl).
        f_equal. rewrite !take_app_le by lia. reflexivity.
    + apply (IH _ _ Hs Hl).
Qed.

(** Of MISSING, SAME and PUNCTUATION a record has at most one. *)
Lemma dest_tags_exclusive r :
  (if has_tag MISSING r then 1 else 0) + (if has_tag SAME r then 1 else 0)
  + (if has_tag PUNCTUATION r then 1 else 0)
  <= (if flagged r then 1 else 0).
Proof.
  unfold has_tag, flagged.
  destruct (DialogStrings.source r) as [[|c s]|]; try lia.
  destruct (getAnomalyTypes_split (c :: s) (DialogStrings.dest r))
    as (a & b & d & -> & Ha & Hb & Hd).
  destruct Ha as [-> | [-> | [-> | ->]]], Hb as [-> | ->], Hd as [-> | ->];
    vm_compute; lia.
Qed.

(** X2: the counters the scan prints: [total] is the size of the table;
    the counter of a tag is the number of records with a non-empty source
    whose tags hold it; [anomalies] is the number of such records with at
    least one tag, so it is at most [total], no counter exceeds it, and
    the counters of MISSING, SAME and PUNCTUATION together do not either. *)
Theorem scan_counters (allStrings : list DialogStrings.row) :
  let s := fst (main allStrings) in
  total s = length allStrings
  /\ (forall t, count t s = length (List.filter (has_tag t) allStrings))
  /\ anomalies s = length (List.filter flagged allStrings)
  /\ anomalies s <= total s
  /\ (forall t, count t s <= anomalies s)
  /\ count MISSING s + count SAME s + count PUNCTUATION s <= anomalies s.
Proof.
  cbv zeta. unfold main.
  set (init := (mkStats 0 0 0 0 0 (length allStrings) 0, mkDetails [] [] [])).
  destruct (foldl_step_totals allStrings init) as [Htot Han].
  assert (Hcount : forall t,
    count t (fst (foldl step init allStrings))
    = length (List.filter (has_tag t) allStrings)).
  { intros t. rewrite foldl_step_count. destruct t; reflexivity. }
  rewrite Htot, Han. cbn [init fst total anomalies]. rewrite Nat.add_0_l.
  split; [reflexivity|]. split; [exact Hcount|]. split; [reflexivity|].
  split; [apply List.filter_length_le|]. split.
  - intros t. rewrite Hcount. clear. induction allStrings as [|r l IH];
      [simpl; lia|]. cbn [List.filter].
    pose proof (has_tag_flagged t r) as H.
    destruct (has_tag t r), (flagged r); simpl; try lia;
      discriminate (H eq_refl).
  - rewrite !Hcount. clear. induction allStrings as [|r l IH];
      [simpl; lia|]. cbn [List.filter].
    pose proof (dest_tags_exclusive r) as H.
    destruct (has_tag MISSING r), (has_tag SAME r), (has_tag PUNCTUATION r),
      (flagged r); simpl in *; lia.
Qed.

(** X3: the samples the scan prints for DLC, TECHNICAL and PUNCTUATION are
    the lines of the first five records with that tag, in the order of the
    table; for MISSING and SAME it keeps none. *)
Theorem scan_samples (allStrings : list DialogStrings.row)
    (t : AnomalyType) :
  samples t (snd (main allStrings))
  = match t with
    | MISSING | SAME => None
    | _ => Some (take 5 (map sample_line
                          (List.filter (has_tag t) allStrings)))
    end.
Proof.
  unfold main.
  set (init := (mkStats 0 0 0 0 0 (length allStrings) 0, mkDetails [] [] [])).
  destruct t; try reflexivity;
    try (rewrite (foldl_step_samples _ allStrings init []);
         [reflexivity|reflexivity|simpl; lia]).
Qed.

End ScanProps.

(** ** Escaping, sorting and masking *)

Section MaskExtras.
Import MaskStrings Spec MaskProps Examples.

Lemma matches_lit_then_exact t k : forall p s,
  matches false (lit_then t k) (p, s) =
  if startsWith t s
  then matches false k (prev_after p t, drop (length t) s)
  else [].
Proof.
  induction t as [|c t IH]; intros p s.
  - simpl. rewrite drop_0. reflexivity.
  - cbn [lit_then matches snd startsWith]. destruct s as [|x s]; [reflexivity|].
    cbn [atom_ok]. destruct (Ascii.eqb c x) eqn:E; [|reflexivity].
    apply Ascii.eqb_eq in E. subst x.
    cbn [flat_map andb]. rewrite app_nil_r, IH. reflexivity.
Qed.

(** X4: [escapeRegExp] keeps the literal meaning of a term: the escaped
    term is a pattern source, the pattern is the sequence of the term's
    characters, and without flags it matches at a position exactly when
    the text there starts with the term, reading the term and no more. *)
Theorem escapeRegExp_literal (t : jsstring) :
  compile (escapeRegExp t) = Some (lit_then t REmpty)
  /\ forall p s,
       matches false (lit_then t REmpty) (p, s)
       = if startsWith t s
         then [(prev_after p t, drop (length t) s)]
         else [].
Proof.
  split.
  - unfold compile.
    pose proof (parse_escapeRegExp t [] REmpty [] eq_refl) as H.
    rewrite app_nil_r in H. rewrite H. reflexivity.
  - intros p s. rewrite matches_lit_then_exact. reflexivity.
Qed.

Lemma of_length_insert_desc n x l :
  of_length n (insert_desc x l)
  = if (length (term x) =? n)%nat then x :: of_length n l else of_length n l.
Proof.
  unfold of_length. induction l as [|y l IH]; [reflexivity|].
  cbn [insert_desc]. destruct (length (term x) <? length (term y))%nat eqn:E.
  - cbn [List.filter]. rewrite IH. apply Nat.ltb_lt in E.
    destruct (length (term x) =? n)%nat eqn:Ex; [|reflexivity].
    apply Nat.eqb_eq in Ex.
    destruct (length (term y) =? n)%nat eqn:Ey; [|reflexivity].
    apply Nat.eqb_eq in Ey. lia.
  - reflexivity.
Qed.

(** X5: [sortedTerms] is the glossary in descending order of term length,
    and the sort is stable: the same entries, none longer than one before
    it, and the terms of any one length in the order of the glossary. *)
Theorem sortedTerms_stable (g : list Glossary.row) :
  Permutation (sortedTerms g) (map to_entry g)
  /\ StronglySorted not_longer (sortedTerms g)
  /\ forall n, of_length n (sortedTerms g) = of_length n (map to_entry g).
Proof.
  unfold sortedTerms. split; [apply sort_desc_perm|].
  split; [apply sort_desc_sorted|]. intros n.
  induction (map to_entry g) as [|x l IH]; [reflexivity|].
  cbn [sort_desc foldr]. rewrite of_length_insert_desc.
  fold (sort_desc l). rewrite IH. reflexivity.
Qed.



End MaskExtras.

(** ** Runs of the masking script *)

Section RunExtras.
Import MaskStrings Spec Examples RunExamples.

Lemma maskRecord_falsy m r :
  truthy (DialogStrings.source r) = false -> maskRecord m r = r.
Proof.
  unfold maskRecord, processRecord.
  destruct (DialogStrings.source r) as [[|c s]|]; try reflexivity.
  discriminate.
Qed.

Lemma maskRecord_id_source m r :
  DialogStrings.id (maskRecord m r) = DialogStrings.id r
  /\ DialogStrings.source (maskRecord m r) = DialogStrings.source r.
Proof.
  unfold maskRecord. destruct (processRecord m r); split; reflexivity.
Qed.

(** After a turn of the loop the auto-fill has nothing left to do. *)
Lemma maskRecord_dest m r src :
  DialogStrings.source r = Some src -> src <> [] ->
  toLowerCase src ∈ m_termSet m ->
  DialogStrings.dest (maskRecord m r) = Some src.
Proof.
  intros Hs Hne Hin. unfold maskRecord, processRecord. rewrite Hs.
  destruct src as [|c s]; [congruence|].
  rewrite (bool_decide_eq_true_2 _ Hin).
  case_bool_decide as Hd; cbn [negb andb orb].
  - destruct (negb _); [exact Hd|exact Hd].
  - reflexivity.
Qed.

(** X8: a run never changes a row whose source is null or empty, whatever
    the glossary. *)
Theorem main_skips_empty_source (g : list Glossary.row)
    (table : list DialogStrings.row) (i : nat) (r : DialogStrings.row) :
  NoDup (map DialogStrings.id table) ->
  table !! i = Some r ->
  truthy (DialogStrings.source r) = false ->
  main g table !! i = Some r.
Proof.
  intros Hnd Hr Ht. destruct g as [|t g]; [exact Hr|].
  assert (Hg : t :: g <> []) by discriminate.
  rewrite (main_map _ _ table Hnd (build_nonempty _ Hg)).
  change (map ?f ?l) with (f <$> l). rewrite list_lookup_fmap, Hr.
  cbn. f_equal. apply maskRecord_falsy, Ht.
Qed.

(** X8 at the second of two rows, whose source is the empty string. *)
Lemma main_skips_empty_source_witness :
  main whiterun empty_source_rows !! 1 = empty_source_rows !! 1.
Proof.
  apply (main_skips_empty_source whiterun empty_source_rows 1).
  - change (NoDup [1%Z; 2%Z]). apply NoDup_cons_2; [|apply NoDup_singleton].
    intros H. apply list_elem_of_singleton in H. discriminate H.
  - reflexivity.
  - reflexivity.
Defined.

End RunExtras.

(** ** Loading the glossary *)

Section LoadExtras.
Import MaskLoad Spec.

Lemma uniqueTerms_from {C} (raw : list (jsstring * C)) : forall m,
  let step := fun (m : list (jsstring * C)) t =>
                if existsb (fun p => bool_decide (fst p = fst t)) m
                then m else m ++ [t] in
  NoDup (map fst m) ->
  NoDup (map fst (foldl step m raw))
  /\ forall t c,
       In (t, c) (foldl step m raw) <->
       In (t, c) m
       \/ (~ In t (map fst m)
           /\ find (fun p => bool_decide (fst p = t)) raw = Some (t, c)).
Proof.
  cbv zeta. induction raw as [|[t0 c0] raw IH]; intros m Hnd.
  - cbn [foldl find]. split; [exact Hnd|]. intros t c. split; [auto|].
    intros [H|[_ H]]; [exact H|discriminate].
  - cbn [foldl fst].
    destruct (existsb (fun p => bool_decide (fst p = t0)) m) eqn:E.
    + destruct (IH m Hnd) as [IH1 IH2]. split; [exact IH1|].
      intros t c. rewrite IH2. cbn [find fst].
      apply existsb_exists in E. destruct E as ([t1 c1] & Hin1 & Ht1).
      apply bool_decide_eq_true in Ht1. cbn [fst] in Ht1. subst t1.
      split; (intros [H|[Hn H]]; [left; exact H|right]).
      * split; [exact Hn|]. case_bool_decide as Ht; [|exact H].
        exfalso. apply Hn. subst t. apply in_map_iff. exists (t0, c1). auto.
      * split; [exact Hn|]. case_bool_decide as Ht; [|exact H].
        exfalso. apply Hn. subst t. apply in_map_iff. exists (t0, c1). auto.
    + assert (Hnot : ~ In t0 (map fst m)).
      { intros H. apply in_map_iff in H. destruct H as ([t1 c1] & Ht1 & Hin1).
        cbn [fst] in Ht1. subst t1.
        assert (Ex : existsb (fun p => bool_decide (fst p = t0)) m = true).
        { apply existsb_exists. exists (t0, c1). split; [exact Hin1|].
          apply bool_decide_eq_true. reflexivity. }
        congruence. }
      assert (Hnd' : NoDup (map fst (m ++ [(t0, c0)]))).
      { rewrite map_app. apply NoDup_app. split; [exact Hnd|]. split.
        - intros x Hx Hx'. apply list_elem_of_singleton in Hx'. subst x.
          apply Hnot, list_elem_of_In, Hx.
        - apply NoDup_singleton. }
      destruct (IH _ Hnd') as [IH1 IH2]. split; [exact IH1|].
      intros t c. rewrite IH2. rewrite map_app, !in_app_iff. cbn [find fst map In].
      split.
      * intros [[H|[[= <- <-]|[]]]|[Hn H]].
        -- left. exact H.
        -- right. split; [exact Hnot|].
           rewrite bool_decide_eq_true_2 by reflexivity. reflexivity.
        -- right. split; [intros Hm; apply Hn; left; exact Hm|].
           case_bool_decide as Ht; [|exact H].
           exfalso. apply Hn. right. left. exact Ht.
      * intros [H|[Hn H]]; [left; left; exact H|].
        case_bool_decide as Ht.
        -- injection H as <- <-. left. right. left. reflexivity.
        -- right. split; [|exact H]. intros [Hm|[He|[]]]; [exact (Hn Hm)|].
           exact (Ht He).
Qed.

(** X9: [uniqueTerms] keeps every raw term once, with the category of its
    first occurrence: its terms are pairwise distinct, and a pair is in it
    exactly when it is the first pair of [rawTerms] with that term. *)
Theorem uniqueTerms_first_wins {C} (raw : list (jsstring * C)) :
  NoDup (map fst (uniqueTerms raw))
  /\ forall t c,
       In (t, c) (uniqueTerms raw) <->
       find (fun p => bool_decide (fst p = t)) raw = Some (t, c).
Proof.
  destruct (uniqueTerms_from raw [] NoDup_nil_2) as [H1 H2].
  split; [exact H1|]. intros t c. unfold uniqueTerms. rewrite H2.
  split.
  - intros [[]|[_ H]]. exact H.
  - intros H. right. split; [intros []|exact H].
Qed.

Lemma batches_spec {A} (rows : list A) : forall cb,
  length cb < 500 ->
  let bs := batches rows cb in
  concat bs = cb ++ rows
  /\ (forall b, In b bs -> 0 < length b <= 500)
  /\ (forall i b, bs !! i = Some b -> S i < length bs -> length b = 500).
Proof.
  cbv zeta. induction rows as [|r rows IH]; intros cb Hcb.
  - cbn [batches]. destruct (0 <? length cb)%nat eqn:E.
    + apply Nat.ltb_lt in E. cbn [concat]. rewrite !app_nil_r.
      split; [reflexivity|]. split.
      * intros b [<-|[]]. lia.
      * intros i b Hb Hi. simpl in Hi. lia.
    + apply Nat.ltb_ge in E. destruct cb; [|simpl in E; lia].
      split; [reflexivity|]. split; [intros b []|].
      intros i b Hb. discriminate Hb.
  - cbn [batches]. destruct (500 <=? length (cb ++ [r]))%nat eqn:E.
    + apply Nat.leb_le in E. rewrite length_app in E. simpl in E.
      destruct (IH [] ltac:(simpl; lia)) as (H1 & H2 & H3).
      cbn [concat]. rewrite H1. cbn [app]. rewrite <- app_assoc.
      split; [reflexivity|]. split.
      * intros b [<-|Hb]; [rewrite length_app; simpl; lia|apply H2, Hb].
      * intros [|i] b Hb Hi.
        -- injection Hb as <-. rewrite length_app. simpl. lia.
        -- apply (H3 i b Hb). simpl in Hi. lia.
    + apply Nat.leb_gt in E.
      destruct (IH (cb ++ [r]) E) as (H1 & H2 & H3).
      rewrite H1, <- app_assoc. auto.
Qed.

Lemma batches_concat {A} (rows : list A) :
  concat (batches rows []) = rows.
Proof. apply (batches_spec rows []). simpl. lia. Qed.

(** X10: the rows go to the table in batches that lose, repeat and
    reorder nothing: the batches put end to end are the rows; no batch is
    empty or has more than 500 rows; every batch but the last has exactly
    500. *)
Theorem batches_partition {A} (rows : list A) :
  concat (batches rows []) = rows
  /\ (forall b, In b (batches rows []) -> 0 < length b <= 500)
  /\ (forall i b, batches rows [] !! i = Some b ->
                  S i < length (batches rows []) -> length b = 500).
Proof. apply (batches_spec rows []). simpl. lia. Qed.

Lemma to_rows_app (a b : list value) :
  to_rows (a ++ b)
  = match to_rows a, to_rows b with
    | Some x, Some y => Some (x ++ y)
    | _, _ => None
    end.
Proof.
  induction a as [|v a IH]; cbn [app to_rows].
  - destruct (to_rows b); reflexivity.
  - rewrite IH. destruct (to_row v), (to_rows a), (to_rows b); reflexivity.
Qed.

Lemma foldl_insert_glossary bs : forall t,
  foldl (fun table b =>
           match table with
           | Some t => insert_glossary t b
           | None => None
           end) (Some t) bs
  = if bool_decide (bs = [])
    then Some t
    else match to_rows (concat bs) with
         | Some rows =>
             if bool_decide (NoDup (map Glossary.id (t ++ rows)))
                && bool_decide (NoDup (map Glossary.term (t ++ rows)))
             then Some (t ++ rows)
             else None
         | None => None
         end.
Proof.
  assert (Hnone : forall l : list (list value),
            foldl (fun table b =>
                     match table with
                     | Some t => insert_glossary t b
                     | None => None
                     end) None l = None).
  { induction l as [|b l IHl]; [reflexivity|exact IHl]. }
  induction bs as [|b bs IH]; intros t; [reflexivity|].
  cbn [foldl concat].
  rewrite (bool_decide_eq_false_2 (b :: bs = [])) by discriminate.
  rewrite to_rows_app. unfold insert_glossary.
  destruct (to_rows b) as [rb|]; [|apply Hnone].
  destruct (bool_decide (NoDup (map Glossary.id (t ++ rb)))
            && bool_decide (NoDup (map Glossary.term (t ++ rb)))) eqn:E.
  - rewrite IH. destruct (decide (bs = [])) as [->|Hbs].
    + rewrite (bool_decide_eq_true_2 ([] = [])) by reflexivity.
      cbn [concat to_rows]. rewrite !app_nil_r, E. reflexivity.
    + rewrite (bool_decide_eq_false_2 (bs = [])) by exact Hbs.
      destruct (to_rows (concat bs)) as [rest|]; [|reflexivity].
      rewrite <- !app_assoc. reflexivity.
  - rewrite Hnone. destruct (to_rows (concat bs)) as [rest|]; [|reflexivity].
    assert (E' : bool_decide (NoDup (map Glossary.id (t ++ rb ++ rest)))
                 && bool_decide
                      (NoDup (map Glossary.term (t ++ rb ++ rest)))
                 = false).
    { apply andb_false_iff.
      apply andb_false_iff in E. destruct E as [E|E]; [left|right];
        apply bool_decide_eq_false in E; apply bool_decide_eq_false;
        intros H; apply E; rewrite app_assoc, map_app in H;
        apply NoDup_app in H; apply H. }
    rewrite E'. reflexivity.
Qed.

Lemma category_of_letters subdir cat :
  category_of subdir = Cat cat ->
  cat <> [] /\ forallb is_letter cat = true.
Proof.
  unfold category_of. case_bool_decide; [discriminate|].
  destruct (find _ categoryMap) as [[k c]|] eqn:E.
  - apply find_some in E. destruct E as [Hin _].
    assert (Hc : c <> [] /\ forallb is_letter c = true).
    { repeat (destruct Hin as [[= <- <-]|Hin];
              [split; [discriminate|reflexivity]|]).
      destruct Hin. }
    destruct c as [|a c]; [destruct Hc; congruence|].
    intros [= <-]. exact Hc.
  - intros [= <-]. split; [discriminate|reflexivity].
Qed.

Lemma rawTerms_rows dirs t cv :
  In (t, cv) (rawTerms dirs) ->
  t <> []
  /\ forall c, cv = Cat c -> c <> [] /\ forallb is_letter c = true.
Proof.
  unfold rawTerms. intros Hin. apply in_flat_map in Hin.
  destruct Hin as ([subdir items] & _ & Hin). cbn [fst snd] in Hin.
  unfold load_items in Hin. apply in_flat_map in Hin.
  destruct Hin as (item & _ & Hx).
  destruct item as [[|a x]|]; cbn in Hx; try contradiction.
  destruct Hx as [Hx|[]]. injection Hx as <- <-. split; [discriminate|].
  intros c Hc. apply (category_of_letters subdir), Hc.
Qed.

(** The rows of the values, one by one. *)
Lemma to_rows_lookup vs : forall rows,
  to_rows vs = Some rows ->
  length rows = length vs
  /\ forall i r, rows !! i = Some r ->
       exists v c, vs !! i = Some v /\ v_category v = Cat c
                   /\ r = Glossary.mk (v_id v) (v_term v) (Some c).
Proof.
  induction vs as [|v vs IH]; intros rows H; cbn [to_rows] in H.
  - injection H as <-. split; [reflexivity|]. intros i r Hr. discriminate Hr.
  - unfold to_row in H. destruct (v_category v) as [c|] eqn:Ec; [|discriminate].
    destruct (to_rows vs) as [rs|]; [|discriminate]. injection H as <-.
    destruct (IH rs eq_refl) as [Hl Hi]. split; [simpl; lia|].
    intros [|i] r Hr.
    + injection Hr as <-. exists v, c. auto.
    + apply (Hi i r Hr).
Qed.

Lemma to_rows_terms vs rows :
  to_rows vs = Some rows ->
  map Glossary.term rows = map v_term vs
  /\ map Glossary.id rows = map v_id vs.
Proof.
  revert rows. induction vs as [|v vs IH]; intros rows H; cbn [to_rows] in H.
  - injection H as <-. split; reflexivity.
  - unfold to_row in H. destruct (v_category v) as [c|]; [|discriminate].
    destruct (to_rows vs) as [rs|]; [|discriminate]. injection H as <-.
    destruct (IH rs eq_refl) as [H1 H2]. cbn [map Glossary.term Glossary.id].
    rewrite H1, H2. split; reflexivity.
Qed.

Lemma new_values_term ids unique :
  map v_term (new_values ids unique) = map fst unique.
Proof.
  unfold new_values. change (map ?f ?l) with (f <$> l).
  rewrite fmap_imap. apply (imap_const fst).
Qed.

Lemma populate_spec (ids : nat -> jsstring)
    (dirs : list (jsstring * list (option jsstring))) :
  let unique := uniqueTerms (rawTerms dirs) in
  (forall table,
     populate ids dirs = Some table ->
     to_rows (new_values ids unique) = Some table
     /\ map Glossary.term table = map fst unique
     /\ NoDup (map Glossary.id table)
     /\ NoDup (map Glossary.term table)
     /\ (forall i r, table !! i = Some r ->
           Glossary.id r = ids i
           /\ exists c, unique !! i = Some (Glossary.term r, Cat c)
                        /\ Glossary.category r = Some c)
     /\ forall r, In r table ->
          Glossary.term r <> []
          /\ exists c, Glossary.category r = Some c /\ c <> []
                       /\ forallb is_letter c = true)
  /\ (forall table,
        to_rows (new_values ids unique) = Some table ->
        NoDup (map Glossary.id table) ->
        populate ids dirs = Some table).
Proof.
  cbv zeta. unfold populate.
  assert (Hterms : forall table,
            to_rows (new_values ids (uniqueTerms (rawTerms dirs)))
            = Some table ->
            map Glossary.term table
            = map fst (uniqueTerms (rawTerms dirs))).
  { intros table H. rewrite (proj1 (to_rows_terms _ _ H)).
    apply new_values_term. }
  assert (Hnd : NoDup (map fst (uniqueTerms (rawTerms dirs))))
    by (apply uniqueTerms_from, NoDup_nil_2).
  split.
  - intros table H. rewrite foldl_insert_glossary in H. cbn [app] in H.
    rewrite batches_concat in H.
    assert (Htab : to_rows (new_values ids (uniqueTerms (rawTerms dirs)))
                   = Some table
                   /\ NoDup (map Glossary.id table)).
    { case_bool_decide as Hb.
      - injection H as <-.
        pose proof (batches_concat
                      (new_values ids (uniqueTerms (rawTerms dirs)))) as Hc.
        rewrite Hb in Hc. cbn [concat] in Hc. rewrite <- Hc.
        split; [reflexivity|apply NoDup_nil_2].
      - destruct (to_rows _) as [rows|]; [|discriminate].
        destruct (bool_decide (NoDup (map Glossary.id rows))) eqn:Eid;
          cbn [andb] in H; [|discriminate].
        apply bool_decide_eq_true in Eid.
        destruct (bool_decide (NoDup (map Glossary.term rows)));
          [|discriminate].
        injection H as <-. auto. }
    destruct Htab as [Hrows Hid]. split; [exact Hrows|].
    split; [apply Hterms, Hrows|]. split; [exact Hid|].
    split; [rewrite (Hterms _ Hrows); exact Hnd|].
    assert (Hrow : forall i r, table !! i = Some r ->
              Glossary.id r = ids i
              /\ exists c,
                   uniqueTerms (rawTerms dirs) !! i
                   = Some (Glossary.term r, Cat c)
                   /\ Glossary.category r = Some c).
    { intros i r Hr.
      destruct (proj2 (to_rows_lookup _ _ Hrows) i r Hr)
        as (v & c & Hv & Hc & ->).
      unfold new_values in Hv. rewrite list_lookup_imap in Hv.
      destruct (uniqueTerms (rawTerms dirs) !! i) as [[t cv]|] eqn:Eu;
        [|discriminate].
      injection Hv as <-. cbn [v_category snd] in Hc. subst cv.
      cbn [Glossary.id Glossary.term Glossary.category v_id v_term fst].
      split; [reflexivity|]. exists c. auto. }
    split; [exact Hrow|]. intros r Hr.
    apply list_elem_of_In, list_elem_of_lookup in Hr. destruct Hr as (i & Hi).
    destruct (Hrow i r Hi) as (_ & c & Hu & Hc).
    assert (Hin : In (Glossary.term r, Cat c) (rawTerms dirs)).
    { assert (Hu' : In (Glossary.term r, Cat c) (uniqueTerms (rawTerms dirs))).
      { apply list_elem_of_In, list_elem_of_lookup. eauto. }
      apply (proj2 (uniqueTerms_from (rawTerms dirs) [] NoDup_nil_2)) in Hu'.
      destruct Hu' as [[]|[_ Hf]]. apply find_some in Hf. apply Hf. }
    destruct (rawTerms_rows dirs _ _ Hin) as (Ht & Hcat).
    split; [exact Ht|]. exists c. split; [exact Hc|]. apply Hcat. reflexivity.
  - intros table Hrows Hid. rewrite foldl_insert_glossary. cbn [app].
    rewrite batches_concat.
    case_bool_decide as Hb.
    + pose proof (batches_concat
                    (new_values ids (uniqueTerms (rawTerms dirs)))) as Hc.
      rewrite Hb in Hc. cbn [concat] in Hc. rewrite <- Hc in Hrows.
      cbn [to_rows] in Hrows. exact Hrows.
    + rewrite Hrows. rewrite (bool_decide_eq_true_2 _ Hid).
      rewrite bool_decide_eq_true_2; [reflexivity|].
      rewrite (Hterms _ Hrows). exact Hnd.
Qed.

(** X11: the glossary the script builds.  The script gets through steps 1
    and 2 exactly when every distinct term has a string as category (a
    subdirectory named like a property every object inherits gives none,
    which matters only when one of its terms is new) and the ids drawn are
    pairwise distinct.  The table then holds one row for each distinct
    non-empty raw term, in the order of first appearance, with the category
    of the first appearance and the id drawn for it; the terms are
    non-empty and pairwise distinct, the ids pairwise distinct, and every
    category is a non-empty word of letters. *)
Theorem populate_table (ids : nat -> jsstring)
    (dirs : list (jsstring * list (option jsstring))) :
  let unique := uniqueTerms (rawTerms dirs) in
  (forall table,
     populate ids dirs = Some table ->
     to_rows (new_values ids unique) = Some table
     /\ map Glossary.term table = map fst unique
     /\ NoDup (map Glossary.id table)
     /\ NoDup (map Glossary.term table)
     /\ (forall i r, table !! i = Some r ->
           Glossary.id r = ids i
           /\ exists c, unique !! i = Some (Glossary.term r, Cat c)
                        /\ Glossary.category r = Some c)
     /\ forall r, In r table ->
          Glossary.term r <> []
          /\ exists c, Glossary.category r = Some c /\ c <> []
                       /\ forallb is_letter c = true)
  /\ (forall table,
        to_rows (new_values ids unique) = Some table ->
        NoDup (map Glossary.id table) ->
        populate ids dirs = Some table).
Proof. exact (populate_spec ids dirs). Qed.

(** X18: loading, masking and unmasking together.  When the loading step
    succeeds with ids that are non-empty words of lower-case letters and
    digits, its table is a glossary for which unmasking undoes masking:
    for every text with no opening bracket in which the whole-word
    occurrences of the terms are spelled as in the glossary, unmasking the
    masked text with the cache of the table gives the text back. *)
Theorem populate_round_trip (ids : nat -> jsstring)
    (dirs : list (jsstring * list (option jsstring)))
    (table : list Glossary.row) (text : jsstring) :
  populate ids dirs = Some table ->
  (forall r, In r table ->
     Glossary.id r <> [] /\ forallb is_id_char (Glossary.id r) = true) ->
  ~ In "[" text ->
  glossary_casing table text ->
  Translate.unmaskText (MaskStrings.maskText table text)
    (Translate.loadGlossaryCache table) = text.
Proof.
  intros Hp Hids Hbr Hcase.
  destruct (proj1 (populate_spec ids dirs) table Hp)
    as (_ & _ & Hnd & _ & _ & Hrows).
  assert (Hwf : wf_glossary table).
  { split; [exact Hnd|]. intros r Hr.
    destruct (Hrows r Hr) as [Ht Hc]. destruct (Hids r Hr) as [Hi Hic].
    repeat split; assumption. }
  destruct table as [|t g].
  - rewrite maskText_nil.
    rewrite <- (app_nil_r text) at 1.
    rewrite unmaskText_no_bracket by exact Hbr.
    rewrite unmaskText_nil. apply app_nil_r.
  - assert (Hg : t :: g <> []) by discriminate.
    rewrite maskText_nonempty by exact Hg.
    apply round_trip_from; assumption.
Qed.

(** X18 at a glossary of one term, loaded beside a subdirectory named
    constructor that holds no item, and the text of the end-to-end
    example. *)
Lemma populate_round_trip_witness :
  Translate.unmaskText
    (MaskStrings.maskText
       [Glossary.mk (str "a") (str "Whiterun") (Some (str "Location"))]
       (str "Welcome to Whiterun, traveler."))
    (Translate.loadGlossaryCache
       [Glossary.mk (str "a") (str "Whiterun") (Some (str "Location"))])
  = str "Welcome to Whiterun, traveler.".
Proof.
  apply (populate_round_trip LoadExamples.ids LoadExamples.dirs).
  - vm_compute. reflexivity.
  - intros r [<-|[]]. split; [discriminate|reflexivity].
  - intros H. vm_compute in H.
    repeat (destruct H as [H|H]; [discriminate H|]). exact H.
  - apply casing_from_check. vm_compute. reflexivity.
Defined.

(** X7: one whole run of the masking script on strings with distinct ids,
    when the glossary it builds is not empty.  A row with a non-empty
    source ends with the mask of its source under the glossary just built
    as [maskedSource], with one exception: a row that already held exactly
    this mask and whose [dest] the run fills with the source (the source
    is, up to case, a term and [dest] differs from it) gets the unmasked
    source written into [maskedSource]. *)
Theorem script_masks_rows (ids : nat -> jsstring)
    (dirs : list (jsstring * list (option jsstring)))
    (allStrings after : list DialogStrings.row) (g : list Glossary.row)
    (i : nat) (r : DialogStrings.row) (s : jsstring) :
  NoDup (map DialogStrings.id allStrings) ->
  script ids dirs allStrings = Some (g, after) ->
  g <> [] ->
  allStrings !! i = Some r ->
  DialogStrings.source r = Some s -> s <> [] ->
  exists r',
    after !! i = Some r'
    /\ DialogStrings.id r' = DialogStrings.id r
    /\ DialogStrings.source r' = Some s
    /\ (DialogStrings.maskedSource r = Some (MaskStrings.maskText g s) ->
        autofill_applies g r -> DialogStrings.dest r <> Some s ->
        DialogStrings.maskedSource r' = Some s
        /\ DialogStrings.dest r' = Some s)
    /\ (~ (DialogStrings.maskedSource r = Some (MaskStrings.maskText g s)
           /\ autofill_applies g r /\ DialogStrings.dest r <> Some s) ->
        DialogStrings.maskedSource r' = Some (MaskStrings.maskText g s)).
Proof.
  intros Hnd Hscript Hg Hr Hs Hne. unfold script in Hscript.
  destruct (populate ids dirs) as [g0|]; [|discriminate].
  injection Hscript as <- <-.
  set (m := matcher_of (MaskStrings.sortedTerms g0)).
  rewrite (main_map g0 m allStrings Hnd (build_nonempty g0 Hg)).
  exists (maskRecord m r). split.
  { change (map ?f ?l) with (f <$> l). rewrite list_lookup_fmap, Hr.
    reflexivity. }
  split; [apply (proj1 (maskRecord_id_source m r))|].
  split; [rewrite (proj2 (maskRecord_id_source m r)); exact Hs|].
  assert (Hmask : MaskStrings.maskText g0 s = MaskStrings.mask m s).
  { rewrite maskText_nonempty by exact Hg. reflexivity. }
  assert (Hauto : toLowerCase s ∈ MaskStrings.m_termSet m <->
                  autofill_applies g0 r).
  { unfold m. cbn [MaskStrings.m_termSet matcher_of].
    rewrite elem_of_termSet. split.
    - intros (e & He & Hlow). apply in_sortedTerms in He.
      destruct He as (t & Ht & ->). exists s, t. auto.
    - intros (s' & t & Hs' & _ & Ht & Hlow). rewrite Hs in Hs'.
      injection Hs' as <-. exists (MaskStrings.to_entry t).
      split; [|exact Hlow]. apply in_sortedTerms. exists t. auto. }
  rewrite Hmask. unfold maskRecord, MaskStrings.processRecord. rewrite Hs.
  destruct s as [|c s]; [congruence|].
  destruct (decide (toLowerCase (c :: s) ∈ MaskStrings.m_termSet m))
    as [Hin|Hin];
    destruct (decide (DialogStrings.dest r = Some (c :: s))) as [Hd|Hd];
    destruct (decide (Some (MaskStrings.mask m (c :: s))
                      = DialogStrings.maskedSource r)) as [Hm|Hm];
    rewrite ?(bool_decide_eq_true_2 _ Hin), ?(bool_decide_eq_false_2 _ Hin),
      ?(bool_decide_eq_true_2 _ Hd), ?(bool_decide_eq_false_2 _ Hd),
      ?(bool_decide_eq_true_2 _ Hm), ?(bool_decide_eq_false_2 _ Hm);
    cbn [negb andb orb MaskStrings.set_fields DialogStrings.maskedSource
         DialogStrings.dest MaskStrings.u_maskedSource MaskStrings.u_dest];
    (split; [intros H1 H2 H3|intros Hnot]);
    try (split; reflexivity); try reflexivity; try congruence;
    try (symmetry; exact Hm);
    try (exfalso; apply Hin, Hauto, H2);
    try (exfalso; apply Hnot; split; [symmetry; exact Hm|];
         split; [apply Hauto, Hin|exact Hd]).
Qed.

(** X7 at the sentence of the example, with the glossary loaded from one
    subdirectory. *)
Lemma script_masks_rows_witness :
  exists r',
    MaskStrings.main
      [Glossary.mk (str "a") (str "Whiterun") (Some (str "Location"))]
      Examples.two_rows !! 1 = Some r'
    /\ DialogStrings.maskedSource r' = Some (str "Welcome to [Location_a], traveler.").
Proof.
  destruct (script_masks_rows LoadExamples.ids LoadExamples.dirs
              Examples.two_rows
              (MaskStrings.main
                 [Glossary.mk (str "a") (str "Whiterun")
                    (Some (str "Location"))] Examples.two_rows)
              [Glossary.mk (str "a") (str "Whiterun") (Some (str "Location"))]
              1
              (DialogStrings.mk 2 1 (str "s2") (Some (str "0"))
                 (Some (str "Welcome to Whiterun, traveler.")) (Some []) None)
              (str "Welcome to Whiterun, traveler."))
    as (r' & H1 & _ & _ & _ & H2).
  - change (NoDup [1%Z; 2%Z]). apply NoDup_cons_2; [|apply NoDup_singleton].
    intros H. apply list_elem_of_singleton in H. discriminate H.
  - vm_compute. reflexivity.
  - discriminate.
  - reflexivity.
  - reflexivity.
  - discriminate.
  - exists r'. split; [exact H1|]. rewrite H2.
    + vm_compute. reflexivity.
    + intros (H & _). discriminate H.
Defined.

End LoadExtras.

(** ** The translation run *)

Section TranslateExtras.
Import Translate TranslateRun TranslateProps Spec.

Lemma attempt_once_Done parse text r result :
  attempt_once parse text r = Done result ->
  result = Text text
  \/ exists t, r = Replies t /\ t <> []
       /\ indexOf "{" t <> None /\ lastIndexOf "}" t <> None
       /\ ((exists v, parse (json_part t) = Field v /\ v <> []
                      /\ result = Text v)
           \/ (parse (json_part t) = NoString true /\ result = Value)).
Proof.
  unfold attempt_once, json_part. destruct r as [|[|c t]]; try discriminate.
  destruct (indexOf "{" (c :: t)) as [a|] eqn:Ea; [|intros [= <-]; auto].
  destruct (lastIndexOf "}" (c :: t)) as [b|] eqn:Eb; [|intros [= <-]; auto].
  destruct (parse _) as [|[|x v]|[|]] eqn:E; try discriminate;
    intros [= <-]; auto; right; exists (c :: t); rewrite Ea, Eb;
    (split; [reflexivity|]); (split; [discriminate|]);
    (split; [discriminate|]); (split; [discriminate|]).
  - left. exists (x :: v). repeat split; [exact E|discriminate].
  - right. split; [exact E|reflexivity].
Qed.

Lemma run_attempts_spec callModel parse text attempts : forall calls,
  let res := run_attempts callModel parse text attempts calls in
  calls <= snd res <= calls + length attempts
  /\ (attempts <> [] -> calls < snd res)
  /\ (fst res = Text text
      \/ exists a t, In a attempts /\ callModel a = Replies t
           /\ ((exists v, parse (json_part t) = Field v /\ v <> []
                          /\ fst res = Text v)
               \/ (parse (json_part t) = NoString true /\ fst res = Value))).
Proof.
  cbv zeta. induction attempts as [|a rest IH]; intros calls.
  - simpl. repeat split; try lia; auto. congruence.
  - cbn [run_attempts length].
    destruct (attempt_once parse text (callModel a)) as [result|] eqn:E.
    + cbn [fst snd]. repeat split; try lia.
      apply attempt_once_Done in E.
      destruct E as [->|(t & Hr & _ & _ & _ & H)]; [auto|].
      right. exists a, t. repeat split; auto. left. reflexivity.
    + destruct (a <? MAX_RETRIES)%nat.
      * destruct (IH (S calls)) as (H1 & H2 & H3). repeat split; try lia.
        destruct H3 as [H3|(a' & t & Ha & Hr & H)]; [auto|].
        right. exists a', t. repeat split; auto. right. exact Ha.
      * cbn [fst snd]. repeat split; try lia. auto.
Qed.

Lemma translateText_nonempty callModel parse text :
  text <> [] -> fst (translateText callModel parse text) <> Text [].
Proof.
  intros Ht. unfold translateText.
  destruct (run_attempts_spec callModel parse text (seq 1 MAX_RETRIES) 0)
    as (_ & _ & [H|(a & t & _ & _ & [(v & _ & Hv & H)|[_ H]])]);
    rewrite H; congruence.
Qed.

(** X12: [translateText] calls the model at least once and at most three
    times.  It returns the text it was given, or what one of the replies
    holds in the [indonesian] field of its JSON part: a non-empty string,
    or a truthy value that is no string.  So for a non-empty text it never
    returns the empty string. *)
Theorem translateText_result (callModel : nat -> response)
    (parse : jsstring -> parsed) (text : jsstring) :
  let res := translateText callModel parse text in
  1 <= snd res <= 3
  /\ (fst res = Text text
      \/ exists a t, 1 <= a <= 3 /\ callModel a = Replies t
           /\ ((exists v, parse (json_part t) = Field v /\ v <> []
                          /\ fst res = Text v)
               \/ (parse (json_part t) = NoString true /\ fst res = Value)))
  /\ (text <> [] -> fst res <> Text []).
Proof.
  cbv zeta. split; [|split].
  - unfold translateText.
    destruct (run_attempts_spec callModel parse text (seq 1 MAX_RETRIES) 0)
      as (H1 & H2 & _).
    change (length (seq 1 MAX_RETRIES)) with 3 in H1.
    assert (H2' : 0 < snd (run_attempts callModel parse text
                             (seq 1 MAX_RETRIES) 0))
      by (apply H2; discriminate).
    lia.
  - unfold translateText.
    destruct (run_attempts_spec callModel parse text (seq 1 MAX_RETRIES) 0)
      as (_ & _ & [H3|(a & t & Ha & Hr & H)]); [auto|].
    right. exists a, t. repeat split; auto;
      apply in_seq in Ha; unfold MAX_RETRIES in Ha; lia.
  - apply translateText_nonempty.
Qed.

(** X13: what makes [translateText] call again and what does not.  A
    non-empty reply with no opening or no closing brace, or whose JSON part
    has a falsy [indonesian], ends it at once with the text it was given.
    An exception, an empty reply or a JSON part that does not parse leads
    to the next call, and at the third call to the text it was given.  A
    failed call followed by a good reply gives the translation in two
    calls. *)
Theorem translateText_retries (callModel : nat -> response)
    (parse : jsstring -> parsed) (text : jsstring) :
  (forall t, callModel 1 = Replies t -> t <> [] ->
     (indexOf "{" t = None \/ lastIndexOf "}" t = None
      \/ parse (json_part t) = Field []
      \/ parse (json_part t) = NoString false) ->
     translateText callModel parse text = (Text text, 1))
  /\ ((forall a, 1 <= a <= 3 ->
         callModel a = Throws \/ callModel a = Replies []
         \/ exists t, callModel a = Replies t /\ t <> []
                      /\ indexOf "{" t <> None /\ lastIndexOf "}" t <> None
                      /\ parse (json_part t) = ParseThrows) ->
      translateText callModel parse text = (Text text, 3))
  /\ (forall t v, callModel 1 = Throws -> callModel 2 = Replies t ->
        t <> [] -> indexOf "{" t <> None -> lastIndexOf "}" t <> None ->
        parse (json_part t) = Field v -> v <> [] ->
        translateText callModel parse text = (Text v, 2)).
Proof.
  assert (Hretry : forall a,
            (callModel a = Throws \/ callModel a = Replies []
             \/ exists t, callModel a = Replies t /\ t <> []
                          /\ indexOf "{" t <> None /\ lastIndexOf "}" t <> None
                          /\ parse (json_part t) = ParseThrows) ->
            attempt_once parse text (callModel a) = Retry).
  { intros a [-> | [-> | (t & -> & Hne & Hi & Hl & Hp)]]; try reflexivity.
    unfold attempt_once, json_part in *. destruct t as [|c t]; [congruence|].
    destruct (indexOf "{" (c :: t)); [|congruence].
    destruct (lastIndexOf "}" (c :: t)); [|congruence].
    rewrite Hp. reflexivity. }
  split; [|split].
  - intros t Hr Hne H. unfold translateText. cbn [seq MAX_RETRIES run_attempts].
    rewrite Hr. unfold attempt_once, json_part in *.
    destruct t as [|c t]; [congruence|].
    destruct (indexOf "{" (c :: t)) as [a|];
      [|reflexivity].
    destruct (lastIndexOf "}" (c :: t)) as [b|];
      [|reflexivity].
    destruct H as [H|[H|[H|H]]]; try discriminate; rewrite H; reflexivity.
  - intros H. unfold translateText. cbn [seq MAX_RETRIES run_attempts].
    rewrite !Hretry by (apply H; lia). reflexivity.
  - intros t v H1 H2 Hne Hi Hl Hp Hv. unfold translateText.
    cbn [seq MAX_RETRIES run_attempts]. rewrite H1. cbn [attempt_once].
    change (1 <? 3)%nat with true. cbv iota. rewrite H2.
    unfold attempt_once, json_part in *. destruct t as [|c t]; [congruence|].
    destruct (indexOf "{" (c :: t)); [|congruence].
    destruct (lastIndexOf "}" (c :: t)); [|congruence].
    rewrite Hp. destruct v; [congruence|reflexivity].
Qed.

Lemma records_of_group_add k key r gs :
  records_of k (group_add key r gs)
  = if bool_decide (k = key) then records_of key gs ++ [r]
    else records_of k gs.
Proof.
  induction gs as [|[k0 rs] gs IH]; cbn [group_add records_of].
  - destruct (decide (k = key)) as [->|Hk].
    + rewrite bool_decide_eq_true_2 by reflexivity. reflexivity.
    + rewrite (bool_decide_eq_false_2 (k = key)) by exact Hk.
      rewrite (bool_decide_eq_false_2 (key = k)) by congruence.
      reflexivity.
  - destruct (decide (k0 = key)) as [->|Hk0].
    + rewrite (bool_decide_eq_true_2 (key = key)) by reflexivity.
      cbn [records_of].
      destruct (decide (k = key)) as [->|Hk].
      * rewrite !(bool_decide_eq_true_2 (key = key)) by reflexivity.
        reflexivity.
      * rewrite (bool_decide_eq_false_2 (k = key)) by exact Hk.
        rewrite (bool_decide_eq_false_2 (key = k)) by congruence.
        reflexivity.
    + rewrite (bool_decide_eq_false_2 (k0 = key)) by exact Hk0.
      cbn [records_of]. rewrite IH.
      destruct (decide (k0 = k)) as [->|Hk].
      * rewrite (bool_decide_eq_true_2 (k = k)) by reflexivity.
        rewrite (bool_decide_eq_false_2 (k = key)) by exact Hk0.
        reflexivity.
      * rewrite (bool_decide_eq_false_2 (k0 = k)) by exact Hk.
        reflexivity.
Qed.

Lemma keys_group_add key r gs k :
  In k (map fst (group_add key r gs)) <-> In k (map fst gs) \/ k = key.
Proof.
  induction gs as [|[k0 rs] gs IH]; cbn [group_add map fst In].
  - intuition congruence.
  - case_bool_decide; cbn [map fst In].
    + subst k0. intuition congruence.
    + rewrite IH. tauto.
Qed.

Lemma NoDup_group_add key r gs :
  NoDup (map fst gs) -> NoDup (map fst (group_add key r gs)).
Proof.
  induction gs as [|[k0 rs] gs IH]; cbn [group_add map fst]; intros Hnd.
  - apply NoDup_cons_2; [apply not_elem_of_nil|apply NoDup_nil_2].
  - apply NoDup_cons in Hnd. destruct Hnd as [Hk0 Hnd].
    case_bool_decide; cbn [map fst]; apply NoDup_cons_2; auto.
    rewrite list_elem_of_In, keys_group_add.
    rewrite list_elem_of_In in Hk0. intros [?|?]; congruence.
Qed.

Lemma nonempty_group_add key r gs :
  Forall (fun g => snd g <> []) gs ->
  Forall (fun g => snd g <> []) (group_add key r gs).
Proof.
  induction gs as [|[k0 rs] gs IH]; cbn [group_add]; intros H.
  - apply Forall_cons_2; [discriminate|apply Forall_nil_2].
  - apply Forall_cons in H. destruct H as [H0 H].
    case_bool_decide; apply Forall_cons_2; auto.
    cbn [snd]. destruct rs; discriminate.
Qed.

Lemma records_of_In k rs gs :
  NoDup (map fst gs) -> In (k, rs) gs -> records_of k gs = rs.
Proof.
  induction gs as [|[k0 rs0] gs IH]; cbn [map fst records_of];
    intros Hnd Hin; [destruct Hin|].
  apply NoDup_cons in Hnd. destruct Hnd as [Hk0 Hnd].
  destruct Hin as [[= -> ->]|Hin].
  - rewrite bool_decide_eq_true_2 by reflexivity. reflexivity.
  - rewrite bool_decide_eq_false_2; [apply IH; assumption|].
    intros ->. apply Hk0, list_elem_of_In, in_map_iff.
    exists (k, rs). auto.
Qed.

Lemma written_group_add translate key r gs :
  written translate (group_add key r gs)
  = written translate gs + (if is_text (translate key) then 1 else 0).
Proof.
  induction gs as [|[k0 rs] gs IH]; cbn [group_add written foldr fst snd length].
  - destruct (is_text (translate key)); reflexivity.
  - case_bool_decide; cbn [foldr fst snd].
    + subst k0. rewrite length_app. cbn [length].
      destruct (is_text (translate key)); lia.
    + fold (written translate (group_add key r gs)). rewrite IH.
      fold (written translate gs).
      destruct (is_text (translate k0)); lia.
Qed.

Lemma grouped_from (l : list DialogStrings.row) : forall gs,
  let G := foldl (fun groups r =>
                    if skipped r then groups
                    else group_add (textKey r) r groups) gs l in
  NoDup (map fst gs) -> Forall (fun g => snd g <> []) gs ->
  NoDup (map fst G) /\ Forall (fun g => snd g <> []) G
  /\ (forall k,
        records_of k G
        = records_of k gs
          ++ List.filter (fun r => negb (skipped r)
                                   && bool_decide (textKey r = k)) l)
  /\ (forall k, In k (map fst G) <->
        In k (map fst gs)
        \/ exists r, In r l /\ skipped r = false /\ textKey r = k)
  /\ (forall translate,
        written translate G
        = written translate gs
          + length (List.filter
                      (fun r => negb (skipped r)
                                && is_text (translate (textKey r))) l)).
Proof.
  cbv zeta. induction l as [|r l IH]; intros gs Hnd Hne; cbn [foldl].
  - cbn [List.filter length]. repeat split; auto.
    + intros k. rewrite app_nil_r. reflexivity.
    + intros [H|(r & [] & _)]. exact H.
  - destruct (skipped r) eqn:Es.
    + destruct (IH gs Hnd Hne) as (H1 & H2 & H3 & H4 & H5).
      cbn [List.filter]. rewrite Es. cbn [negb andb].
      repeat split; auto.
      * intros H. apply H4 in H. destruct H as [H|(r' & Hr' & Hs & Hk)];
          [auto|]. right. exists r'. repeat split; auto. right. exact Hr'.
      * intros [H|(r' & [->|Hr'] & Hs & Hk)]; apply H4; [auto|congruence|].
        right. exists r'. auto.
    + destruct (IH (group_add (textKey r) r gs)
                  (NoDup_group_add _ _ _ Hnd) (nonempty_group_add _ _ _ Hne))
        as (H1 & H2 & H3 & H4 & H5).
      cbn [List.filter]. rewrite Es. cbn [negb andb].
      repeat split; auto.
      * intros k. rewrite H3, records_of_group_add.
        destruct (decide (k = textKey r)) as [->|Hk].
        -- rewrite !(bool_decide_eq_true_2 (textKey r = textKey r))
             by reflexivity.
           rewrite <- app_assoc. reflexivity.
        -- rewrite (bool_decide_eq_false_2 (k = textKey r)) by exact Hk.
           rewrite (bool_decide_eq_false_2 (textKey r = k)) by congruence.
           reflexivity.
      * intros H. apply H4 in H. rewrite keys_group_add in H.
        destruct H as [[H|H]|(r' & Hr' & Hs & Hk)]; [auto| |].
        -- right. exists r. repeat split; auto. left. reflexivity.
        -- right. exists r'. repeat split; auto. right. exact Hr'.
      * intros H. apply H4. rewrite keys_group_add.
        destruct H as [H|(r' & [->|Hr'] & Hs & Hk)]; [auto|auto|].
        right. exists r'. auto.
      * intros translate. rewrite H5, written_group_add.
        destruct (is_text (translate (textKey r))); cbn [length]; lia.
Qed.

Lemma groupedBySource_parts (untranslatedStrings : list DialogStrings.row) :
  let groups := groupedBySource untranslatedStrings in
  NoDup (map fst groups)
  /\ (forall key records, In (key, records) groups ->
        records <> []
        /\ records
           = List.filter (fun r => negb (skipped r)
                                   && bool_decide (textKey r = key))
               untranslatedStrings)
  /\ (forall r, In r untranslatedStrings -> skipped r = false ->
        exists records, In (textKey r, records) groups /\ In r records).
Proof.
  cbv zeta. unfold groupedBySource.
  destruct (grouped_from untranslatedStrings [] (NoDup_nil_2 : NoDup (map fst []))
              (Forall_nil_2 _)) as (H1 & H2 & H3 & H4 & _).
  split; [exact H1|]. split.
  - intros key records Hin. split.
    + rewrite List.Forall_forall in H2. apply (H2 _ Hin).
    + rewrite <- (records_of_In _ _ _ H1 Hin). rewrite H3. reflexivity.
  - intros r Hr Hs.
    assert (Hk : In (textKey r) (map fst (foldl
              (fun groups r => if skipped r then groups
                               else group_add (textKey r) r groups)
              [] untranslatedStrings))).
    { apply H4. right. exists r. auto. }
    apply in_map_iff in Hk. destruct Hk as ([k rs] & Hk & Hin).
    cbn [fst] in Hk. subst k. exists rs. split; [exact Hin|].
    rewrite <- (records_of_In _ _ _ H1 Hin), H3. cbn [records_of app].
    apply filter_In. split; [exact Hr|]. rewrite Hs.
    rewrite bool_decide_eq_true_2 by reflexivity. reflexivity.
Qed.

(** X14: [groupedBySource] has one group for each key, none empty; the
    group of a key holds, in the order of the table, exactly the records
    not skipped that have this key; and every record not skipped is in the
    group of its key. *)
Theorem groupedBySource_groups
    (untranslatedStrings : list DialogStrings.row) :
  let groups := groupedBySource untranslatedStrings in
  NoDup (map fst groups)
  /\ (forall key records, In (key, records) groups ->
        records <> []
        /\ records
           = List.filter (fun r => negb (skipped r)
                                   && bool_decide (textKey r = key))
               untranslatedStrings)
  /\ (forall r, In r untranslatedStrings -> skipped r = false ->
        exists records, In (textKey r, records) groups /\ In r records).
Proof. exact (groupedBySource_parts untranslatedStrings). Qed.

Lemma foldl_update_dest v (rs : list DialogStrings.row) : forall T,
  foldl (fun table record => update_dest (DialogStrings.id record) v table)
        T rs
  = map (fun r => if bool_decide
                       (DialogStrings.id r ∈ map DialogStrings.id rs)
                  then set_dest v r else r) T.
Proof.
  induction rs as [|r0 rs IH]; intros T; cbn [foldl map].
  - rewrite <- (map_id T) at 1. apply map_ext. intros r.
    rewrite bool_decide_eq_false_2 by apply not_elem_of_nil. reflexivity.
  - rewrite IH. unfold update_dest. rewrite map_map. apply map_ext.
    intros r. destruct (decide (DialogStrings.id r = DialogStrings.id r0))
      as [E|E].
    + rewrite (bool_decide_eq_true_2 _ E).
      rewrite (bool_decide_eq_true_2
                 (DialogStrings.id r ∈ DialogStrings.id r0
                                        :: map DialogStrings.id rs))
        by (rewrite E; apply elem_of_cons; left; reflexivity).
      cbn [set_dest DialogStrings.id]. case_bool_decide; reflexivity.
    + rewrite (bool_decide_eq_false_2 _ E).
      destruct (decide (DialogStrings.id r ∈ map DialogStrings.id rs))
        as [Hin|Hin].
      * rewrite (bool_decide_eq_true_2 _ Hin).
        rewrite bool_decide_eq_true_2
          by (apply elem_of_cons; right; exact Hin).
        reflexivity.
      * rewrite (bool_decide_eq_false_2 _ Hin).
        rewrite bool_decide_eq_false_2; [reflexivity|].
        intros H. apply elem_of_cons in H. tauto.
Qed.

Lemma foldl_process_group translate cache gs : forall T st,
  fst (foldl (process_group translate cache) (T, st) gs)
  = map (row_after translate cache gs) T.
Proof.
  induction gs as [|g gs IH]; intros T st; cbn [foldl].
  - unfold row_after. cbn [foldl fst]. symmetry. apply map_id.
  - unfold process_group at 2. cbn [fst snd].
    destruct (translate (fst g)) as [t|] eqn:Et.
    + rewrite IH, foldl_update_dest, map_map. apply map_ext. intros r.
      unfold row_after. cbn [foldl]. rewrite Et. reflexivity.
    + rewrite IH. apply map_ext. intros r.
      unfold row_after. cbn [foldl]. rewrite Et. reflexivity.
Qed.

Lemma row_after_same translate cache K gs : forall r,
  (forall g, In g gs ->
     DialogStrings.id r ∈ map DialogStrings.id (snd g) -> fst g = K) ->
  row_after translate cache gs r
  = if existsb (fun g => bool_decide
                   (DialogStrings.id r ∈ map DialogStrings.id (snd g))) gs
    then match translate K with
         | Text t => set_dest (unmaskText t cache) r
         | Value => r
         end
    else r.
Proof.
  induction gs as [|g gs IH]; intros r Hk; [reflexivity|].
  unfold row_after. cbn [foldl existsb].
  destruct (decide (DialogStrings.id r ∈ map DialogStrings.id (snd g)))
    as [Hin|Hin].
  - rewrite (bool_decide_eq_true_2 _ Hin). cbn [orb].
    rewrite (Hk g (or_introl eq_refl) Hin).
    destruct (translate K) as [t|] eqn:Et.
    + fold (row_after translate cache gs (set_dest (unmaskText t cache) r)).
      rewrite IH.
      * destruct (existsb _ gs); reflexivity.
      * intros g' Hg' H. apply Hk; [right; exact Hg'|exact H].
    + fold (row_after translate cache gs r). rewrite IH.
      * destruct (existsb _ gs); reflexivity.
      * intros g' Hg' H. apply Hk; [right; exact Hg'|exact H].
  - rewrite (bool_decide_eq_false_2 _ Hin). cbn [orb].
    assert (E : match translate (fst g) with
                | Text _ => r | Value => r end = r)
      by (destruct (translate (fst g)); reflexivity).
    rewrite E. fold (row_after translate cache gs r). apply IH.
    intros g' Hg' H. apply Hk; [right; exact Hg'|exact H].
Qed.

Lemma id_inj_NoDup (T : list DialogStrings.row) r r' :
  NoDup (map DialogStrings.id T) -> In r T -> In r' T ->
  DialogStrings.id r = DialogStrings.id r' -> r = r'.
Proof.
  induction T as [|x T IH]; cbn [map]; intros Hnd Hr Hr' E; [destruct Hr|].
  apply NoDup_cons in Hnd. destruct Hnd as [Hx Hnd].
  assert (Hid : forall y, In y T -> DialogStrings.id y <> DialogStrings.id x).
  { intros y Hy Ey. apply Hx, list_elem_of_In, in_map_iff. exists y. auto. }
  destruct Hr as [->|Hr], Hr' as [->|Hr']; auto.
  - exfalso. apply (Hid r' Hr'). congruence.
  - exfalso. apply (Hid r Hr). congruence.
Qed.

Lemma main_rows translate cache (table : list DialogStrings.row) :
  NoDup (map DialogStrings.id table) ->
  fst (main translate cache table)
  = map (translated_row translate cache) table.
Proof.
  intros Hnd. unfold main.
  set (l := List.filter
              (fun r => bool_decide (DialogStrings.dest r = Some [])) table).
  destruct (length l =? 0)%nat eqn:El.
  - cbn [fst]. rewrite <- (map_id table) at 1. apply map_ext_in.
    intros r Hr. unfold translated_row, to_translate.
    apply Nat.eqb_eq in El. destruct l eqn:E; [|discriminate].
    destruct (decide (DialogStrings.dest r = Some [])) as [Hd|Hd].
    + exfalso. assert (H : In r l)
        by (apply filter_In; split;
            [exact Hr|apply bool_decide_eq_true_2, Hd]).
      rewrite E in H. destruct H.
    + rewrite (bool_decide_eq_false_2 _ Hd). reflexivity.
  - cbn [fst]. rewrite foldl_process_group. apply map_ext_in. intros r Hr.
    destruct (groupedBySource_parts l) as (H1 & H2 & H3).
    rewrite (row_after_same translate cache (textKey r)).
    + unfold translated_row, to_translate.
      destruct (existsb _ (groupedBySource l)) eqn:Ex.
      * apply existsb_exists in Ex. destruct Ex as ([k rs] & Hg & Hin).
        apply bool_decide_eq_true_1 in Hin. cbn [snd] in Hin.
        apply list_elem_of_In, in_map_iff in Hin.
        destruct Hin as (r' & Eid & Hr').
        destruct (H2 _ _ Hg) as [_ Hrs]. rewrite Hrs in Hr'.
        apply filter_In in Hr'. destruct Hr' as [Hl Hc].
        apply filter_In in Hl. destruct Hl as [HT Hd].
        assert (r' = r) by (apply (id_inj_NoDup table); auto). subst r'.
        rewrite Hd. apply andb_true_iff in Hc. destruct Hc as [Hs _].
        rewrite Hs. reflexivity.
      * destruct (bool_decide (DialogStrings.dest r = Some [])) eqn:Hd;
          [|reflexivity].
        destruct (skipped r) eqn:Hs; [reflexivity|]. exfalso.
        assert (Hl : In r l) by (apply filter_In; auto).
        destruct (H3 r Hl Hs) as (rs & Hg & Hin).
        assert (Ht : existsb
                  (fun g => bool_decide
                     (DialogStrings.id r ∈ map DialogStrings.id (snd g)))
                  (groupedBySource l) = true).
        { apply existsb_exists. exists (textKey r, rs). split; [exact Hg|].
          apply bool_decide_eq_true_2, list_elem_of_In, in_map_iff.
          exists r. auto. }
        congruence.
    + intros [k rs] Hg Hin. cbn [fst snd] in *.
      apply list_elem_of_In, in_map_iff in Hin.
      destruct Hin as (r' & Eid & Hr').
      destruct (H2 _ _ Hg) as [_ Hrs]. rewrite Hrs in Hr'.
      apply filter_In in Hr'. destruct Hr' as [Hl Hc].
      apply filter_In in Hl. destruct Hl as [HT Hd].
      assert (r' = r) by (apply (id_inj_NoDup table); auto). subst r'.
      apply andb_true_iff in Hc. destruct Hc as [_ Hc].
      apply bool_decide_eq_true_1 in Hc. congruence.
Qed.

Lemma foldl_process_stats translate cache gs : forall T st,
  Forall (fun g => snd g <> []) gs ->
  let f := snd (foldl (process_group translate cache) (T, st) gs) in
  totalUniqueTexts f = totalUniqueTexts st
  /\ totalRecords f = totalRecords st
  /\ successCount f + errorCount f
     = successCount st + errorCount st + length gs
  /\ successCount f + copiedCount f
     = successCount st + copiedCount st + written translate gs
  /\ errorCount f
     = errorCount st
       + length (List.filter
                   (fun g => negb (is_text (translate (fst g)))) gs).
Proof.
  cbv zeta. induction gs as [|g gs IH]; intros T st Hne; cbn [foldl].
  - cbn [snd length written foldr List.filter]. lia.
  - apply Forall_cons in Hne. destruct Hne as [Hg Hne].
    destruct (process_group translate cache (T, st) g) as [T' st'] eqn:Ep.
    destruct (IH T' st' Hne) as (H1 & H2 & H3 & H4 & H5).
    rewrite H1, H2, H3, H4, H5. clear H1 H2 H3 H4 H5.
    cbn [written foldr List.filter length]. fold (written translate gs).
    unfold process_group in Ep. cbn [fst snd] in Ep.
    destruct (translate (fst g)) as [t|]; injection Ep as _ <-;
      cbn [is_text negb length
           totalUniqueTexts totalRecords successCount copiedCount errorCount];
      repeat split; try lia.
    destruct (snd g); [congruence|]. cbn [length]. lia.
Qed.

Lemma total_records (gs : list (jsstring * list DialogStrings.row)) :
  forall n,
  foldl (fun sum g => sum + length (snd g)) n gs
  = n + written (fun _ => Text []) gs.
Proof.
  induction gs as [|g gs IH]; intros n; cbn [foldl written foldr is_text].
  - lia.
  - rewrite IH. unfold written. cbn [is_text]. lia.
Qed.

Lemma filter_filter_and {A} (f g : A -> bool) (l : list A) :
  List.filter f (List.filter g l) = List.filter (fun x => g x && f x) l.
Proof.
  induction l as [|x l IH]; [reflexivity|]. cbn [List.filter].
  destruct (g x); cbn [andb List.filter]; [|exact IH].
  destruct (f x); rewrite IH; reflexivity.
Qed.

Lemma written_all_text translate
    (gs : list (jsstring * list DialogStrings.row)) :
  List.filter (fun g => negb (is_text (translate (fst g)))) gs = [] ->
  written translate gs = written (fun _ => Text []) gs.
Proof.
  induction gs as [|g gs IH]; [reflexivity|].
  cbn [List.filter written foldr is_text].
  destruct (is_text (translate (fst g))); cbn [negb]; [|discriminate].
  intros H. fold (written translate gs). rewrite (IH H). reflexivity.
Qed.

Lemma unmaskText_nonempty cache t : t <> [] -> unmaskText t cache <> [].
Proof.
  destruct t as [|c s]; [congruence|]. intros _.
  destruct (read_placeholder (c :: s)) as [[tok rest]|] eqn:E.
  - apply read_placeholder_sound in E. destruct E as [Hs Htok].
    rewrite Hs, (unmaskText_hit cache tok rest Htok).
    pose proof (is_placeholder_nonempty tok Htok) as Hne.
    unfold unmask_replacer. destruct (cache !! tok) as [[|x o]|];
      try discriminate; destruct tok; try congruence; discriminate.
  - rewrite unmaskText_miss by exact E. discriminate.
Qed.

Lemma textKey_nonempty r : skipped r = false -> textKey r <> [].
Proof.
  unfold skipped, textKey.
  destruct (DialogStrings.maskedSource r) as [[|c m]|];
    destruct (DialogStrings.source r) as [[|x s]|];
    intros H; try discriminate H; cbn [default]; discriminate.
Qed.

(** X15: the table after a translation run, for a table whose ids are
    distinct.  Every row whose [dest] is the empty string and whose source
    is not blank gets as [dest] the unmasked translation of its masked
    source, or of its source when it has no masked source, unless the
    translation is no string; rows with the same text get the same
    translation; every other row, and every other column, is as it was. *)
Theorem main_translates_rows (translate : jsstring -> translation)
    (cache : gmap jsstring jsstring) (table : list DialogStrings.row) :
  NoDup (map DialogStrings.id table) ->
  fst (main translate cache table)
  = map (translated_row translate cache) table.
Proof. apply main_rows. Qed.

(** X15 at three rows: two with the same masked source, one blank. *)
Lemma main_translates_rows_witness :
  fst (main (translator TranslateExamples.callModel TranslateExamples.parse)
         (loadGlossaryCache Examples.whiterun) TranslateExamples.rows)
  = map (translated_row
           (translator TranslateExamples.callModel TranslateExamples.parse)
           (loadGlossaryCache Examples.whiterun))
      TranslateExamples.rows.
Proof.
  apply (main_translates_rows
           (translator TranslateExamples.callModel TranslateExamples.parse)
           (loadGlossaryCache Examples.whiterun) TranslateExamples.rows).
  change (NoDup [1%Z; 2%Z; 3%Z]).
  apply NoDup_cons_2;
    [|apply NoDup_cons_2; [|apply NoDup_singleton]].
  - intros H. apply elem_of_cons in H. destruct H as [H|H];
      [discriminate H|]. apply list_elem_of_singleton in H. discriminate H.
  - intros H. apply list_elem_of_singleton in H. discriminate H.
Defined.

(** X16: the statistics of a translation run.  There are none exactly
    when no row has the empty string as [dest].  Otherwise every unique
    text is counted once, as a success or as an error; [totalRecords] is
    the number of rows to translate; the "Total records updated" of the
    summary, [successCount + copiedCount], is the number of rows to
    translate whose translation is a string, so it is [totalRecords] when
    no error is counted. *)
Theorem main_stats (translate : jsstring -> translation)
    (cache : gmap jsstring jsstring) (table : list DialogStrings.row) :
  match snd (main translate cache table) with
  | None => forall r, In r table -> DialogStrings.dest r <> Some []
  | Some st =>
      (exists r, In r table /\ DialogStrings.dest r = Some [])
      /\ totalUniqueTexts st = successCount st + errorCount st
      /\ totalRecords st = length (List.filter to_translate table)
      /\ successCount st + copiedCount st
         = length (List.filter
                     (fun r => to_translate r
                               && is_text (translate (textKey r))) table)
      /\ (errorCount st = 0 ->
          successCount st + copiedCount st = totalRecords st)
  end.
Proof.
  unfold main.
  set (l := List.filter
              (fun r => bool_decide (DialogStrings.dest r = Some [])) table).
  destruct (length l =? 0)%nat eqn:El; cbn [snd].
  - apply Nat.eqb_eq in El. intros r Hr Hd.
    assert (H : In r l)
      by (apply filter_In; split;
          [exact Hr|apply bool_decide_eq_true_2, Hd]).
    destruct l; [destruct H|discriminate El].
  - apply Nat.eqb_neq in El.
    destruct (grouped_from l [] (NoDup_nil_2 : NoDup (map fst []))
                (Forall_nil_2 _)) as (_ & Hne & _ & _ & Hw).
    fold (groupedBySource l) in Hne, Hw.
    destruct (foldl_process_stats translate cache (groupedBySource l) table
                (mkProgress (length (groupedBySource l))
                   (foldl (fun sum g => sum + length (snd g)) 0
                      (groupedBySource l)) 0 0 0) Hne)
      as (H1 & H2 & H3 & H4 & H5).
    cbn [totalUniqueTexts totalRecords successCount copiedCount errorCount]
      in H1, H2, H3, H4, H5.
    assert (Htot : foldl (fun sum g => sum + length (snd g)) 0
                     (groupedBySource l)
                   = length (List.filter to_translate table)).
    { rewrite total_records, (Hw (fun _ => Text [])).
      cbn [written foldr is_text]. unfold l. rewrite filter_filter_and.
      cbn [plus]. f_equal. apply filter_ext. intros r.
      unfold to_translate. rewrite andb_true_r. reflexivity. }
    assert (Hwr : written translate (groupedBySource l)
                  = length (List.filter
                      (fun r => to_translate r
                                && is_text (translate (textKey r))) table)).
    { rewrite (Hw translate). cbn [written foldr]. unfold l.
      rewrite filter_filter_and. cbn [plus]. f_equal. apply filter_ext.
      intros r. unfold to_translate. rewrite andb_assoc. reflexivity. }
    split.
    { destruct l as [|r l'] eqn:E; [contradiction|].
      assert (Hr : In r (List.filter
                (fun r => bool_decide (DialogStrings.dest r = Some []))
                table)) by (fold l; rewrite E; left; reflexivity).
      apply filter_In in Hr. destruct Hr as [Hr Hd].
      exists r. split; [exact Hr|].
      apply bool_decide_eq_true in Hd. exact Hd. }
    split; [lia|]. split; [rewrite H2; exact Htot|].
    split; [rewrite H4, Hwr; reflexivity|].
    intros He. rewrite H4, H2. cbn [plus]. rewrite total_records.
    cbn [plus]. apply written_all_text.
    rewrite He in H5. cbn [plus] in H5. symmetry in H5.
    apply length_zero_iff_nil in H5. exact H5.
Qed.

(** X17: translation and classifier together, for a run whose texts are
    translated by [translateText] on a table whose ids are distinct.  A row
    translated by the run has a non-empty [dest] afterwards: the classifier
    no longer reports it as MISSING.  So the rows a later run would
    translate are only those whose translation was no string. *)
Theorem translated_rows_not_missing
    (callModel : jsstring -> nat -> response) (parse : jsstring -> parsed)
    (cache : gmap jsstring jsstring) (table : list DialogStrings.row) :
  NoDup (map DialogStrings.id table) ->
  let translate := translator callModel parse in
  let final := fst (main translate cache table) in
  (forall r, In r table -> to_translate r = true ->
     translate (textKey r) <> Value ->
     exists s d,
       DialogStrings.source r = Some s /\ d <> []
       /\ In (set_dest d r) final
       /\ ~ In Schema.MISSING (Schema.getAnomalyTypes s (Some d)))
  /\ (forall r, In r final -> to_translate r = true ->
        translate (textKey r) = Value).
Proof.
  intros Hnd. cbv zeta. rewrite (main_rows _ _ _ Hnd).
  assert (Hdest : forall r t,
            to_translate r = true ->
            translator callModel parse (textKey r) = Text t ->
            unmaskText t cache <> []).
  { intros r t Hr Ht. apply unmaskText_nonempty. intros ->.
    unfold to_translate in Hr. apply andb_true_iff in Hr.
    destruct Hr as [_ Hs]. apply negb_true_iff in Hs.
    apply (translateText_nonempty (callModel (textKey r)) parse (textKey r)
             (textKey_nonempty r Hs)).
    exact Ht. }
  split.
  - intros r Hr Ht Hv.
    destruct (translator callModel parse (textKey r)) as [t|] eqn:Et;
      [|congruence].
    assert (Hs : exists s, DialogStrings.source r = Some s).
    { unfold to_translate, skipped in Ht.
      destruct (DialogStrings.source r) as [s|]; [eauto|].
      rewrite andb_false_r in Ht. discriminate Ht. }
    destruct Hs as [s Hs]. exists s, (unmaskText t cache).
    split; [exact Hs|]. split; [exact (Hdest r t Ht Et)|]. split.
    + apply in_map_iff. exists r. split; [|exact Hr].
      unfold translated_row. rewrite Ht, Et. reflexivity.
    + rewrite In_getAnomalyTypes. pose proof (Hdest r t Ht Et) as Hne.
      destruct (unmaskText t cache); [congruence|discriminate].
  - intros r' Hr' Ht'. apply in_map_iff in Hr'.
    destruct Hr' as (r & <- & Hr). unfold translated_row in *.
    destruct (to_translate r) eqn:Ht; [|congruence].
    destruct (translator callModel parse (textKey r)) as [t|] eqn:Et;
      [|exact Et].
    exfalso. apply (Hdest r t Ht Et).
    unfold to_translate in Ht'. apply andb_true_iff in Ht'.
    destruct Ht' as [Hd _]. apply bool_decide_eq_true_1 in Hd.
    cbn [set_dest DialogStrings.dest] in Hd. congruence.
Qed.

(** X17 at the first of three rows, two of which have the same masked
    source. *)
Lemma translated_rows_not_missing_witness :
  exists s d,
    DialogStrings.source TranslateExamples.first_row = Some s /\ d <> []
    /\ In (set_dest d TranslateExamples.first_row)
         (fst (main (translator TranslateExamples.callModel
                       TranslateExamples.parse)
                 (loadGlossaryCache Examples.whiterun)
                 TranslateExamples.rows))
    /\ ~ In Schema.MISSING (Schema.getAnomalyTypes s (Some d)).
Proof.
  refine (proj1 (translated_rows_not_missing TranslateExamples.callModel
                   TranslateExamples.parse (loadGlossaryCache Examples.whiterun)
                   TranslateExamples.rows _) TranslateExamples.first_row _ _ _).
  - change (NoDup [1%Z; 2%Z; 3%Z]).
    apply NoDup_cons_2;
      [|apply NoDup_cons_2; [|apply NoDup_singleton]].
    + intros H. apply elem_of_cons in H. destruct H as [H|H];
        [discriminate H|]. apply list_elem_of_singleton in H. discriminate H.
    + intros H. apply list_elem_of_singleton in H. discriminate H.
  - left. reflexivity.
  - reflexivity.
  - vm_compute. discriminate.
Defined.

(** X19: masking, classifier and translation together.  A row whose
    source is, up to case, a glossary term has its source as [dest] after
    a masking run: the classifier reports it as SAME, and the translation
    run does not select it. *)
Theorem autofilled_row_same_and_skipped (g : list Glossary.row)
    (table : list DialogStrings.row) (i : nat) (r : DialogStrings.row) :
  NoDup (map DialogStrings.id table) ->
  table !! i = Some r ->
  autofill_applies g r ->
  exists r' s,
    MaskStrings.main g table !! i = Some r'
    /\ DialogStrings.source r' = Some s
    /\ DialogStrings.dest r' = Some s
    /\ In Schema.SAME (Schema.getAnomalyTypes s (DialogStrings.dest r'))
    /\ to_translate r' = false.
Proof.
  intros Hnd Hr (s & t & Hs & Hne & Ht & Hlow).
  assert (Hg : g <> []) by (intros ->; destruct Ht).
  set (m := matcher_of (MaskStrings.sortedTerms g)).
  exists (maskRecord m r), s.
  assert (Hin : toLowerCase s ∈ MaskStrings.m_termSet m).
  { unfold m. cbn [MaskStrings.m_termSet matcher_of].
    apply elem_of_termSet. exists (MaskStrings.to_entry t).
    split; [|exact Hlow]. apply in_sortedTerms. exists t. auto. }
  pose proof (maskRecord_dest m r s Hs Hne Hin) as Hd.
  split.
  { rewrite (main_map g m table Hnd (build_nonempty g Hg)).
    change (map ?f ?l) with (f <$> l). rewrite list_lookup_fmap, Hr.
    reflexivity. }
  split; [rewrite (proj2 (maskRecord_id_source m r)); exact Hs|].
  split; [exact Hd|]. split.
  - rewrite In_getAnomalyTypes, Hd. split; [|reflexivity].
    destruct s; [congruence|reflexivity].
  - unfold to_translate. rewrite Hd.
    rewrite bool_decide_eq_false_2; [reflexivity|].
    intros [= ->]. congruence.
Qed.

(** X19 at the first row of the example, whose source is the term. *)
Lemma autofilled_row_same_and_skipped_witness :
  exists r' s,
    MaskStrings.main Examples.whiterun Examples.two_rows !! 0 = Some r'
    /\ DialogStrings.source r' = Some s
    /\ DialogStrings.dest r' = Some s
    /\ In Schema.SAME (Schema.getAnomalyTypes s (DialogStrings.dest r'))
    /\ to_translate r' = false.
Proof.
  refine (autofilled_row_same_and_skipped Examples.whiterun Examples.two_rows
            0 _ _ eq_refl _).
  - change (NoDup [1%Z; 2%Z]). apply NoDup_cons_2; [|apply NoDup_singleton].
    intros H. apply list_elem_of_singleton in H. discriminate H.
  - exists (str "Whiterun"),
      (Glossary.mk (str "a1") (str "Whiterun") (Some (str "Location"))).
    split; [reflexivity|]. split; [discriminate|].
    split; [left; reflexivity|reflexivity].
Defined.

(** X20: the "Elapsed" line of a notification.  For an elapsed time that
    is not negative the hours, minutes and seconds shown add up to it, with
    minutes and seconds below 60. *)
Theorem elapsed_split (elapsed : Z) :
  (0 <= elapsed)%Z ->
  (hours elapsed * 3600 + minutes elapsed * 60 + seconds elapsed = elapsed
   /\ 0 <= hours elapsed
   /\ 0 <= minutes elapsed < 60
   /\ 0 <= seconds elapsed < 60)%Z.
Proof.
  intros H. unfold hours, minutes, seconds.
  rewrite !Z.rem_mod_nonneg by lia.
  pose proof (Z.div_mod elapsed 3600 ltac:(lia)) as H1.
  pose proof (Z.mod_pos_bound elapsed 3600 ltac:(lia)) as H2.
  pose proof (Z.div_mod (elapsed mod 3600) 60 ltac:(lia)) as H3.
  pose proof (Z.mod_pos_bound (elapsed mod 3600) 60 ltac:(lia)) as H4.
  pose proof (Z.mod_pos_bound elapsed 60 ltac:(lia)) as H5.
  assert (H6 : ((elapsed mod 3600) mod 60 = elapsed mod 60)%Z).
  { assert (Hx : (elapsed mod 3600
                  = elapsed + - (60 * (elapsed / 3600)) * 60)%Z) by lia.
    rewrite Hx. apply Z.mod_add. lia. }
  pose proof (Z.div_pos elapsed 3600 H ltac:(lia)) as H7.
  pose proof (Z.div_pos (elapsed mod 3600) 60 ltac:(lia) ltac:(lia)) as H8.
  assert (H9 : (elapsed mod 3600 / 60 < 60)%Z)
    by (apply Z.div_lt_upper_bound; lia).
  lia.
Qed.

(** X20 at one hour, one minute and one second. *)
Lemma elapsed_split_witness :
  (hours 3661 * 3600 + minutes 3661 * 60 + seconds 3661 = 3661
   /\ 0 <= hours 3661
   /\ 0 <= minutes 3661 < 60
   /\ 0 <= seconds 3661 < 60)%Z.
Proof. apply (elapsed_split 3661). lia. Defined.

End TranslateExtras.

(** ** Import and export *)

Section ImportExtras.
Import Database ImportStrings ImportProps.

Lemma foldr_max_ge (s : Z) (ids : list Z) :
  (s <= foldr Z.max s ids)%Z
  /\ forall x, In x ids -> (x <= foldr Z.max s ids)%Z.
Proof.
  induction ids as [|y ids [IH1 IH2]]; cbn [foldr].
  - split; [lia|intros x []].
  - split; [lia|]. intros x [->|Hx]; [lia|]. specialize (IH2 x Hx). lia.
Qed.

Lemma foldr_max_base (a b : Z) (ids : list Z) :
  (b <= a)%Z -> foldr Z.max a ids = Z.max a (foldr Z.max b ids).
Proof.
  intros Hab. induction ids as [|y ids IH]; cbn [foldr]; [lia|].
  rewrite IH. lia.
Qed.

Lemma next_id_fresh (s : Z) (ids : list Z) x :
  In x ids -> (x < next_id s ids)%Z.
Proof.
  intros Hx. unfold next_id.
  pose proof (proj2 (foldr_max_ge s ids) x Hx). lia.
Qed.

Lemma insert_string_next fid db s :
  next_string_id (insert_string fid db s) = (next_string_id db + 1)%Z.
Proof.
  unfold next_string_id at 1. unfold insert_string.
  cbn [strings_seq dialogStrings]. unfold next_id at 1.
  rewrite map_app, foldr_app. cbn [map foldr new_row DialogStrings.id].
  rewrite Z.max_id.
  rewrite (foldr_max_base (next_string_id db) (strings_seq db)).
  - unfold next_string_id, next_id. lia.
  - unfold next_string_id, next_id.
    pose proof (proj1 (foldr_max_ge (strings_seq db)
                  (map DialogStrings.id (dialogStrings db)))). lia.
Qed.

Lemma insert_batch_spec fid batch : forall db,
  dialogFiles (insert_batch fid db batch) = dialogFiles db
  /\ files_seq (insert_batch fid db batch) = files_seq db
  /\ dialogStrings (insert_batch fid db batch)
     = dialogStrings db ++ imported_rows (next_string_id db) fid batch
  /\ next_string_id (insert_batch fid db batch)
     = (next_string_id db + Z.of_nat (length batch))%Z.
Proof.
  induction batch as [|s batch IH]; intros db;
    cbn [insert_batch foldl imported_rows length].
  - rewrite app_nil_r. repeat split; lia.
  - fold (insert_batch fid (insert_string fid db s) batch).
    destruct (IH (insert_string fid db s)) as (H1 & H2 & H3 & H4).
    rewrite H1, H2, H3, H4, insert_string_next.
    cbn [insert_string dialogFiles files_seq dialogStrings].
    rewrite <- app_assoc. cbn [app]. repeat split; lia.
Qed.

Lemma imported_rows_app fid (l1 l2 : list bound) : forall first,
  imported_rows first fid (l1 ++ l2)
  = imported_rows first fid l1
    ++ imported_rows (first + Z.of_nat (length l1)) fid l2.
Proof.
  induction l1 as [|s l1 IH]; intros first; cbn [app imported_rows length].
  - rewrite Z.add_0_r. reflexivity.
  - rewrite IH. do 3 f_equal. lia.
Qed.

Lemma defined_Some {A} (l : list A) : defined (map Some l) = Some l.
Proof.
  induction l as [|x l IH]; [reflexivity|]. cbn [map defined].
  rewrite IH. reflexivity.
Qed.

Lemma slice_Some {A} (i : nat) (l : list A) :
  slice i (i + batchSize) (map Some l)
  = map Some (take batchSize (drop i l)).
Proof.
  unfold slice. replace (i + batchSize - i) with batchSize by lia.
  change (map Some ?x) with (Some <$> x).
  rewrite fmap_take, fmap_drop. reflexivity.
Qed.

Lemma bind_all_app (a b : list Str.t) :
  bind_all (a ++ b)
  = match bind_all a, bind_all b with
    | Some x, Some y => Some (x ++ y)
    | _, _ => None
    end.
Proof.
  induction a as [|s a IH]; cbn [app bind_all].
  - destruct (bind_all b); reflexivity.
  - rewrite IH. destruct (bind s), (bind_all a), (bind_all b); reflexivity.
Qed.

Lemma bind_all_length (ss : list Str.t) : forall bs,
  bind_all ss = Some bs -> length bs = length ss.
Proof.
  induction ss as [|s ss IH]; intros bs H; cbn [bind_all] in H.
  - injection H as <-. reflexivity.
  - destruct (bind s); [|discriminate].
    destruct (bind_all ss) as [r|]; [|discriminate]. injection H as <-.
    simpl. f_equal. apply IH. reflexivity.
Qed.

(** Binding goes element by element: the parts of a list that binds bind
    to the parts. *)
Lemma bind_all_take_drop (ss : list Str.t) n : forall bs,
  bind_all ss = Some bs ->
  bind_all (take n ss) = Some (take n bs)
  /\ bind_all (drop n ss) = Some (drop n bs).
Proof.
  revert n. induction ss as [|s ss IH]; intros n bs H; cbn [bind_all] in H.
  - injection H as <-. destruct n; split; reflexivity.
  - destruct (bind s) as [b|] eqn:Eb; [|discriminate].
    destruct (bind_all ss) as [r|] eqn:Er; [|discriminate]. injection H as <-.
    destruct n as [|n]; cbn [take drop bind_all].
    + rewrite Eb, Er. split; reflexivity.
    + destruct (IH n r eq_refl) as [H1 H2]. rewrite Eb, H1, H2.
      split; reflexivity.
Qed.

Lemma bind_all_lookup (ss : list Str.t) : forall bs,
  bind_all ss = Some bs ->
  forall i s, ss !! i = Some s ->
  forall b, bind s = Some b -> bs !! i = Some b.
Proof.
  induction ss as [|s0 ss IH]; intros bs H i s Hs b Hb; [discriminate Hs|].
  cbn [bind_all] in H. destruct (bind s0) as [b0|] eqn:E0; [|discriminate].
  destruct (bind_all ss) as [r|]; [|discriminate]. injection H as <-.
  destruct i as [|i].
  - injection Hs as <-. rewrite Hb in E0. injection E0 as <-. reflexivity.
  - apply (IH r eq_refl i s Hs b Hb).
Qed.

Lemma import_batches_defined fid (ss : list Str.t) (bs : list bound) :
  bind_all ss = Some bs ->
  forall fuel i db,
  length ss - i < fuel ->
  exists db',
    import_batches fuel fid (map Some ss) i db = Returned db'
    /\ dialogFiles db' = dialogFiles db
    /\ files_seq db' = files_seq db
    /\ dialogStrings db'
       = dialogStrings db ++ imported_rows (next_string_id db) fid (drop i bs).
Proof.
  intros Hbs. pose proof (bind_all_length _ _ Hbs) as Hlen.
  induction fuel as [|fuel IH]; intros i db Hf; [lia|].
  cbn [import_batches]. rewrite length_map.
  destruct (i <? length ss)%nat eqn:Ei.
  - apply Nat.ltb_lt in Ei. rewrite slice_Some, defined_Some.
    destruct (bind_all_take_drop ss i bs Hbs) as [_ Hd].
    destruct (bind_all_take_drop (drop i ss) batchSize _ Hd) as [Ht _].
    rewrite Ht.
    destruct (insert_batch_spec fid (take batchSize (drop i bs)) db)
      as (H1 & H2 & H3 & H4).
    destruct (IH (i + batchSize)
                (insert_batch fid db (take batchSize (drop i bs))))
      as (db' & E & F1 & F2 & F3).
    { unfold batchSize. lia. }
    exists db'. split; [exact E|]. split; [congruence|].
    split; [congruence|].
    rewrite F3, H3, H4, <- app_assoc. f_equal.
    rewrite <- (take_drop batchSize (drop i bs)) at 3.
    rewrite imported_rows_app. f_equal. f_equal.
    rewrite drop_drop. reflexivity.
  - apply Nat.ltb_ge in Ei. exists db. split; [reflexivity|].
    rewrite drop_ge by lia. cbn [imported_rows].
    rewrite app_nil_r. auto.
Qed.

(** An element that cannot be bound ends the loop with an exception. *)
Lemma import_batches_unbound fid (ss : list Str.t) : forall fuel i db,
  length ss - i < fuel ->
  bind_all (drop i ss) = None ->
  exists db', import_batches fuel fid (map Some ss) i db = Thrown db'.
Proof.
  induction fuel as [|fuel IH]; intros i db Hf Hnone; [lia|].
  cbn [import_batches]. rewrite length_map.
  destruct (i <? length ss)%nat eqn:Ei.
  - apply Nat.ltb_lt in Ei. rewrite slice_Some, defined_Some.
    destruct (bind_all (take batchSize (drop i ss))) as [values|] eqn:Et;
      [|eauto].
    apply IH; [unfold batchSize; lia|].
    rewrite <- (take_drop batchSize (drop i ss)), bind_all_app, Et in Hnone.
    rewrite drop_drop in Hnone.
    destruct (bind_all (drop (i + batchSize) ss)); [discriminate|reflexivity].
  - apply Nat.ltb_ge in Ei. rewrite drop_ge in Hnone by exact Ei.
    discriminate Hnone.
Qed.

Lemma importFile_parts db name p ss bs :
  bind_all ss = Some bs ->
  exists db',
    importFile db name (Some (mkResources (Some p) (Some (Strings ss))))
    = Returned db'
    /\ match find (fun f => bool_decide (DialogFiles.filename f = name))
               (dialogFiles db) with
       | Some f =>
           dialogFiles db' = update_file (DialogFiles.id f) p (dialogFiles db)
           /\ dialogStrings db'
              = delete_strings (DialogFiles.id f) (dialogStrings db)
                ++ imported_rows
                     (next_id (strings_seq db)
                        (map DialogStrings.id
                           (delete_strings (DialogFiles.id f)
                              (dialogStrings db))))
                     (DialogFiles.id f) bs
       | None =>
           dialogFiles db'
           = dialogFiles db ++ [new_file (next_file_id db) name p]
           /\ dialogStrings db'
              = dialogStrings db
                ++ imported_rows (next_string_id db) (next_file_id db) bs
       end.
Proof.
  intros Hbs. unfold importFile. cbn [Content Params_].
  destruct (find _ (dialogFiles db)) as [f|].
  - match goal with
    | |- context [import_batches ?fuel ?fid _ 0 ?d] =>
        destruct (import_batches_defined fid ss bs Hbs fuel 0 d)
          as (db' & E & F1 & F2 & F3)
    end.
    { rewrite length_map. lia. }
    exists db'. split; [exact E|]. split; [exact F1|]. exact F3.
  - match goal with
    | |- context [import_batches ?fuel ?fid _ 0 ?d] =>
        destruct (import_batches_defined fid ss bs Hbs fuel 0 d)
          as (db' & E & F1 & F2 & F3)
    end.
    { rewrite length_map. lia. }
    exists db'. split; [exact E|]. split; [exact F1|]. exact F3.
Qed.

(** X21: importing a file whose [Content] holds an array of [String]
    elements.  When every element can be bound the call returns, with one
    row for each element after the rows kept: in the order of the file,
    with consecutive ids from the next id on, the id of the file, an empty
    [dest], no masked source, and as [source] the text of the element when
    the parser returned a string, otherwise what the database makes of the
    value.  For a file name already in the table the file's record is
    updated and its former strings, with their translations, are deleted
    first; otherwise a record is added.  When an element cannot be bound
    the call throws.  A single [String] element is treated as the array of
    it. *)
Theorem importFile_result (db : Database.t) (name : jsstring)
    (p : Params.t) (ss : list Str.t) :
  match bind_all ss with
  | Some bs =>
      exists db',
        importFile db name (Some (mkResources (Some p) (Some (Strings ss))))
        = Returned db'
        /\ match find (fun f => bool_decide (DialogFiles.filename f = name))
                   (dialogFiles db) with
           | Some f =>
               dialogFiles db'
               = update_file (DialogFiles.id f) p (dialogFiles db)
               /\ dialogStrings db'
                  = delete_strings (DialogFiles.id f) (dialogStrings db)
                    ++ imported_rows
                         (next_id (strings_seq db)
                            (map DialogStrings.id
                               (delete_strings (DialogFiles.id f)
                                  (dialogStrings db))))
                         (DialogFiles.id f) bs
           | None =>
               dialogFiles db'
               = dialogFiles db ++ [new_file (next_file_id db) name p]
               /\ dialogStrings db'
                  = dialogStrings db
                    ++ imported_rows (next_string_id db) (next_file_id db) bs
           end
  | None =>
      exists db',
        importFile db name (Some (mkResources (Some p) (Some (Strings ss))))
        = Thrown db'
  end
  /\ (forall i s t, ss !! i = Some s -> Str.Source s = Text t ->
        forall bs, bind_all ss = Some bs ->
        bs !! i = Some (mkBound (Str.sID s) (Str.List s) (Some t)))
  /\ forall s,
       importFile db name (Some (mkResources (Some p) (Some (OneString s))))
       = importFile db name (Some (mkResources (Some p) (Some (Strings [s])))).
Proof.
  split; [|split].
  - destruct (bind_all ss) as [bs|] eqn:Hbs.
    + apply importFile_parts, Hbs.
    + unfold importFile. cbn [Content Params_].
      destruct (find _ (dialogFiles db)) as [f|];
        apply import_batches_unbound; rewrite ?length_map; try lia;
        exact Hbs.
  - intros i s t Hs Ht bs Hbs. apply (bind_all_lookup ss bs Hbs i s Hs).
    unfold bind. rewrite Ht. reflexivity.
  - intros s. reflexivity.
Qed.

Lemma find_update_file name p (files : list DialogFiles.row) f0 :
  find (fun f => bool_decide (DialogFiles.filename f = name)) files = Some f0 ->
  find (fun f => bool_decide (DialogFiles.filename f = name))
    (update_file (DialogFiles.id f0) p files)
  = Some (new_file (DialogFiles.id f0) name p).
Proof.
  induction files as [|f files IH]; [discriminate|].
  cbn [find update_file map].
  destruct (decide (DialogFiles.filename f = name)) as [E|E].
  - rewrite (bool_decide_eq_true_2 _ E). intros [= <-].
    rewrite (bool_decide_eq_true_2 (DialogFiles.id f = DialogFiles.id f))
      by reflexivity.
    cbn [DialogFiles.filename]. rewrite (bool_decide_eq_true_2 _ E).
    unfold new_file. rewrite E. reflexivity.
  - rewrite (bool_decide_eq_false_2 _ E). intros H.
    assert (E' : DialogFiles.filename
                   (if bool_decide (DialogFiles.id f = DialogFiles.id f0)
                    then DialogFiles.mk (DialogFiles.id f)
                           (DialogFiles.filename f)
                           (Some (Params.Addon p)) (Some (Params.Source p))
                           (Some (Params.Dest p)) (Some (Params.Version p))
                    else f) <> name)
      by (destruct (bool_decide _); exact E).
    rewrite (bool_decide_eq_false_2 _ E'). apply IH, H.
Qed.

Lemma find_app_new name p id (files : list DialogFiles.row) :
  find (fun f => bool_decide (DialogFiles.filename f = name)) files = None ->
  find (fun f => bool_decide (DialogFiles.filename f = name))
    (files ++ [new_file id name p])
  = Some (new_file id name p).
Proof.
  induction files as [|f files IH]; cbn [find app].
  - intros _. cbn [new_file DialogFiles.filename].
    rewrite bool_decide_eq_true_2 by reflexivity. reflexivity.
  - destruct (bool_decide (DialogFiles.filename f = name));
      [discriminate|exact IH].
Qed.

Lemma filter_imported_rows fid (ss : list bound) : forall first,
  List.filter (fun s => bool_decide (DialogStrings.fileId s = fid))
    (imported_rows first fid ss)
  = imported_rows first fid ss.
Proof.
  induction ss as [|s ss IH]; intros first; [reflexivity|].
  cbn [imported_rows List.filter new_row DialogStrings.fileId].
  rewrite bool_decide_eq_true_2 by reflexivity. rewrite IH. reflexivity.
Qed.

Lemma export_imported_rows fid (ss : list bound) : forall first,
  map (fun s => ExportStrings.mkString (DialogStrings.listId s)
                  (DialogStrings.sId s) (DialogStrings.source s)
                  (DialogStrings.dest s))
    (imported_rows first fid ss)
  = map exported ss.
Proof.
  induction ss as [|s ss IH]; intros first; [reflexivity|].
  cbn [imported_rows map]. rewrite IH. reflexivity.
Qed.

Lemma filter_delete_strings fid (strings : list DialogStrings.row) :
  List.filter (fun s => bool_decide (DialogStrings.fileId s = fid))
    (delete_strings fid strings) = [].
Proof.
  unfold delete_strings. rewrite filter_filter_and.
  induction strings as [|s strings IH]; [reflexivity|].
  cbn [List.filter]. destruct (bool_decide (DialogStrings.fileId s = fid));
    exact IH.
Qed.

Lemma filter_none {A} (f : A -> bool) (l : list A) :
  (forall x, In x l -> f x = false) -> List.filter f l = [].
Proof.
  induction l as [|x l IH]; intros H; [reflexivity|]. cbn [List.filter].
  rewrite (H x (or_introl eq_refl)). apply IH. intros y Hy. apply H.
  right. exact Hy.
Qed.

(** X22: export after import.  On a database whose strings refer to files
    of the table, when every element of a file can be bound, the object
    exported for the file just imported holds the parameters of the file
    and, for each [String] element of the file and in its order, its
    attributes, an empty [Dest] and as [Source] what the import stored:
    the text of the element when the parser returned a string, otherwise
    what the database made of the value. *)
Theorem export_after_import (db : Database.t) (name : jsstring)
    (p : Params.t) (ss : list Str.t) (bs : list bound) :
  (forall s, In s (dialogStrings db) ->
     exists f, In f (dialogFiles db)
               /\ DialogFiles.id f = DialogStrings.fileId s) ->
  bind_all ss = Some bs ->
  (exists db' f,
     importFile db name (Some (mkResources (Some p) (Some (Strings ss))))
     = Returned db'
     /\ find (fun f => bool_decide (DialogFiles.filename f = name))
          (dialogFiles db') = Some f
     /\ ExportStrings.exportFile db' f
        = ExportStrings.mkXml (Some (Params.Addon p)) (Some (Params.Source p))
            (Some (Params.Dest p)) (Some (Params.Version p))
            (map exported bs))
  /\ length bs = length ss
  /\ forall i s, ss !! i = Some s ->
       exists b, bs !! i = Some b
         /\ ExportStrings.sID (exported b) = Str.sID s
         /\ ExportStrings.List (exported b) = Some (Str.List s)
         /\ ExportStrings.Dest (exported b) = Some []
         /\ match Str.Source s with
            | Text t => ExportStrings.Source (exported b) = Some t
            | NotText column => ExportStrings.Source (exported b) = column
            | Unbound => False
            end.
Proof.
  intros Hfk Hbs. split; [|split; [apply (bind_all_length _ _ Hbs)|]].
  - destruct (importFile_parts db name p ss bs Hbs) as (db' & E & H).
    exists db'.
    destruct (find _ (dialogFiles db)) as [f0|] eqn:Ef; destruct H as [Hf Hs].
    + exists (new_file (DialogFiles.id f0) name p). split; [exact E|].
      split; [rewrite Hf; apply find_update_file, Ef|].
      unfold ExportStrings.exportFile. rewrite Hs.
      cbn [new_file DialogFiles.id DialogFiles.addon DialogFiles.sourceLang
           DialogFiles.destLang DialogFiles.version].
      rewrite List.filter_app, filter_delete_strings, filter_imported_rows.
      cbn [app]. rewrite export_imported_rows. reflexivity.
    + exists (new_file (next_file_id db) name p). split; [exact E|].
      split; [rewrite Hf; apply find_app_new, Ef|].
      unfold ExportStrings.exportFile. rewrite Hs.
      cbn [new_file DialogFiles.id DialogFiles.addon DialogFiles.sourceLang
           DialogFiles.destLang DialogFiles.version].
      rewrite List.filter_app, filter_imported_rows.
      assert (Hnone : List.filter
                (fun s => bool_decide
                   (DialogStrings.fileId s = next_file_id db))
                (dialogStrings db) = []).
      { assert (Hall : forall s, In s (dialogStrings db) ->
                  DialogStrings.fileId s <> next_file_id db).
        { intros s Hin. destruct (Hfk s Hin) as (f & Hf' & <-).
          assert (Hlt : (DialogFiles.id f < next_file_id db)%Z)
            by (apply next_id_fresh, in_map, Hf').
          lia. }
        apply filter_none. intros s Hin.
        apply bool_decide_eq_false_2, Hall, Hin. }
      rewrite Hnone. cbn [app]. rewrite export_imported_rows. reflexivity.
  - intros i s Hs. unfold exported.
    cbn [ExportStrings.sID ExportStrings.List ExportStrings.Dest
         ExportStrings.Source].
    destruct (bind s) as [b|] eqn:Eb.
    + exists b. split; [apply (bind_all_lookup ss bs Hbs i s Hs b Eb)|].
      unfold bind in Eb. destruct (Str.Source s) as [t|column|];
        try discriminate Eb; injection Eb as <-;
        cbn [b_sId b_listId b_source]; auto.
    + exfalso. clear -Hbs Hs Eb. revert i bs Hbs Hs.
      induction ss as [|s0 ss IH]; intros i bs Hbs Hs; [discriminate Hs|].
      cbn [bind_all] in Hbs. destruct i as [|i].
      * injection Hs as ->. rewrite Eb in Hbs. discriminate Hbs.
      * destruct (bind s0); [|discriminate].
        destruct (bind_all ss) as [r|]; [|discriminate].
        apply (IH i r eq_refl Hs).
Qed.

(** X22 at the empty database and a file of three elements, the source of
    the third of which reads as a number. *)
Lemma export_after_import_witness :
  exists db' f,
    importFile ImportExamples.empty_db (str "skyrim_english.xml")
      (Some (mkResources (Some ImportExamples.params)
               (Some (Strings ImportExamples.elements))))
    = Returned db'
    /\ find (fun f => bool_decide
                (DialogFiles.filename f = str "skyrim_english.xml"))
         (dialogFiles db') = Some f
    /\ ExportStrings.exportFile db' f
       = ExportStrings.mkXml (Some (str "Skyrim.esm")) (Some (str "english"))
           (Some (str "indonesian")) (Some 2%Z)
           (map exported ImportExamples.bound_elements).
Proof.
  refine (proj1 (export_after_import ImportExamples.empty_db
                   (str "skyrim_english.xml") ImportExamples.params
                   ImportExamples.elements ImportExamples.bound_elements
                   _ _)).
  - intros s [].
  - reflexivity.
Defined.

(** X23: how [importFile] fails.  With no [SSTXMLRessources] it returns
    and changes nothing; with no [Content], or no [Params], it throws and
    changes nothing.  With a [Content] that has no [String] element it
    throws after its first writes: for a file name already in the table
    the strings of the file are gone and no other string is touched; for
    a new file name the file's record is added, with no string. *)
Theorem importFile_failures (db : Database.t) (name : jsstring) :
  importFile db name None = Returned db
  /\ (forall params,
        importFile db name (Some (mkResources params None)) = Thrown db)
  /\ (forall content,
        importFile db name (Some (mkResources None (Some content)))
        = Thrown db)
  /\ (forall p,
        exists db',
          importFile db name (Some (mkResources (Some p) (Some NoString)))
          = Thrown db'
          /\ match find (fun f => bool_decide (DialogFiles.filename f = name))
                     (dialogFiles db) with
             | Some f =>
                 dialogFiles db'
                 = update_file (DialogFiles.id f) p (dialogFiles db)
                 /\ forall s,
                      In s (dialogStrings db') <->
                      In s (dialogStrings db)
                      /\ DialogStrings.fileId s <> DialogFiles.id f
             | None =>
                 dialogFiles db'
                 = dialogFiles db ++ [new_file (next_file_id db) name p]
                 /\ dialogStrings db' = dialogStrings db
             end).
Proof.
  split; [reflexivity|]. split; [reflexivity|]. split.
  - intros content. unfold importFile. cbn [Content Params_].
    destruct (find _ (dialogFiles db)); reflexivity.
  - intros p. unfold importFile. cbn [Content Params_].
    destruct (find _ (dialogFiles db)) as [f|].
    + eexists. split; [reflexivity|]. cbn [dialogFiles dialogStrings].
      split; [reflexivity|]. intros s. unfold delete_strings.
      rewrite filter_In. rewrite negb_true_iff.
      split; intros [H1 H2]; (split; [exact H1|]).
      * apply bool_decide_eq_false in H2. exact H2.
      * apply bool_decide_eq_false_2, H2.
    + eexists. split; [reflexivity|]. cbn [dialogFiles dialogStrings].
      split; reflexivity.
Qed.

Lemma map_id_update_file id p files :
  map DialogFiles.id (update_file id p files) = map DialogFiles.id files
  /\ map DialogFiles.filename (update_file id p files)
     = map DialogFiles.filename files.
Proof.
  unfold update_file. rewrite !map_map.
  split; apply map_ext; intros f; destruct (bool_decide _); reflexivity.
Qed.

Lemma NoDup_map_filter {A B} `{EqDecision B} (g : A -> B) (f : A -> bool)
    (l : list A) :
  NoDup (map g l) -> NoDup (map g (List.filter f l)).
Proof.
  induction l as [|x l IH]; cbn [map List.filter]; intros H; [exact H|].
  apply NoDup_cons in H. destruct H as [Hx H].
  destruct (f x); [|apply IH, H]. cbn [map]. apply NoDup_cons_2; [|apply IH, H].
  intros Hin. apply Hx. apply list_elem_of_In in Hin.
  apply list_elem_of_In. apply in_map_iff in Hin.
  destruct Hin as (y & <- & Hy). apply filter_In in Hy.
  apply in_map, Hy.
Qed.

Lemma wf_insert_string fid db s :
  wf_db db ->
  (exists f, In f (dialogFiles db) /\ DialogFiles.id f = fid) ->
  wf_db (insert_string fid db s).
Proof.
  intros (H1 & H2 & H3 & H4) Hf. unfold wf_db, insert_string.
  cbn [dialogFiles dialogStrings]. split; [exact H1|]. split; [exact H2|].
  split.
  - rewrite map_app. apply NoDup_app. split; [exact H3|]. split.
    + intros x Hx Hin. cbn [map new_row DialogStrings.id] in Hin.
      apply list_elem_of_singleton in Hin. subst x.
      apply list_elem_of_In in Hx.
      pose proof (next_id_fresh (strings_seq db) _ _ Hx) as Hlt.
      unfold next_string_id in Hlt. lia.
    + apply NoDup_singleton.
  - intros r Hr. apply in_app_or in Hr. destruct Hr as [Hr|[<-|[]]].
    + apply H4, Hr.
    + exact Hf.
Qed.

Lemma wf_insert_batch fid batch : forall db,
  wf_db db ->
  (exists f, In f (dialogFiles db) /\ DialogFiles.id f = fid) ->
  wf_db (insert_batch fid db batch)
  /\ dialogFiles (insert_batch fid db batch) = dialogFiles db.
Proof.
  induction batch as [|s batch IH]; intros db Hwf Hf;
    cbn [insert_batch foldl]; [auto|].
  fold (insert_batch fid (insert_string fid db s) batch).
  destruct (IH (insert_string fid db s) (wf_insert_string fid db s Hwf Hf) Hf)
    as [H1 H2].
  split; [exact H1|]. rewrite H2. reflexivity.
Qed.

Lemma wf_import_batches fid strings : forall fuel i db,
  wf_db db ->
  (exists f, In f (dialogFiles db) /\ DialogFiles.id f = fid) ->
  wf_db (db_of (import_batches fuel fid strings i db)).
Proof.
  induction fuel as [|fuel IH]; intros i db Hwf Hf; [exact Hwf|].
  cbn [import_batches]. destruct (i <? length strings)%nat; [|exact Hwf].
  destruct (defined _) as [batch|]; [|exact Hwf].
  destruct (bind_all batch) as [values|]; [|exact Hwf].
  destruct (wf_insert_batch fid values db Hwf Hf) as [H1 H2].
  apply IH; [exact H1|]. rewrite H2. exact Hf.
Qed.

Lemma wf_importFile db name result :
  wf_db db -> wf_db (db_of (importFile db name result)).
Proof.
  intros Hwf. unfold importFile. destruct result as [res|]; [|exact Hwf].
  destruct (Content res) as [c|]; [|exact Hwf].
  destruct (find _ (dialogFiles db)) as [f0|] eqn:Ef;
    (destruct (Params_ res) as [p|]; [|exact Hwf]);
    destruct Hwf as (H1 & H2 & H3 & H4).
  - apply find_some in Ef. destruct Ef as [Hin _].
    apply wf_import_batches.
    + unfold wf_db. cbn [dialogFiles dialogStrings].
      destruct (map_id_update_file (DialogFiles.id f0) p (dialogFiles db))
        as [E1 E2].
      rewrite E1, E2. split; [exact H1|]. split; [exact H2|]. split.
      * apply NoDup_map_filter, H3.
      * intros s Hs. apply filter_In in Hs. destruct Hs as [Hs _].
        destruct (H4 s Hs) as (f & Hf & Hid).
        assert (Hx : In (DialogFiles.id f)
                       (map DialogFiles.id
                          (update_file (DialogFiles.id f0) p (dialogFiles db))))
          by (rewrite E1; apply in_map, Hf).
        apply in_map_iff in Hx. destruct Hx as (f' & Hid' & Hf').
        exists f'. split; [exact Hf'|congruence].
    + cbn [dialogFiles].
      assert (Hx : In (DialogFiles.id f0)
                     (map DialogFiles.id
                        (update_file (DialogFiles.id f0) p (dialogFiles db))))
        by (rewrite (proj1 (map_id_update_file _ _ _)); apply in_map, Hin).
      apply in_map_iff in Hx. destruct Hx as (f' & Hid' & Hf').
      exists f'. auto.
  - apply wf_import_batches.
    + unfold wf_db. cbn [dialogFiles dialogStrings]. rewrite !map_app.
      cbn [map new_file DialogFiles.id DialogFiles.filename].
      split; [|split; [|split]].
      * apply NoDup_app. split; [exact H1|]. split; [|apply NoDup_singleton].
        intros x Hx Hin. apply list_elem_of_singleton in Hin. subst x.
        apply list_elem_of_In in Hx.
        pose proof (next_id_fresh (files_seq db) _ _ Hx) as Hlt.
        unfold next_file_id in Hlt. lia.
      * apply NoDup_app. split; [exact H2|]. split; [|apply NoDup_singleton].
        intros x Hx Hin. apply list_elem_of_singleton in Hin. subst x.
        apply list_elem_of_In, in_map_iff in Hx.
        destruct Hx as (f & Hname & Hf).
        pose proof (find_none _ _ Ef f Hf) as Hnone. cbn beta in Hnone.
        apply bool_decide_eq_false in Hnone. contradiction.
      * exact H3.
      * intros s Hs. destruct (H4 s Hs) as (f & Hf & Hid).
        exists f. split; [apply in_or_app; left; exact Hf|exact Hid].
    + cbn [dialogFiles]. exists (new_file (next_file_id db) name p).
      split; [apply in_or_app; right; left; reflexivity|reflexivity].
Qed.

(** X24: an import run keeps the constraints of the schema, however it
    ends: the ids of files and of strings stay distinct, the file names
    stay distinct, and every string refers to a file of the table. *)
Theorem import_main_keeps_constraints (db : Database.t)
    (files : list (jsstring * option Resources)) :
  wf_db db -> wf_db (db_of (ImportStrings.main db files)).
Proof.
  intros Hwf. unfold ImportStrings.main.
  generalize (List.filter (fun file => endsWith (str ".xml") (fst file)) files).
  intros l.
  assert (H : forall o, wf_db (db_of o) ->
            wf_db (db_of (foldl
              (fun acc file =>
                 match acc with
                 | Returned d => importFile d (fst file) (snd file)
                 | Thrown d => Thrown d
                 end) o l))).
  { induction l as [|file l IH]; intros o Ho; [exact Ho|].
    cbn [foldl]. apply IH. destruct o as [d|d]; [|exact Ho].
    apply wf_importFile, Ho. }
  apply (H (Returned db)), Hwf.
Qed.

(** X24 at the empty database and a directory of two files. *)
Lemma import_main_keeps_constraints_witness :
  wf_db (db_of (ImportStrings.main ImportExamples.empty_db
                  ImportExamples.directory)).
Proof.
  apply (import_main_keeps_constraints ImportExamples.empty_db
           ImportExamples.directory).
  unfold wf_db. cbn [ImportExamples.empty_db dialogFiles dialogStrings map].
  split; [apply NoDup_nil_2|]. split; [apply NoDup_nil_2|].
  split; [apply NoDup_nil_2|]. intros s [].
Defined.

Lemma list_sum_cons (x : nat) (l : list nat) :
  list_sum (x :: l) = x + list_sum l.
Proof. reflexivity. Qed.

Lemma count_file_id (files : list DialogFiles.row) (x : Z) :
  NoDup (map DialogFiles.id files) ->
  (exists f, In f files /\ DialogFiles.id f = x) ->
  list_sum (map (fun f => if bool_decide (x = DialogFiles.id f)
                          then 1 else 0) files) = 1.
Proof.
  induction files as [|f files IH]; cbn [map]; intros Hnd Hex.
  - destruct Hex as (f & [] & _).
  - rewrite list_sum_cons.
    apply NoDup_cons in Hnd. destruct Hnd as [Hf Hnd].
    destruct (decide (x = DialogFiles.id f)) as [E|E].
    + rewrite (bool_decide_eq_true_2 _ E).
      assert (H0 : list_sum (map (fun f => if bool_decide (x = DialogFiles.id f)
                                           then 1 else 0) files) = 0).
      { clear IH Hex Hnd. induction files as [|g files IH]; [reflexivity|].
        cbn [map]. rewrite list_sum_cons. rewrite bool_decide_eq_false_2.
        - rewrite IH; [reflexivity|]. intros H. apply Hf.
          cbn [map]. apply elem_of_cons. right. exact H.
        - intros Eg. apply Hf. cbn [map]. apply elem_of_cons. left.
          congruence. }
      rewrite H0. reflexivity.
    + rewrite (bool_decide_eq_false_2 _ E). cbn [plus]. apply IH; [exact Hnd|].
      destruct Hex as (g & [->|Hg] & Eg); [congruence|]. exists g. auto.
Qed.

Lemma list_sum_map_add {A} (a b : A -> nat) (l : list A) :
  list_sum (map (fun x => a x + b x) l)
  = list_sum (map a l) + list_sum (map b l).
Proof.
  induction l as [|x l IH]; [reflexivity|]. cbn [map].
  rewrite !list_sum_cons, IH. lia.
Qed.

Lemma export_count (files : list DialogFiles.row)
    (strings : list DialogStrings.row) :
  NoDup (map DialogFiles.id files) ->
  (forall s, In s strings ->
     exists f, In f files /\ DialogFiles.id f = DialogStrings.fileId s) ->
  list_sum (map (fun f => length (List.filter
                   (fun s => bool_decide
                      (DialogStrings.fileId s = DialogFiles.id f)) strings))
              files)
  = length strings.
Proof.
  intros Hnd. induction strings as [|s strings IH]; intros Hfk.
  - cbn [List.filter length]. clear. induction files as [|f files IHf];
      [reflexivity|]. cbn [map]. rewrite list_sum_cons. exact IHf.
  - cbn [List.filter length].
    rewrite (map_ext _
               (fun f => (if bool_decide
                               (DialogStrings.fileId s = DialogFiles.id f)
                          then 1 else 0)
                         + length (List.filter
                             (fun s => bool_decide
                                (DialogStrings.fileId s = DialogFiles.id f))
                             strings))).
    + rewrite list_sum_map_add, IH.
      * rewrite count_file_id; [reflexivity|exact Hnd|].
        apply Hfk. left. reflexivity.
      * intros s' Hs'. apply Hfk. right. exact Hs'.
    + intros f. destruct (bool_decide _); reflexivity.
Qed.

(** X26: an export run writes every string of the table once.  On a
    database that keeps the constraints of the schema no two files are
    written under the same name, every string is in the object built for
    its file, and the objects together hold as many [String] elements as
    the table has strings. *)
Theorem export_main_covers_strings (db : Database.t) :
  wf_db db ->
  NoDup (map fst (ExportStrings.main db))
  /\ (forall s, In s (dialogStrings db) ->
        exists f, In f (dialogFiles db)
          /\ DialogFiles.id f = DialogStrings.fileId s
          /\ In (DialogFiles.filename f, ExportStrings.exportFile db f)
               (ExportStrings.main db)
          /\ In (exported_row s)
               (ExportStrings.ContentString (ExportStrings.exportFile db f)))
  /\ length (concat (map (fun o => ExportStrings.ContentString (snd o))
                       (ExportStrings.main db)))
     = length (dialogStrings db).
Proof.
  intros (H1 & H2 & H3 & H4). unfold ExportStrings.main. split; [|split].
  - rewrite map_map. cbn [fst]. exact H2.
  - intros s Hs. destruct (H4 s Hs) as (f & Hf & Hid).
    exists f. split; [exact Hf|]. split; [exact Hid|]. split.
    + apply in_map_iff. exists f. auto.
    + unfold ExportStrings.exportFile. cbn [ExportStrings.ContentString].
      apply in_map_iff. exists s. split; [reflexivity|].
      apply filter_In. split; [exact Hs|].
      apply bool_decide_eq_true_2. congruence.
  - rewrite map_map. cbn [snd]. rewrite length_concat, map_map.
    unfold ExportStrings.exportFile. cbn [ExportStrings.ContentString].
    rewrite <- (export_count (dialogFiles db) (dialogStrings db) H1 H4).
    f_equal. apply map_ext. intros f. apply length_map.
Qed.

(** X26 at a database of one file with two strings. *)
Lemma export_main_covers_strings_witness :
  length (concat (map (fun o => ExportStrings.ContentString (snd o))
                    (ExportStrings.main ImportExamples.small_db)))
  = length (dialogStrings ImportExamples.small_db).
Proof.
  refine (proj2 (proj2 (export_main_covers_strings ImportExamples.small_db _))).
  unfold wf_db.
  cbn [ImportExamples.small_db dialogFiles dialogStrings map
       DialogFiles.id DialogFiles.filename DialogStrings.id].
  split; [apply NoDup_singleton|]. split; [apply NoDup_singleton|]. split.
  - apply NoDup_cons_2; [|apply NoDup_singleton].
    intros H. apply list_elem_of_singleton in H. discriminate H.
  - intros s [<-|[<-|[]]]; eexists; (split; [left; reflexivity|reflexivity]).
Defined.

End ImportExtras.

(** ** Rows without a category *)

Section CategoryExtras.
Import MaskStrings Translate Spec.

Lemma split_last_underscore (x y i j : jsstring) :
  ~ In "_"%char i -> ~ In "_"%char j ->
  x ++ "_"%char :: i = y ++ "_"%char :: j -> x = y /\ i = j.
Proof.
  revert y. induction x as [|c x IH]; intros [|d y] Hi Hj E; cbn [app] in E.
  - injection E as E. auto.
  - injection E as Hd Ei. subst i. exfalso. apply Hi, in_or_app. right. left.
    reflexivity.
  - injection E as Hc Ej. subst j. exfalso. apply Hj, in_or_app. right. left.
    reflexivity.
  - injection E as Hc E. destruct (IH y Hi Hj E) as [Hx Hij].
    subst. auto.
Qed.

Lemma id_chars_no_underscore (i : jsstring) :
  forallb is_id_char i = true -> ~ In "_"%char (i ++ ["]"%char]).
Proof.
  intros H Hin. apply in_app_or in Hin. destruct Hin as [Hin|[Hin|[]]].
  - rewrite forallb_forall in H. specialize (H _ Hin). discriminate H.
  - discriminate Hin.
Qed.

(** X25: a glossary row whose category is null or empty is masked with the
    category [Term], but the cache of the translation script holds it
    under another key: with ids that are distinct words of lower-case
    letters and digits, the cache has no entry for its placeholder, and
    unmasking leaves the placeholder in the text. *)
Theorem uncategorized_term_stays_masked (g : list Glossary.row)
    (t : Glossary.row) :
  NoDup (map Glossary.id g) ->
  (forall r, In r g -> forallb is_id_char (Glossary.id r) = true) ->
  In t g ->
  Glossary.id t <> [] ->
  truthy (Glossary.category t) = false ->
  let tok := placeholder (category (to_entry t)) (id (to_entry t)) in
  tok = str "[Term_" ++ Glossary.id t ++ str "]"
  /\ loadGlossaryCache g !! tok = None
  /\ unmaskText tok (loadGlossaryCache g) = tok.
Proof.
  intros Hnd Hids Ht Hid Hcat. cbv zeta.
  assert (Etok : placeholder (category (to_entry t)) (id (to_entry t))
                 = str "[Term_" ++ Glossary.id t ++ str "]").
  { unfold placeholder, to_entry, category_or_Term. cbn [category id].
    destruct (Glossary.category t) as [[|c cat]|]; try discriminate Hcat;
      reflexivity. }
  assert (Hnone : loadGlossaryCache g
                    !! placeholder (category (to_entry t)) (id (to_entry t))
                  = None).
  { destruct (loadGlossaryCache g !! _) as [v|] eqn:E; [|reflexivity].
    exfalso. apply loadGlossaryCache_Some in E.
    destruct E as (r & Hr & Hkey & _). rewrite Etok in Hkey.
    unfold cache_key in Hkey. injection Hkey as Hkey.
    apply (split_last_underscore (interpolate (Glossary.category r))
             (str "Term") (Glossary.id r ++ ["]"%char])
             (Glossary.id t ++ ["]"%char])) in Hkey;
      [|apply id_chars_no_underscore, Hids, Hr
       |apply id_chars_no_underscore, Hids, Ht].
    destruct Hkey as [Hc Hi]. apply app_inv_tail in Hi.
    assert (r = t).
    { clear -Hnd Hr Ht Hi. induction g as [|x g IH]; [destruct Hr|].
      cbn [map] in Hnd. apply NoDup_cons in Hnd. destruct Hnd as [Hx Hnd].
      assert (Hne : forall y, In y g -> Glossary.id y <> Glossary.id x).
      { intros y Hy Ey. apply Hx, list_elem_of_In, in_map_iff.
        exists y. auto. }
      destruct Hr as [->|Hr], Ht as [->|Ht]; auto.
      - exfalso. apply (Hne t Ht). congruence.
      - exfalso. apply (Hne r Hr). congruence. }
    subst r. destruct (Glossary.category t) as [[|c cat]|];
      try discriminate Hcat; discriminate Hc. }
  split; [exact Etok|]. split; [exact Hnone|].
  assert (Hp : is_placeholder
                 (placeholder (category (to_entry t)) (id (to_entry t)))).
  { exists (str "Term"), (Glossary.id t). rewrite Etok.
    split; [reflexivity|]. split; [discriminate|]. split; [reflexivity|].
    split; [exact Hid|apply Hids, Ht]. }
  rewrite <- (app_nil_r (placeholder _ _)) at 1.
  rewrite (unmaskText_hit _ _ [] Hp), unmaskText_nil, app_nil_r.
  unfold unmask_replacer. rewrite Hnone. reflexivity.
Qed.

(** X25 at a glossary of one row with no category. *)
Lemma uncategorized_term_stays_masked_witness :
  unmaskText (str "[Term_a1]") (loadGlossaryCache RunExamples.uncategorized)
  = str "[Term_a1]".
Proof.
  refine (proj2 (proj2 (uncategorized_term_stays_masked
                          RunExamples.uncategorized
                          (Glossary.mk (str "a1") (str "Whiterun") None)
                          _ _ _ _ _))).
  - apply NoDup_singleton.
  - intros r [<-|[]]. reflexivity.
  - left. reflexivity.
  - discriminate.
  - reflexivity.
Defined.

End CategoryExtras.

(** ** Terms that begin and end with a word character *)

Section WordExtras.
Import MaskStrings Spec.

(** X27: for a glossary whose terms begin and end with a word character
    (a letter, a digit or an underscore), masking replaces whole words
    only, up to case, from left to right and without overlap: where no
    term stands as a whole word the character is kept; where some do, the
    span of the longest of them is replaced with the placeholder of a term
    equal to the span up to case, and reading goes on after the span. *)
Theorem maskText_whole_words (g : list Glossary.row) (text : jsstring) :
  (forall t, In t g -> word_ended (Glossary.term t) = true) ->
  masked_words (map to_entry g) None text (maskText g text).
Proof.
  intros Hw. apply masked_as_words.
  - intros e He. apply in_map_iff in He. destruct He as (t & <- & Ht).
    apply Hw, Ht.
  - destruct g as [|t g]; [apply masked_as_no_term|].
    rewrite maskText_nonempty by discriminate.
    apply mask_from_masked_as; [discriminate|].
    intros t' Ht'. apply word_ended_nonempty, Hw, Ht'.
Qed.

(** X27 at the glossary of Whiterun and a sentence that names it. *)
Lemma maskText_whole_words_witness :
  masked_words (map to_entry Examples.whiterun) None
    (str "Welcome to Whiterun, traveler.")
    (maskText Examples.whiterun (str "Welcome to Whiterun, traveler.")).
Proof.
  apply (maskText_whole_words Examples.whiterun).
  intros t [<-|[]]. reflexivity.
Defined.

End WordExtras.
